(** * Sonic Stitcher Pro: track analysis, transition planning, FX,
      mastering and rendering

    A shallow embedding of the TypeScript core
    ([audioAnalysis.ts], [transitionEngine.ts], [fxProcessor.ts],
    [masteringProcessor.ts], [audioProcessor.ts]) and the properties the
    specification states about it.

    Numbers.  A JavaScript [number] is an IEEE-754 binary64 value, so it is
    modelled by Rocq's primitive [float]: NaN, the infinities, the signed
    zeros and rounding behave as they do in the engine, and every
    comparison with NaN is false.  A [Float32Array] slot holds the value
    rounded to binary32 ([fround]).  Integers that the program only ever
    uses as array lengths, loop counters and indices are [nat] or [Z].
    [Math.cos], [Math.sin] and [Math.log2] are implementation-approximated
    in ECMAScript; they are the fields of the class [MathLib], and
    [Math.tanh], [Math.pow] and [Math.log10], which only the mastering
    chain uses, are the fields of the class [MasteringMath].  What a
    theorem needs of them is a hypothesis of that theorem. *)

From Stdlib Require Import ZArith List Bool String Ascii Lia.
From Stdlib Require Import Floats.
From Stdlib Require Import Sorted.
Import ListNotations.
Set Warnings "-inexact-float".

(* ------------------------------------------------------------------ *)
(** * JavaScript numbers *)
(* ------------------------------------------------------------------ *)

Module JS.
Local Open Scope float_scope.

(** The number whose value is the integer [z] (exact below 2^53). *)
Definition Z2f (z : Z) : float :=
  SF2Prim (binary_normalize prec emax z 0 false).

Definition N2f (n : nat) : float := Z2f (Z.of_nat n).

(** [Math.fround]: rounding to binary32, what a store into a
    [Float32Array] does. *)
Definition fround (f : float) : float :=
  match Prim2SF f with
  | S754_finite s m e =>
      SF2Prim (binary_normalize 24 128 (if s then Z.neg m else Z.pos m) e s)
  | _ => f
  end.

Definition Float32Array (l : list float) : list float := map fround l.

Definition isFinite (x : float) : bool := is_finite x.
Definition isNaN (x : float) : bool := is_nan x.

(** [a > b] and [a >= b] of the source. *)
Definition gtb (a b : float) : bool := b <? a.
Definition geb (a b : float) : bool := b <=? a.

Definition Math_PI : float := 3.141592653589793.
Definition Math_abs (x : float) : float := PrimFloat.abs x.
Definition Math_sqrt (x : float) : float := PrimFloat.sqrt x.

(** [Math.max] and [Math.min] of two arguments: NaN if either is NaN,
    and -0 is smaller than +0. *)
Definition Math_max (a b : float) : float :=
  if is_nan a || is_nan b then nan
  else if a <? b then b
  else if b <? a then a
  else if get_sign a then b else a.

Definition Math_min (a b : float) : float :=
  if is_nan a || is_nan b then nan
  else if a <? b then a
  else if b <? a then b
  else if get_sign a then a else b.

(** An integer-valued number: what [Math.floor] and [Math.round] return. *)
Inductive integral : Type :=
| NaNI
| InfI (negative : bool)
| IntI (z : Z).

(** The integer below [f]; [Z.shiftl] by a negative amount is the floored
    division by a power of two. *)
Definition floorI (f : float) : integral :=
  match Prim2SF f with
  | S754_zero _ => IntI 0
  | S754_infinity s => InfI s
  | S754_nan => NaNI
  | S754_finite s m e => IntI (Z.shiftl (if s then Z.neg m else Z.pos m) e)
  end.

(** [Math.round]: the integer nearest to [f], ties towards +infinity,
    that is floor(f + 1/2) computed exactly. *)
Definition roundI (f : float) : integral :=
  match Prim2SF f with
  | S754_zero _ => IntI 0
  | S754_infinity s => InfI s
  | S754_nan => NaNI
  | S754_finite s m e =>
      let z := if s then Z.neg m else Z.pos m in
      if (0 <=? e)%Z then IntI (Z.shiftl z e)
      else IntI (Z.shiftl (2 * z + Z.shiftl 1 (- e)) (e - 1))
  end.

Definition of_integral (orig : float) (i : integral) : float :=
  match i with
  | IntI z => if (z =? 0)%Z && get_sign orig then (-0) else Z2f z
  | _ => orig
  end.

Definition Math_floor (f : float) : float := of_integral f (floorI f).
Definition Math_round (f : float) : float := of_integral f (roundI f).

(** [a % b] for an integer dividend and an integer-valued divisor: NaN
    for a zero or NaN divisor, the dividend for an infinite one. *)
Definition remI (a : Z) (b : integral) : integral :=
  match b with
  | NaNI => NaNI
  | InfI _ => IntI a
  | IntI z => if (z =? 0)%Z then NaNI else IntI (Z.rem a z)
  end.

(** [parseInt(s)] on a string that starts with decimal digits (the only
    use in the program); NaN when there is no leading digit. *)
Definition digit_of (c : ascii) : option Z :=
  let n := Z.of_nat (nat_of_ascii c) in
  if (48 <=? n)%Z && (n <=? 57)%Z then Some (n - 48)%Z else None.

Fixpoint parse_digits (s : string) (acc : option Z) : option Z :=
  match s with
  | EmptyString => acc
  | String c rest =>
      match digit_of c with
      | Some d =>
          parse_digits rest
            (Some (match acc with Some a => 10 * a + d | None => d end)%Z)
      | None => acc
      end
  end.

Definition parseInt (s : string) : float :=
  match parse_digits s None with
  | Some z => Z2f z
  | None => nan
  end.

(** Array helpers: [a.slice(i, j)] with [0 <= i], reading [a[i]] (NaN
    stands for the [undefined] an out-of-range read gives, which every
    arithmetic use turns into NaN), and the indices of
    [for (i = start; i < bound; i += step)]. *)
Definition slice {A} (l : list A) (i j : nat) : list A :=
  firstn (j - i) (skipn i l).

Definition get (l : list float) (i : nat) : float := nth i l nan.

Definition getZ (l : list float) (i : Z) : float :=
  if (i <? 0)%Z then nan else get l (Z.to_nat i).

Fixpoint range_step_aux (fuel i bound step : nat) : list nat :=
  match fuel with
  | O => []
  | S fuel' =>
      if (i <? bound)%nat
      then i :: range_step_aux fuel' (i + step) bound step
      else []
  end.

Definition range_step (start bound step : nat) : list nat :=
  range_step_aux bound start bound step.

(** The integers [lo], [lo+1], ..., [hi-1]. *)
Definition Zrange (lo hi : Z) : list Z :=
  map (fun k => (lo + Z.of_nat k)%Z) (seq 0 (Z.to_nat (hi - lo))).

Definition sum (l : list float) : float := fold_left PrimFloat.add l 0.

(** [Math.max(...l)]. *)
Definition Math_max_list (l : list float) : float :=
  fold_left Math_max l neg_infinity.

(** [l.indexOf(v)]: strict equality, -1 when absent. *)
Fixpoint indexOf_from (l : list float) (v : float) (i : Z) : Z :=
  match l with
  | [] => (-1)%Z
  | x :: rest => if x =? v then i else indexOf_from rest v (i + 1)%Z
  end.

Definition indexOf (l : list float) (v : float) : Z := indexOf_from l v 0.

(** [l[i] += v] on a plain array, for an index in range. *)
Fixpoint add_at (l : list float) (i : nat) (v : float) : list float :=
  match l, i with
  | [], _ => []
  | x :: rest, O => (x + v) :: rest
  | x :: rest, S i' => x :: add_at rest i' v
  end.

(** A store [a[i] = v] into a typed array: ignored out of range. *)
Fixpoint set_at (l : list float) (i : nat) (v : float) : list float :=
  match l, i with
  | [], _ => []
  | _ :: rest, O => fround v :: rest
  | x :: rest, S i' => x :: set_at rest i' v
  end.

Definition setZ (l : list float) (i : Z) (v : float) : list float :=
  if (i <? 0)%Z then l else set_at l (Z.to_nat i) v.

(** An object used as a map from property names, and [x || d] on a
    possibly missing number: [d] for [undefined], NaN and the zeros. *)
Fixpoint lookup {A} (k : string) (m : list (string * A)) : option A :=
  match m with
  | [] => None
  | (k', v) :: rest => if String.eqb k k' then Some v else lookup k rest
  end.

Definition or_default (x : option float) (d : float) : float :=
  match x with
  | Some v => if is_nan v || (v =? 0) then d else v
  | None => d
  end.

End JS.

(** The transcendental functions of the engine's [Math] object. *)
Class MathLib : Type := {
  Math_cos : float -> float;
  Math_sin : float -> float;
  Math_log2 : float -> float
}.

(* ------------------------------------------------------------------ *)
(** * Track analyzer ([audioAnalysis.ts]) *)
(* ------------------------------------------------------------------ *)

(** An [AudioBuffer]: the sample rate, the frame count [length] and the
    channel data ([Float32Array]s). *)
Record AudioBuffer : Type := mkAudioBuffer {
  sampleRate : float;
  buffer_length : nat;
  channels : list (list float)
}.

Definition numberOfChannels (b : AudioBuffer) : nat := List.length (channels b).

(** [getChannelData(ch)] throws on a channel that does not exist. *)
Definition getChannelData (b : AudioBuffer) (ch : nat) : option (list float) :=
  nth_error (channels b) ch.

Record AnalysisSummary : Type := mkAnalysisSummary {
  bpm : float;
  bpmAlt : float;
  bpmConfidence : float;
  camelot : string;
  keySemitone : Z;
  keyConfidence : float;
  beatTimes : list float;
  downbeatIndices : list Z;
  phraseSpans : list (Z * Z);
  energyCurve : list float;
  vocalLikelihood : list float;
  kickTimes : list float
}.

Module Analysis.
Import JS.
Local Open Scope string_scope.
Local Open Scope float_scope.
Local Open Scope list_scope.

(** Key to Camelot mapping; [None] is the [undefined] of a missing key. *)
Definition KEY_TO_CAMELOT (key : Z) : option string :=
  match key with
  | 0%Z => Some "8B" | 1%Z => Some "3B" | 2%Z => Some "10B"
  | 3%Z => Some "5B" | 4%Z => Some "12B" | 5%Z => Some "7B"
  | 6%Z => Some "2B" | 7%Z => Some "9B" | 8%Z => Some "4B"
  | 9%Z => Some "11B" | 10%Z => Some "6B" | 11%Z => Some "1B"
  | 12%Z => Some "5A" | 13%Z => Some "12A" | 14%Z => Some "7A"
  | 15%Z => Some "2A" | 16%Z => Some "9A" | 17%Z => Some "4A"
  | 18%Z => Some "11A" | 19%Z => Some "6A" | 20%Z => Some "1A"
  | 21%Z => Some "8A" | 22%Z => Some "3A" | 23%Z => Some "10A"
  | _ => None
  end.

(** The summary returned by the [catch] branch of [analyzeTrack]. *)
Definition default_beats : list float := [0; 0.5; 1.0; 1.5].
Definition default_downbeats : list Z := [0; 4; 8; 12]%Z.

Definition fallback_summary : AnalysisSummary :=
  {| bpm := 120;
     bpmAlt := 60;
     bpmConfidence := 0;
     camelot := "1A";
     keySemitone := 0;
     keyConfidence := 0;
     beatTimes := Float32Array [0; 0.5; 1.0; 1.5];
     downbeatIndices := [0; 4; 8; 12]%Z;
     phraseSpans := [(0, 16)%Z];
     energyCurve := Float32Array [0.5];
     vocalLikelihood := Float32Array [0.3];
     kickTimes := Float32Array [0; 0.5; 1.0; 1.5] |}.

Section WithMath.
Context {M : MathLib}.

(** Simple FFT implementation (magnitude only): the first half of the
    bins of a naive DFT, the rest of the [Float32Array] left at zero. *)
Definition dft_bin (data : list float) (n k : nat) : float * float :=
  fold_left
    (fun (acc : float * float) (ix : nat * float) =>
       let '(real, imag) := acc in
       let '(i, x) := ix in
       if isFinite x then
         let angle := (2 * Math_PI * N2f k * N2f i) / N2f n in
         (real + x * Math_cos angle, imag - x * Math_sin angle)
       else (real, imag))
    (combine (seq 0 n) data) (0, 0).

Definition fft (data : list float) : list float :=
  let n := List.length data in
  if (n =? 0)%nat then repeat 0 1024
  else
    map (fun k =>
           if (2 * k <? n)%nat then
             let '(real, imag) := dft_bin data n k in
             let magnitude := Math_sqrt (real * real + imag * imag) in
             fround (if isFinite magnitude then magnitude else 0)
           else 0)
        (seq 0 n).

Definition isLocalPeak (data : list float) (index range : Z) : bool :=
  let value := getZ data index in
  forallb
    (fun i =>
       negb (negb (i =? index)%Z && (0 <=? i)%Z
             && (i <? Z.of_nat (List.length data))%Z
             && geb (getZ data i) value))
    (Zrange (index - range) (index + range + 1)).

(** The spectral flux between two successive magnitude spectra. *)
Definition flux_between (spectrum prevSpectrum : list float) : float :=
  fold_left
    (fun flux (sp : float * float) =>
       let diff := Math_max 0 (fst sp - snd sp) in
       flux + diff * diff)
    (combine spectrum prevSpectrum) 0.

(** The first loop of [detectBeats]: [prevSpectrum] and the flux values
    pushed so far are the loop state. *)
Definition spectral_flux (data : list float) : list float :=
  let hopSize := 512%nat in
  let windowSize := 2048%nat in
  snd
    (fold_left
       (fun (st : option (list float) * list float) (i : nat) =>
          let '(prevSpectrum, spectralFlux) := st in
          let window := slice data i (i + windowSize) in
          let spectrum := fft window in
          match prevSpectrum with
          | Some prev =>
              let flux := flux_between spectrum prev in
              (Some spectrum,
               if gtb flux 0 then spectralFlux ++ [Math_sqrt flux]
               else spectralFlux)
          | None => (Some spectrum, spectralFlux)
          end)
       (range_step 0 (List.length data - windowSize) hopSize)
       (None, [])).

(** Peak picking with adaptive threshold.  [windowLen] is an integer of
    at least 1, +Infinity or NaN; in the last two cases the loop
    condition [i < spectralFlux.length - windowLen] is false at once. *)
Definition pick_peaks (spectralFlux : list float) (sampleRate : float)
  : list float :=
  let hopSize := 512 in
  let windowLen := Math_max 1 (Math_floor (sampleRate / hopSize)) in
  match floorI windowLen with
  | IntI w =>
      fold_left
        (fun beats i =>
           let window :=
             slice spectralFlux (Z.to_nat (i - w)) (Z.to_nat (i + w)) in
           if (List.length window =? 0)%nat then beats
           else
             let mean := sum window / N2f (List.length window) in
             if negb (isFinite mean) || (mean <=? 0) then beats
             else
               let threshold := mean * 1.5 in
               if gtb (getZ spectralFlux i) threshold
                  && isLocalPeak spectralFlux i 3
               then
                 let timeSeconds := (Z2f i * hopSize) / sampleRate in
                 if isFinite timeSeconds && geb timeSeconds 0
                 then beats ++ [timeSeconds]
                 else beats
               else beats)
        (Zrange w (Z.of_nat (List.length spectralFlux) - w))
        []
  | _ => []
  end.

Definition detectBeats (data : list float) (sampleRate : float) : list float :=
  let windowSize := 2048%nat in
  if (List.length data <? windowSize)%nat || (sampleRate <=? 0)
  then default_beats
  else
    let spectralFlux := spectral_flux data in
    if (List.length spectralFlux <? 2)%nat then default_beats
    else
      let beats := pick_peaks spectralFlux sampleRate in
      if (List.length beats =? 0)%nat then default_beats else beats.

(** ** Tempo *)

Record BPMData : Type := mkBPMData {
  bpm_main : float;
  bpm_alt : float;
  bpm_confidence : float
}.

Definition default_bpm : BPMData :=
  {| bpm_main := 120; bpm_alt := 60; bpm_confidence := 0 |}.

(** Inter-beat intervals [beats[i] - beats[i-1]], [i] from 1. *)
Fixpoint beat_intervals (beats : list float) : list float :=
  match beats with
  | b0 :: (b1 :: _) as rest =>
      let interval := b1 - b0 in
      if gtb interval 0 && isFinite interval
      then interval :: beat_intervals rest
      else beat_intervals rest
  | _ => []
  end.

(** The histogram object.  Its keys are the integers [Math.round] gave,
    between 1 and 299; [Object.entries] lists integer keys in ascending
    order, so the histogram is kept as an association list sorted by key. *)
Fixpoint histogram_incr (h : list (Z * nat)) (k : Z) : list (Z * nat) :=
  match h with
  | [] => [(k, 1%nat)]
  | (k', c) :: rest =>
      if (k =? k')%Z then (k', S c) :: rest
      else if (k <? k')%Z then (k, 1%nat) :: h
      else (k', c) :: histogram_incr rest k
  end.

Definition cluster_intervals (intervals : list float) : list (Z * nat) :=
  fold_left
    (fun histogram interval =>
       if gtb interval 0 && isFinite interval then
         match roundI (60 / interval) with
         | IntI bpm =>
             if (0 <? bpm)%Z && (bpm <? 300)%Z
             then histogram_incr histogram bpm
             else histogram
         | _ => histogram
         end
       else histogram)
    intervals [].

(** [entries.sort((a, b) => b[1] - a[1])]: a stable sort by decreasing
    count. *)
Fixpoint insert_by_count (e : Z * nat) (sorted : list (Z * nat))
  : list (Z * nat) :=
  match sorted with
  | [] => [e]
  | e' :: rest =>
      if (snd e' <=? snd e)%nat then e :: sorted
      else e' :: insert_by_count e rest
  end.

Definition sort_by_count (entries : list (Z * nat)) : list (Z * nat) :=
  fold_right insert_by_count [] entries.

(** [histogram[bpm]] is keyed by the decimal string of an integer between
    1 and 299, so [parseInt] of the first sorted key is that integer. *)
Definition calculateBPM (beats : list float) (sampleRate : float) : BPMData :=
  if (List.length beats <? 2)%nat then default_bpm
  else
    let intervals := beat_intervals beats in
    if (List.length intervals =? 0)%nat then default_bpm
    else
      let histogram := cluster_intervals intervals in
      match sort_by_count histogram with
      | [] => default_bpm
      | (key, count) :: _ =>
          let mainBPM := Math_max 60 (Math_min 200 (Z2f key)) in
          let altBPM :=
            if gtb mainBPM 100 then Math_round (mainBPM / 2)
            else mainBPM * 2 in
          let confidence :=
            Math_min 1 (Math_max 0 (N2f count / N2f (List.length intervals))) in
          {| bpm_main := mainBPM;
             bpm_alt := altBPM;
             bpm_confidence := confidence |}
      end.

(** ** Downbeats and phrases *)

Definition detectDownbeats (beats : list float) (bpm : float) : list Z :=
  if (List.length beats <? 4)%nat || (bpm <=? 0) || negb (isFinite bpm)
  then default_downbeats
  else
    let beatInterval := 60 / bpm in
    if negb (isFinite beatInterval) || (beatInterval <=? 0)
    then default_downbeats
    else
      let barsInSeconds := beatInterval * 4 in
      let '(_, downbeats) :=
        fold_left
          (fun (st : float * list Z) (ib : nat * float) =>
             let '(currentBar, downbeats) := st in
             let '(i, beat) := ib in
             if negb (isFinite beat) then st
             else
               let expectedDownbeat := currentBar * barsInSeconds in
               if Math_abs (beat - expectedDownbeat) <? beatInterval * 0.5
               then (currentBar + 1, downbeats ++ [Z.of_nat i])
               else if gtb beat (expectedDownbeat + beatInterval)
               then (Math_floor (beat / barsInSeconds),
                     downbeats ++ [Z.of_nat i])
               else st)
          (tl (combine (seq 0 (List.length beats)) beats))
          (0, [0%Z]) in
      if (List.length downbeats =? 0)%nat then default_downbeats
      else downbeats.

Definition detectPhrases (beats : list float) (downbeats : list Z)
  : list (Z * Z) :=
  flat_map
    (fun i =>
       if (i + 4 <=? List.length downbeats)%nat
       then [(nth i downbeats 0%Z, 16%Z)]
       else [])
    (range_step 0 (List.length downbeats) 4).

(** ** Key *)

Record KeyData : Type := mkKeyData {
  key : Z;
  key_confidence : float
}.

Definition default_key : KeyData := {| key := 0; key_confidence := 0 |}.

(** The pitch class of a frequency:
    [Math.round(12 * Math.log2(freq / 440)) % 12], then
    [(pitchClass + 12) % 12]; [None] when the result is NaN. *)
Definition normalizedPC (freq : float) : option Z :=
  match roundI (12 * Math_log2 (freq / 440)) with
  | IntI r =>
      let pitchClass := Z.rem r 12 in
      Some (Z.rem (pitchClass + 12) 12)
  | _ => None
  end.

(** One analysis frame added to the chromagram. *)
Definition chroma_frame (sampleRate : float) (chromagram spectrum : list float)
  : list float :=
  let hopSize := 4096 in
  fold_left
    (fun chroma j =>
       let freq := (N2f j * sampleRate) / hopSize in
       if (freq <? 80) || gtb freq 5000 || negb (isFinite freq) then chroma
       else
         match normalizedPC freq with
         | Some pc =>
             if (0 <=? pc)%Z && (pc <? 12)%Z && isFinite (get spectrum j)
             then add_at chroma (Z.to_nat pc) (get spectrum j)
             else chroma
         | None => chroma
         end)
    (seq 0 (Nat.div2 (S (List.length spectrum))))
    chromagram.

Definition chromagram_of (data : list float) (sampleRate : float)
  : list float :=
  let hopSize := 4096%nat in
  fold_left
    (fun chroma i =>
       let window := slice data i (i + hopSize) in
       chroma_frame sampleRate chroma (fft window))
    (range_step 0 (List.length data - hopSize) hopSize)
    (repeat 0 12).

Definition detectKey (buffer : AudioBuffer) : KeyData :=
  if (buffer_length buffer =? 0)%nat then default_key
  else
    match getChannelData buffer 0 with
    | None => default_key  (* the throw is caught inside detectKey *)
    | Some data =>
        let sampleRate := sampleRate buffer in
        if (List.length data =? 0)%nat || (sampleRate <=? 0) then default_key
        else
          let chromagram := chromagram_of data sampleRate in
          let maxVal := Math_max_list chromagram in
          if negb (isFinite maxVal) || (maxVal =? 0) then default_key
          else
            let maxIdx := indexOf chromagram maxVal in
            let total := sum chromagram in
            let confidence :=
              if gtb total 0
              then Math_min 1 (Math_max 0 (getZ chromagram maxIdx / total))
              else 0 in
            {| key := maxIdx; key_confidence := confidence |}
    end.

(** ** Energy curve *)

Definition window_rms (window : list float) : float :=
  let sumSquared :=
    fold_left (fun sum val => let v := if isFinite val then val else 0 in
                              sum + v * v) window 0 in
  let rms :=
    if (0 <? List.length window)%nat
    then Math_sqrt (sumSquared / N2f (List.length window)) else 0 in
  if isFinite rms then rms else 0.

(** The windows of [for (i = 0; i < data.length; i += windowSize)];
    [windowSize] is an integer of at least 1, or +Infinity (one window
    holding everything), or NaN (an empty first slice, so a [break]). *)
Definition energy_windows (data : list float) (windowSize : float)
  : list (list float) :=
  match floorI windowSize with
  | IntI w =>
      map (fun i => slice data i (i + Z.to_nat w))
          (range_step 0 (List.length data) (Z.to_nat w))
  | InfI false => [data]
  | _ => []
  end.

Definition smooth_energy (energy : list float) : list float :=
  let smoothWindow := 5%Z in
  map
    (fun i =>
       let '(sum, count) :=
         fold_left
           (fun (sc : float * nat) j =>
              if (0 <=? i + j)%Z && (i + j <? Z.of_nat (List.length energy))%Z
              then (fst sc + getZ energy (i + j), S (snd sc))
              else sc)
           (Zrange (- smoothWindow) (smoothWindow + 1)) (0, O) in
       fround
         (if (0 <? count)%nat
          then (if isFinite (sum / N2f count) then sum / N2f count else 0)
          else 0))
    (Zrange 0 (Z.of_nat (List.length energy))).

Definition analyzeEnergy (data : list float) (sampleRate : float)
  : list float :=
  if (List.length data =? 0)%nat || (sampleRate <=? 0)
  then Float32Array [0.5]
  else
    let windowSize := Math_max 1 (Math_floor (sampleRate * 0.02)) in
    let energy := map window_rms (energy_windows data windowSize) in
    if (List.length energy =? 0)%nat then Float32Array [0.5]
    else smooth_energy energy.

(** ** Vocal likelihood *)

Definition vocal_frame (sampleRate : float) (spectrum : list float) : float :=
  let hopSize := 4096 in
  let '(vocalEnergy, totalEnergy) :=
    fold_left
      (fun (vt : float * float) j =>
         let freq := (N2f j * sampleRate) / hopSize in
         let energy := if isFinite (get spectrum j) then get spectrum j else 0 in
         let totalEnergy := snd vt + energy in
         if geb freq 2000 && (freq <=? 5000) && isFinite freq
         then (fst vt + energy * 2, totalEnergy)
         else (fst vt, totalEnergy))
      (seq 0 (Nat.div2 (S (List.length spectrum)))) (0, 0) in
  let prob :=
    if gtb totalEnergy 0
    then Math_min 1 (Math_max 0 (vocalEnergy / totalEnergy)) else 0 in
  if isFinite prob then prob else 0.

Definition estimateVocalPresence (buffer : AudioBuffer) : list float :=
  if (buffer_length buffer =? 0)%nat then Float32Array [0.3]
  else
    match getChannelData buffer 0 with
    | None => Float32Array [0.3]
    | Some data =>
        let sampleRate := sampleRate buffer in
        if (List.length data =? 0)%nat || (sampleRate <=? 0)
        then Float32Array [0.3]
        else
          let hopSize := 4096%nat in
          let vocalProb :=
            map (fun i => vocal_frame sampleRate (fft (slice data i (i + hopSize))))
                (range_step 0 (List.length data - hopSize) hopSize) in
          if (List.length vocalProb =? 0)%nat then Float32Array [0.3]
          else Float32Array vocalProb
    end.

(** ** Kicks *)

Definition low_energy (spectrum : list float) : float :=
  fold_left
    (fun lowEnergy j =>
       if isFinite (get spectrum j) then lowEnergy + get spectrum j
       else lowEnergy)
    (seq 0 (Nat.min 20 (List.length spectrum))) 0.

(** The sub-frame search around one beat; the result is [kickSample].
    The loop runs over integers when both bounds are numbers; a NaN bound
    makes its condition false at once. *)
Definition kick_search (data : list float)
  (beatSample searchStart searchEnd : float) : float :=
  match floorI searchStart, floorI searchEnd with
  | IntI a, IntI b =>
      snd
        (fold_left
           (fun (st : float * float) i =>
              let '(maxEnergy, kickSample) := st in
              let lowEnergy := low_energy (fft (slice data i (i + 512))) in
              if gtb lowEnergy maxEnergy && isFinite lowEnergy
              then (lowEnergy, N2f i)
              else st)
           (range_step (Z.to_nat a) (Z.to_nat b) 512)
           (0, beatSample))
  | _, _ => beatSample
  end.

Definition detectKicks (data : list float) (sampleRate : float)
  (beats : list float) : list float :=
  if (List.length data =? 0)%nat || (sampleRate <=? 0)
     || (List.length beats =? 0)%nat
  then default_beats
  else
    let windowSize := Math_max 1 (Math_floor (sampleRate * 0.05)) in
    let kicks :=
      fold_left
        (fun kicks beatTime =>
           if negb (isFinite beatTime) || (beatTime <? 0) then kicks
           else
             let beatSample := Math_floor (beatTime * sampleRate) in
             let searchStart := Math_max 0 (beatSample - windowSize) in
             let searchEnd :=
               Math_min (N2f (List.length data)) (beatSample + windowSize) in
             if geb searchStart searchEnd then kicks ++ [beatTime]
             else
               let kickSample :=
                 kick_search data beatSample searchStart searchEnd in
               let kickTime := kickSample / sampleRate in
               if isFinite kickTime && geb kickTime 0
               then kicks ++ [kickTime]
               else kicks)
        beats [] in
    if (List.length kicks =? 0)%nat then default_beats else kicks.

(** ** [analyzeTrack] *)

(** The [try] block: [None] is a thrown error. *)
Definition analyzeTrack_try (buffer : AudioBuffer) : option AnalysisSummary :=
  if (buffer_length buffer =? 0)%nat || (sampleRate buffer <=? 0)
  then None  (* throw new Error('Invalid audio buffer') *)
  else
    match getChannelData buffer 0 with
    | None => None  (* getChannelData throws *)
    | Some channelData =>
        if (List.length channelData =? 0)%nat
        then None  (* throw new Error('Invalid channel data') *)
        else
          let sampleRate := sampleRate buffer in
          let beats := detectBeats channelData sampleRate in
          let bpmData := calculateBPM beats sampleRate in
          let downbeats := detectDownbeats beats (bpm_main bpmData) in
          let phrases := detectPhrases beats downbeats in
          let keyData := detectKey buffer in
          let energy := analyzeEnergy channelData sampleRate in
          let vocalProb := estimateVocalPresence buffer in
          let kicks := detectKicks channelData sampleRate beats in
          Some
            {| bpm := bpm_main bpmData;
               bpmAlt := bpm_alt bpmData;
               bpmConfidence := bpm_confidence bpmData;
               camelot :=
                 match KEY_TO_CAMELOT (key keyData) with
                 | Some code => code
                 | None => "1A"
                 end;
               keySemitone := Z.rem (key keyData) 12;
               keyConfidence := key_confidence keyData;
               beatTimes := Float32Array beats;
               downbeatIndices := map (fun d => d mod 2 ^ 32)%Z downbeats;
               phraseSpans := phrases;
               energyCurve := energy;
               vocalLikelihood := vocalProb;
               kickTimes := Float32Array kicks |}
    end.

(** [try { ... } catch (error) { return default analysis }]. *)
Definition analyzeTrack (buffer : AudioBuffer) : AnalysisSummary :=
  match analyzeTrack_try buffer with
  | Some summary => summary
  | None => fallback_summary
  end.

End WithMath.
End Analysis.

(* ------------------------------------------------------------------ *)
(** * Transition planner ([transitionEngine.ts]) *)
(* ------------------------------------------------------------------ *)

Inductive TransitionStyle : Type :=
| hard_downbeat | eq_morph | bass_swap | vocal_aware | stutter_entry.

Inductive MixMode : Type := festival | club_smooth | neutral.

Inductive Track : Type := TrackA | TrackB.

Inductive FXType : Type := sweep | reverseVerb | tapeStop | stutter.

Record FX : Type := mkFX {
  fx_type : FXType;
  atBeat : float;
  params : list (string * float)
}.

Record TempoOp : Type := mkTempoOp { tempo_track : Track; stretchPct : float }.

Record PitchOp : Type := mkPitchOp {
  pitch_track : Track;
  semitones : float;
  formantPreserve : bool
}.

Record TransitionPlan : Type := mkTransitionPlan {
  style : TransitionStyle;
  startBarA : float;
  startBarB : float;
  lengthBars : Z;
  tempoOps : list TempoOp;
  pitchOps : list PitchOp;
  fx : list FX
}.

Module Transition.
Import JS.
Local Open Scope string_scope.
Local Open Scope float_scope.
Local Open Scope list_scope.

Definition CAMELOT_WHEEL : list (string * list string) :=
  [ ("1A", ["1A"; "12A"; "2A"; "1B"]);
    ("2A", ["2A"; "1A"; "3A"; "2B"]);
    ("3A", ["3A"; "2A"; "4A"; "3B"]);
    ("4A", ["4A"; "3A"; "5A"; "4B"]);
    ("5A", ["5A"; "4A"; "6A"; "5B"]);
    ("6A", ["6A"; "5A"; "7A"; "6B"]);
    ("7A", ["7A"; "6A"; "8A"; "7B"]);
    ("8A", ["8A"; "7A"; "9A"; "8B"]);
    ("9A", ["9A"; "8A"; "10A"; "9B"]);
    ("10A", ["10A"; "9A"; "11A"; "10B"]);
    ("11A", ["11A"; "10A"; "12A"; "11B"]);
    ("12A", ["12A"; "11A"; "1A"; "12B"]);
    ("1B", ["1B"; "12B"; "2B"; "1A"]);
    ("2B", ["2B"; "1B"; "3B"; "2A"]);
    ("3B", ["3B"; "2B"; "4B"; "3A"]);
    ("4B", ["4B"; "3B"; "5B"; "4A"]);
    ("5B", ["5B"; "4B"; "6B"; "5A"]);
    ("6B", ["6B"; "5B"; "7B"; "6A"]);
    ("7B", ["7B"; "6B"; "8B"; "7A"]);
    ("8B", ["8B"; "7B"; "9B"; "8A"]);
    ("9B", ["9B"; "8B"; "10B"; "9A"]);
    ("10B", ["10B"; "9B"; "11B"; "10A"]);
    ("11B", ["11B"; "10B"; "12B"; "11A"]);
    ("12B", ["12B"; "11B"; "1B"; "12A"]) ].

(** [(CAMELOT_WHEEL[keyA] || []).includes(keyB)].  In every call of the
    program [keyA] is a Camelot code, a key of the table.  For a string
    that names a member every object inherits ("constructor",
    "toString", ...) the engine finds that member and throws, where
    this function returns false. *)
Definition areKeysCompatible (keyA keyB : string) : bool :=
  let compatibleKeys :=
    match lookup keyA CAMELOT_WHEEL with
    | Some keys => keys
    | None => []
    end in
  existsb (String.eqb keyB) compatibleKeys.

Definition calculateKeyShift (keyA keyB : string) : float :=
  let numberA := parseInt keyA in
  let numberB := parseInt keyB in
  let shift := numberB - numberA in
  if gtb shift 6 then shift - 12
  else if shift <? -6 then shift + 12
  else shift.

Definition average (l : list float) : float :=
  sum l / N2f (List.length l).

Definition tempoDelta (analysisA analysisB : AnalysisSummary) : float :=
  Math_abs (bpm analysisA - bpm analysisB) / bpm analysisA.

Definition bothVocal (analysisA analysisB : AnalysisSummary) : bool :=
  let avgVocalA := average (vocalLikelihood analysisA) in
  let avgVocalB := average (vocalLikelihood analysisB) in
  gtb avgVocalA 0.3 && gtb avgVocalB 0.3.

Definition keysCompatible (analysisA analysisB : AnalysisSummary) : bool :=
  areKeysCompatible (camelot analysisA) (camelot analysisB).

(** The decision matrix: style, length in bars and the FX it pushes. *)
Definition decide (analysisA analysisB : AnalysisSummary) (mode : MixMode)
  : TransitionStyle * Z * list FX :=
  let tempoDelta := tempoDelta analysisA analysisB in
  let keysCompatible := keysCompatible analysisA analysisB in
  if bothVocal analysisA analysisB then
    (vocal_aware, 4%Z, [])
  else if negb keysCompatible && gtb tempoDelta 0.06 then
    (hard_downbeat, 4%Z, [mkFX sweep (-2) [("duration", 1)]])
  else if keysCompatible && (tempoDelta <? 0.02) then
    (eq_morph, match mode with club_smooth => 16%Z | _ => 8%Z end, [])
  else if tempoDelta <? 0.06 then
    (bass_swap, 8%Z, [])
  else
    (match mode with festival => stutter_entry | _ => hard_downbeat end,
     4%Z,
     match mode with
     | festival => [mkFX stutter (-4) [("division", 8); ("bars", 1)]]
     | _ => []
     end).

(** Find best transition bars (last quarter of track A). *)
Definition totalBarsA (analysisA : AnalysisSummary) : float :=
  Math_max 1 (Math_floor (N2f (List.length (downbeatIndices analysisA)) / 4)).

Definition default_startBarA (analysisA : AnalysisSummary) : float :=
  Math_max 0 (Math_floor (totalBarsA analysisA * 0.75)).

Definition createTransitionPlan (analysisA analysisB : AnalysisSummary)
  (mode : MixMode) : TransitionPlan :=
  let tempoDelta := tempoDelta analysisA analysisB in
  let keysCompatible := keysCompatible analysisA analysisB in
  let energyA :=
    or_default (nth_error (energyCurve analysisA)
                          (List.length (energyCurve analysisA) - 1)) 0 in
  let energyB := or_default (nth_error (energyCurve analysisB) 0) 0 in
  let energyMismatch := gtb (Math_abs (energyA - energyB)) 0.3 in
  let '(style, lengthBars, fx) := decide analysisA analysisB mode in
  let fx :=
    if energyMismatch && gtb energyB energyA
       && match mode with festival => true | _ => false end
    then fx ++ [mkFX reverseVerb (-4) [("duration", 2)]]
    else fx in
  let tempoOps :=
    if gtb tempoDelta 0.02 && (tempoDelta <=? 0.06) then
      let targetBPM := (bpm analysisA + bpm analysisB) / 2 in
      [ mkTempoOp TrackA (((targetBPM - bpm analysisA) / bpm analysisA) * 100);
        mkTempoOp TrackB (((targetBPM - bpm analysisB) / bpm analysisB) * 100) ]
    else [] in
  let pitchOps :=
    if negb keysCompatible then
      let semitoneShift :=
        calculateKeyShift (camelot analysisA) (camelot analysisB) in
      if Math_abs semitoneShift <=? 1
      then [mkPitchOp TrackB semitoneShift true]
      else []
    else [] in
  {| style := style;
     startBarA := default_startBarA analysisA;
     startBarB := 0;
     lengthBars := lengthBars;
     tempoOps := tempoOps;
     pitchOps := pitchOps;
     fx := fx |}.

End Transition.

(* ------------------------------------------------------------------ *)
(** * FX processor ([fxProcessor.ts]) *)
(* ------------------------------------------------------------------ *)

(** How a call ends: it returns, it throws (a [RangeError] from a typed
    array constructor), or its loop never terminates. *)
Inductive outcome (A : Type) : Type :=
| Returned (a : A)
| Thrown
| Diverged.
Arguments Returned {A} a.
Arguments Thrown {A}.
Arguments Diverged {A}.

(** The ambient random source behind [Math.random()]: the sequence of
    draws still to come.  It is no parameter of any function of the
    program; it is threaded here because the program reads it. *)
Definition RandomSource : Type := nat -> float.

Definition advance (rng : RandomSource) (n : nat) : RandomSource :=
  fun k => rng (n + k)%nat.

Module FXProcessor.
Import JS.
Local Open Scope float_scope.
Local Open Scope list_scope.

(** [audioContext.createBuffer(channels, length, sampleRate)]: zero-filled.
    The processor only asks for the shape of a buffer it was given, so
    the call is taken to succeed. *)
Definition createBuffer (nch len : nat) (rate : float) : AudioBuffer :=
  {| sampleRate := rate; buffer_length := len;
     channels := repeat (repeat 0 len) nch |}.

(** [new Float32Array(n)] accepts NaN (length 0) and an integer up to
    2^53 - 1; anything else is a [RangeError]. *)
Definition typed_array_length (n : integral) : option nat :=
  match n with
  | NaNI => Some O
  | IntI z =>
      if (0 <=? z)%Z && (z <=? 2 ^ 53 - 1)%Z then Some (Z.to_nat z) else None
  | InfI _ => None
  end.

(** The iterations of [for (let i = 0; i < bound; i++)]. *)
Definition loop_to (bound : integral) : outcome (list nat) :=
  match bound with
  | NaNI => Returned []
  | InfI true => Returned []
  | InfI false => Diverged
  | IntI z => Returned (seq 0 (Z.to_nat z))
  end.

(** [base + i] as an index, for an integer-valued [base]; [None] when it
    is NaN or infinite (then no comparison [idx < length] holds, except
    for -Infinity, where the store is dropped by the typed array). *)
Definition index_from (base : integral) (i : Z) : option Z :=
  match base with
  | IntI s => Some (s + i)%Z
  | _ => None
  end.

Definition invalid_time_and_duration (time duration : float) : bool :=
  (time <? 0) || (duration <=? 0)
  || negb (isFinite time) || negb (isFinite duration).

(** ** Noise sweep *)

(** [channelData[startSample + i] += noise[i] * (i / durationSamples)]
    for every [i], on one channel. *)
Definition mix_noise (startSample : integral) (durationSamples : float)
  (noise channelData : list float) : list float :=
  fold_left
    (fun data (ix : nat * float) =>
       let '(i, n) := ix in
       let progress := N2f i / durationSamples in
       let gain := progress in
       match index_from startSample (Z.of_nat i) with
       | Some sampleIdx =>
           if (sampleIdx <? Z.of_nat (List.length data))%Z
           then setZ data sampleIdx (getZ data sampleIdx + n * gain)
           else data
       | None => data
       end)
    (combine (seq 0 (List.length noise)) noise)
    channelData.

Definition applyNoiseSweep (rng : RandomSource) (buffer : AudioBuffer)
  (startTime duration : float) : outcome AudioBuffer * RandomSource :=
  if invalid_time_and_duration startTime duration
  then (Returned buffer, rng) (* Return unchanged if invalid parameters *)
  else
    let sampleRate := sampleRate buffer in
    let startSample := Math_max 0 (Math_floor (startTime * sampleRate)) in
    let durationSamples := Math_floor (duration * sampleRate) in
    match typed_array_length (floorI durationSamples) with
    | None => (Thrown, rng)
    | Some n =>
        let noise :=
          map (fun i => fround ((rng i * 2 - 1) * 0.3)) (seq 0 n) in
        (Returned
           {| sampleRate := sampleRate;
              buffer_length := buffer_length buffer;
              channels :=
                map (mix_noise (floorI startSample) durationSamples noise)
                    (channels buffer) |},
         advance rng n)
    end.

(** ** Reverse reverb *)

Definition reverse_echo (startSample : integral) (durationSamples : float)
  (n : nat) (channelData : list float) : list float :=
  let ds := match floorI durationSamples with IntI z => z | _ => 0%Z end in
  let reverb :=
    map (fun i =>
           match index_from startSample (ds - Z.of_nat i) with
           | Some srcIdx =>
               if (srcIdx <? Z.of_nat (List.length channelData))%Z
               then
                 let decay := 1 - (N2f i / durationSamples) in
                 fround (getZ channelData srcIdx * decay * 0.4)
               else 0
           | None => 0
           end)
        (seq 0 n) in
  fold_left
    (fun data (ix : nat * float) =>
       let '(i, r) := ix in
       match index_from startSample (Z.of_nat i) with
       | Some targetIdx =>
           if (targetIdx <? Z.of_nat (List.length data))%Z
           then setZ data targetIdx (getZ data targetIdx + r)
           else data
       | None => data
       end)
    (combine (seq 0 n) reverb)
    channelData.

Definition applyReverseReverb (buffer : AudioBuffer)
  (startTime duration : float) : outcome AudioBuffer :=
  if invalid_time_and_duration startTime duration
  then Returned buffer (* Return unchanged if invalid parameters *)
  else
    let sampleRate := sampleRate buffer in
    let startSample := Math_max 0 (Math_floor (startTime * sampleRate)) in
    let durationSamples := Math_floor (duration * sampleRate) in
    match typed_array_length (floorI durationSamples) with
    | None =>
        (* the constructor throws inside the channel loop *)
        match channels buffer with
        | [] => Returned (createBuffer 0 (buffer_length buffer) sampleRate)
        | _ => Thrown
        end
    | Some n =>
        Returned
          {| sampleRate := sampleRate;
             buffer_length := buffer_length buffer;
             channels :=
               map (reverse_echo (floorI startSample) durationSamples n)
                   (channels buffer) |}
    end.

(** ** Tape stop *)

Definition tape_stop_sample (input : list float)
  (stopSample durationSamples : float) (i : nat) : float :=
  let fi := N2f i in
  if fi <? stopSample - durationSamples then fround (get input i)
  else if fi <? stopSample then
    let progress := (fi - (stopSample - durationSamples)) / durationSamples in
    let slowdown := 1 - (progress * progress) in
    let readPos :=
      stopSample - durationSamples
      + (fi - (stopSample - durationSamples)) * slowdown in
    match floorI readPos with
    | IntI readIdx =>
        if (readIdx <? Z.of_nat (List.length input))%Z
        then fround (getZ input readIdx * (1 - progress * 0.5))
        else 0
    | InfI true => fround nan
    | _ => 0
    end
  else 0.

Definition applyTapeStop (buffer : AudioBuffer) (stopTime duration : float)
  : outcome AudioBuffer :=
  if invalid_time_and_duration stopTime duration
  then Returned buffer (* Return unchanged if invalid parameters *)
  else
    let sampleRate := sampleRate buffer in
    let stopSample :=
      Math_max 0 (Math_min (N2f (buffer_length buffer))
                           (Math_floor (stopTime * sampleRate))) in
    let durationSamples := Math_floor (duration * sampleRate) in
    Returned
      {| sampleRate := sampleRate;
         buffer_length := buffer_length buffer;
         channels :=
           map (fun input =>
                  map (tape_stop_sample input stopSample durationSamples)
                      (seq 0 (buffer_length buffer)))
               (channels buffer) |}.

(** ** Stutter *)

Definition invalid_stutter (startTime division bars bpm : float) : bool :=
  (startTime <? 0) || (division <=? 0) || (bars <=? 0) || (bpm <=? 0)
  || negb (isFinite startTime) || negb (isFinite bpm).

(** [startSample + posInSlice], both integer-valued. *)
Definition add_integral (a b : integral) : option Z :=
  match a, b with
  | IntI x, IntI y => Some (x + y)%Z
  | _, _ => None
  end.

(** One channel, once the three loop bounds are known to be finite:
    [before] indices copied, [stutterIdx] the iterations of the stutter
    loop, then the copy of everything after. *)
Definition stutter_channel (startSample stutterSamples sliceSamples : integral)
  (before stutterIdx : list nat) (input : list float) : list float :=
  let len := Z.of_nat (List.length input) in
  let outputData := repeat 0 (List.length input) in
  (* Copy everything before stutter *)
  let outputData :=
    fold_left (fun out i => set_at out i (get input i)) before outputData in
  (* Apply stutter effect *)
  let outputData :=
    fold_left
      (fun out i =>
         let posInSlice := remI (Z.of_nat i) sliceSamples in
         match add_integral startSample posInSlice with
         | Some srcIdx =>
             if (srcIdx <? len)%Z then
               match index_from startSample (Z.of_nat i) with
               | Some targetIdx =>
                   if (targetIdx <? len)%Z
                   then setZ out targetIdx (getZ input srcIdx)
                   else out
               | None => out
               end
             else out
         | None => out
         end)
      stutterIdx outputData in
  (* Copy everything after *)
  match add_integral startSample stutterSamples with
  | Some first =>
      fold_left (fun out i => setZ out i (getZ input i))
                (Zrange first len) outputData
  | None => outputData
  end.

Definition applyStutter (buffer : AudioBuffer)
  (startTime division bars bpm : float) : outcome AudioBuffer :=
  if invalid_stutter startTime division bars bpm
  then Returned buffer (* Return unchanged if invalid parameters *)
  else
    let sampleRate := sampleRate buffer in
    let startSample := Math_max 0 (Math_floor (startTime * sampleRate)) in
    let beatDuration := 60 / bpm in
    let stutterDuration := beatDuration * 4 * bars in
    let stutterSamples := Math_floor (stutterDuration * sampleRate) in
    let sliceDuration := (beatDuration * 4) / division in
    let sliceSamples := Math_floor (sliceDuration * sampleRate) in
    match channels buffer with
    | [] => Returned (createBuffer 0 (buffer_length buffer) sampleRate)
    | _ =>
        match loop_to (floorI startSample), loop_to (floorI stutterSamples) with
        | Returned before, Returned stutterIdx =>
            Returned
              {| sampleRate := sampleRate;
                 buffer_length := buffer_length buffer;
                 channels :=
                   map (stutter_channel (floorI startSample)
                          (floorI stutterSamples) (floorI sliceSamples)
                          before stutterIdx)
                       (channels buffer) |}
        | _, _ => Diverged
        end
    end.

(** ** EQ morph *)

(** [data[base + i] *= curve(i / durationSamples)] for every [i] of the
    loop, on one channel; [base] is [startSample] for track A and 0 for
    track B. *)
Definition morph_channel (base : integral) (durationSamples : float)
  (curve : float -> float) (iterations : list nat) (input : list float)
  : list float :=
  fold_left
    (fun data i =>
       match index_from base (Z.of_nat i) with
       | Some idx =>
           if (idx <? Z.of_nat (List.length data))%Z then
             let progress := N2f i / durationSamples in
             setZ data idx (getZ data idx * curve progress)
           else data
       | None => data
       end)
    iterations input.

Definition applyEQMorph (bufferA bufferB : AudioBuffer)
  (overlapStart duration : float) : outcome (AudioBuffer * AudioBuffer) :=
  let sampleRate := sampleRate bufferA in
  let startSample := Math_floor (overlapStart * sampleRate) in
  let durationSamples := Math_floor (duration * sampleRate) in
  match channels bufferA, channels bufferB with
  | [], [] =>
      Returned (createBuffer 0 (buffer_length bufferA) sampleRate,
                createBuffer 0 (buffer_length bufferB) sampleRate)
  | _, _ =>
      match loop_to (floorI durationSamples) with
      | Returned iterations =>
          Returned
            ({| sampleRate := sampleRate;
                buffer_length := buffer_length bufferA;
                channels :=
                  (* Gradually reduce low end of A during transition *)
                  map (morph_channel (floorI startSample) durationSamples
                         (fun progress => 1 - progress * 0.7) iterations)
                      (channels bufferA) |},
             {| sampleRate := sampleRate;
                buffer_length := buffer_length bufferB;
                channels :=
                  (* Gradually introduce lows of B *)
                  map (morph_channel (IntI 0) durationSamples
                         (fun progress => 0.3 + progress * 0.7) iterations)
                      (channels bufferB) |})
      | _ => Diverged
      end
  end.

End FXProcessor.

(* ------------------------------------------------------------------ *)
(** * Mix renderer ([audioProcessor.ts]) *)
(* ------------------------------------------------------------------ *)

(** [Partial<TransitionPlan>]: the fields an override supplies. *)
Record PlanOverride : Type := mkPlanOverride {
  o_style : option TransitionStyle;
  o_startBarA : option float;
  o_startBarB : option float;
  o_lengthBars : option Z;
  o_tempoOps : option (list TempoOp);
  o_pitchOps : option (list PitchOp);
  o_fx : option (list FX)
}.

Module Renderer.
Import JS.
Local Open Scope string_scope.
Local Open Scope float_scope.
Local Open Scope list_scope.

Definition or_else {A} (o : option A) (d : A) : A :=
  match o with Some v => v | None => d end.

(** [plan = { ...plan, ...manualOverride }]. *)
Definition apply_override (plan : TransitionPlan)
  (manualOverride : option PlanOverride) : TransitionPlan :=
  match manualOverride with
  | None => plan
  | Some o =>
      {| style := or_else (o_style o) (style plan);
         startBarA := or_else (o_startBarA o) (startBarA plan);
         startBarB := or_else (o_startBarB o) (startBarB plan);
         lengthBars := or_else (o_lengthBars o) (lengthBars plan);
         tempoOps := or_else (o_tempoOps o) (tempoOps plan);
         pitchOps := or_else (o_pitchOps o) (pitchOps plan);
         fx := or_else (o_fx o) (fx plan) |}
  end.

(** Validate plan: [if (plan.startBarA < 0) plan.startBarA = 0]. *)
Definition validate_plan (plan : TransitionPlan) : TransitionPlan :=
  if startBarA plan <? 0 then
    {| style := style plan;
       startBarA := 0;
       startBarB := startBarB plan;
       lengthBars := lengthBars plan;
       tempoOps := tempoOps plan;
       pitchOps := pitchOps plan;
       fx := fx plan |}
  else plan.

(** The plan [mergeAudioFiles] executes and reports. *)
Definition executed_plan (analysisA analysisB : AnalysisSummary)
  (mixMode : MixMode) (manualOverride : option PlanOverride) : TransitionPlan :=
  validate_plan
    (apply_override (Transition.createTransitionPlan analysisA analysisB mixMode)
                    manualOverride).

(** ** Apply FX *)

Definition fxTime (plan : TransitionPlan) (analysisA : AnalysisSummary)
  (f : FX) : float :=
  let beatDuration := 60 / bpm analysisA in
  startBarA plan * 4 * beatDuration + atBeat f * beatDuration.

(** The FX loop.  A throw inside the [try] is logged and the loop goes
    on with the buffers it had. *)
Fixpoint applyPlanFX (plan : TransitionPlan)
  (analysisA analysisB : AnalysisSummary) (fxs : list FX)
  (rng : RandomSource) (processedA processedB : AudioBuffer)
  : outcome (AudioBuffer * AudioBuffer) * RandomSource :=
  match fxs with
  | [] => (Returned (processedA, processedB), rng)
  | f :: rest =>
      let continue_with rng a b :=
        applyPlanFX plan analysisA analysisB rest rng a b in
      let fxTime := fxTime plan analysisA f in
      if (fxTime <? 0) || isNaN fxTime || negb (isFinite fxTime)
      then continue_with rng processedA processedB
      else
        match fx_type f with
        | sweep =>
            match FXProcessor.applyNoiseSweep rng processedA fxTime
                    (or_default (lookup "duration" (params f)) 1) with
            | (Returned a, rng') => continue_with rng' a processedB
            | (Thrown, rng') => continue_with rng' processedA processedB
            | (Diverged, rng') => (Diverged, rng')
            end
        | reverseVerb =>
            match FXProcessor.applyReverseReverb processedA fxTime
                    (or_default (lookup "duration" (params f)) 2) with
            | Returned a => continue_with rng a processedB
            | Thrown => continue_with rng processedA processedB
            | Diverged => (Diverged, rng)
            end
        | tapeStop =>
            match FXProcessor.applyTapeStop processedA fxTime
                    (or_default (lookup "duration" (params f)) 1) with
            | Returned a => continue_with rng a processedB
            | Thrown => continue_with rng processedA processedB
            | Diverged => (Diverged, rng)
            end
        | stutter =>
            match FXProcessor.applyStutter processedB 0
                    (or_default (lookup "division" (params f)) 8)
                    (or_default (lookup "bars" (params f)) 1)
                    (bpm analysisB) with
            | Returned b => continue_with rng processedA b
            | Thrown => continue_with rng processedA processedB
            | Diverged => (Diverged, rng)
            end
        end
  end.

(** ** Merge parameters *)

Definition overlapStartA (plan : TransitionPlan) (analysisA : AnalysisSummary)
  (sampleRate : float) : float :=
  let beatDurationA := 60 / bpm analysisA in
  Math_max 0 (Math_floor (startBarA plan * 4 * beatDurationA * sampleRate)).

(** Ensure overlap doesn't exceed track A length. *)
Definition maxOverlap (plan : TransitionPlan) (analysisA : AnalysisSummary)
  (sampleRate : float) (processedA : AudioBuffer) : float :=
  Math_min (overlapStartA plan analysisA sampleRate)
           (N2f (buffer_length processedA)).

Definition totalLength (plan : TransitionPlan) (analysisA : AnalysisSummary)
  (sampleRate : float) (processedA processedB : AudioBuffer) : float :=
  maxOverlap plan analysisA sampleRate processedA
  + N2f (buffer_length processedB).

(** ** WAV emission *)

(** Bytes are integers between 0 and 255.  [DataView] converts the
    number it is given to an integer by truncation (NaN and the
    infinities become 0) and keeps its low bits, little-endian here. *)
Definition truncZ (f : float) : Z :=
  match Prim2SF f with
  | S754_finite s m e =>
      let magnitude := Z.shiftl (Z.pos m) e in
      if s then (- magnitude)%Z else magnitude
  | _ => 0%Z
  end.

Definition le16 (z : Z) : list Z :=
  [ z mod 256; (z / 256) mod 256 ]%Z.

Definition le32 (z : Z) : list Z :=
  [ z mod 256; (z / 256) mod 256; (z / 65536) mod 256;
    (z / 16777216) mod 256 ]%Z.

Definition setInt16 (value : float) : list Z := le16 (truncZ value mod 65536).
Definition setUint16 (value : float) : list Z := le16 (truncZ value mod 65536).
Definition setUint32 (value : float) : list Z :=
  le32 (truncZ value mod 4294967296).

Definition writeString (s : string) : list Z :=
  map (fun c => Z.of_nat (nat_of_ascii c)) (list_ascii_of_string s).

Definition wav_header (numberOfChannels : nat) (sampleRate : float)
  (length : nat) : list Z :=
  writeString "RIFF"
  ++ setUint32 (36 + N2f length)
  ++ writeString "WAVE"
  ++ writeString "fmt "
  ++ setUint32 16
  ++ setUint16 1
  ++ setUint16 (N2f numberOfChannels)
  ++ setUint32 sampleRate
  ++ setUint32 (sampleRate * N2f numberOfChannels * 2)
  ++ setUint16 (N2f numberOfChannels * 2)
  ++ setUint16 16
  ++ writeString "data"
  ++ setUint32 (N2f length).

(** [Math.max(-1, Math.min(1, x))], and the scaling of the clamped
    sample. *)
Definition clamp_sample (x : float) : float :=
  Math_max (-1) (Math_min 1 x).

Definition scale_sample (sample : float) : float :=
  if sample <? 0 then sample * 32768 (* 0x8000 *)
  else sample * 32767 (* 0x7FFF *).

Definition encode_sample (x : float) : list Z :=
  setInt16 (scale_sample (clamp_sample x)).

(** One frame: the sample of every channel, in channel order. *)
Definition wav_frame (channels : list (list float)) (i : nat) : list Z :=
  flat_map (fun channel => encode_sample (get channel i)) channels.

Definition wav_data (buffer : AudioBuffer) : list Z :=
  flat_map (wav_frame (channels buffer)) (seq 0 (buffer_length buffer)).

(** [None] is a thrown error. *)
Definition bufferToWave (buffer : AudioBuffer) (sampleRate : float)
  : option (list Z) :=
  if (buffer_length buffer =? 0)%nat || (numberOfChannels buffer =? 0)%nat
  then None
  else if (sampleRate <=? 0) || negb (isFinite sampleRate) then None
  else
    let numberOfChannels := numberOfChannels buffer in
    let length := (buffer_length buffer * numberOfChannels * 2)%nat in
    Some (wav_header numberOfChannels sampleRate length ++ wav_data buffer).

End Renderer.

(* ------------------------------------------------------------------ *)
(** * Vocabulary of the properties *)
(* ------------------------------------------------------------------ *)

Module Spec.
Import JS Analysis.
Local Open Scope string_scope.
Local Open Scope float_scope.
Local Open Scope list_scope.

(** The inputs on which the [try] block of [analyzeTrack] throws: no
    frames, a sample rate that is not positive, or no data in channel 0. *)
Definition invalid_buffer (buffer : AudioBuffer) : bool :=
  (buffer_length buffer =? 0)%nat
  || (sampleRate buffer <=? 0)
  || match getChannelData buffer 0 with
     | Some channelData => (List.length channelData =? 0)%nat
     | None => true
     end.

(** A sample that is one of the two zeros, and a channel of silence:
    every sample compares equal to 0. *)
Definition is_zero_sample (x : float) : Prop := x = 0 \/ x = -0.

Definition zero_or_nan (x : float) : Prop := x = 0 \/ x = nan.

Definition silent (data : list float) : Prop :=
  forallb (fun x => x =? 0) data = true.

Definition major_codes : list string :=
  ["8B"; "3B"; "10B"; "5B"; "12B"; "7B"; "2B"; "9B"; "4B"; "11B"; "6B"; "1B"].

(** The pattern [^(1[0-2]|[1-9])[AB]$]. *)
Definition is_A_or_B (c : ascii) : bool :=
  Ascii.eqb c "A" || Ascii.eqb c "B".

Definition char_between (lo hi c : ascii) : bool :=
  (nat_of_ascii lo <=? nat_of_ascii c)%nat
  && (nat_of_ascii c <=? nat_of_ascii hi)%nat.

Definition camelot_pattern (s : string) : bool :=
  match s with
  | String d1 (String d2 (String l EmptyString)) =>
      Ascii.eqb d1 "1" && char_between "0" "2" d2 && is_A_or_B l
  | String d (String l EmptyString) =>
      char_between "1" "9" d && is_A_or_B l
  | _ => false
  end.

Definition key_in_range (e : Z * nat) : Prop := (0 < fst e < 300)%Z.

(** The tempo pair computed from a histogram key [k]: the clamp to
    [60, 200] and the half/double candidate. *)
Definition tempo_of_key (k : Z) : float * float :=
  let mainBPM := Math_max 60 (Math_min 200 (Z2f k)) in
  (mainBPM, if gtb mainBPM 100 then Math_round (mainBPM / 2) else mainBPM * 2).

(** The same pair on integers: [m] clamped, then [m / 2] rounded half up
    when [m > 100], and [2 m] otherwise. *)
Definition tempo_spec (k : Z) : Z * Z :=
  let m := Z.max 60 (Z.min 200 k) in
  (m, if (100 <? m)%Z then ((m + 1) / 2)%Z else (2 * m)%Z).

Definition tempo_check (k : Z) : bool :=
  PrimFloat.Leibniz.eqb (fst (tempo_of_key k)) (Z2f (fst (tempo_spec k)))
  && PrimFloat.Leibniz.eqb (snd (tempo_of_key k)) (Z2f (snd (tempo_spec k)))
  && (60 <=? fst (tempo_of_key k)) && (fst (tempo_of_key k) <=? 200).

(** The tempo invariant of a [BPMData]: [bpm] is an integer [m] of
    [60, 200] and [bpmAlt] is [m / 2] rounded when [m > 100], [2 m]
    otherwise. *)
Definition tempo_ok (bpm bpmAlt : float) : Prop :=
  exists m : Z,
    (60 <= m <= 200)%Z
    /\ bpm = Z2f m
    /\ bpmAlt = Z2f (if (100 <? m)%Z then (m + 1) / 2 else 2 * m)%Z
    /\ (60 <=? bpm) = true /\ (bpm <=? 200) = true.

(** The parameters the specification calls invalid: a value that is not
    finite, or a duration that is not positive. *)
Definition rejected (time duration : float) : bool :=
  negb (isFinite time) || negb (isFinite duration) || (duration <=? 0).

Definition no_sweep (fxs : list FX) : Prop :=
  forall f, In f fxs -> fx_type f <> sweep.

(** The samples of a buffer as IEEE-754 data, to tell two buffers apart. *)
Definition buffer_bits (b : AudioBuffer) : list (list spec_float) :=
  map (map Prim2SF) (channels b).

Definition sample_bits (o : outcome (AudioBuffer * AudioBuffer))
  : list (list spec_float) :=
  match o with
  | Returned (a, _) => buffer_bits a
  | _ => []
  end.

End Spec.

(** Concrete inputs, for the witnesses and the counterexamples. *)
Module Inputs.
Import JS.
Local Open Scope string_scope.
Local Open Scope float_scope.
Local Open Scope list_scope.

(** A buffer with no frames. *)
Definition empty_buffer : AudioBuffer :=
  {| sampleRate := 44100; buffer_length := 0; channels := [[]] |}.

(** A mono buffer of four silent samples at 44.1 kHz: shorter than one
    analysis frame, and silent. *)
Definition too_short_buffer : AudioBuffer :=
  {| sampleRate := 44100; buffer_length := 4; channels := [[0; 0; 0; 0]] |}.

(** Five thousand silent samples at 44.1 kHz: more than two analysis
    frames. *)
Definition silent_buffer : AudioBuffer :=
  {| sampleRate := 44100; buffer_length := 5000;
     channels := [repeat 0 5000] |}.

(** Two tracks in the same key and tempo, with little vocal content. *)
Definition steady_track : AnalysisSummary :=
  {| bpm := 124; bpmAlt := 62; bpmConfidence := 1;
     camelot := "8B"; keySemitone := 0; keyConfidence := 0.5;
     beatTimes := [0; 0.5; 1; 1.5];
     downbeatIndices := [0; 4; 8; 12]%Z;
     phraseSpans := [(0, 16)%Z];
     energyCurve := [0.5];
     vocalLikelihood := [0.125];
     kickTimes := [0; 0.5; 1; 1.5] |}.

(** Eight samples of audio at 8 kHz. *)
Definition eight_samples : AudioBuffer :=
  {| sampleRate := 8000; buffer_length := 8;
     channels := [[0.5; 0.25; 0.125; -0.5; -0.25; 1; 0.75; -1]] |}.

Definition silence (n : nat) : AudioBuffer :=
  {| sampleRate := 8000; buffer_length := n; channels := [repeat 0 n] |}.

(** Thirty-two samples at 48 kHz, the rate of a default audio context. *)
Definition clip_48k : AudioBuffer :=
  {| sampleRate := 48000; buffer_length := 32;
     channels :=
       [[0.5; 0.25; 0.125; -0.5; -0.25; 1; 0.75; -1;
         0.5; 0.25; 0.125; -0.5; -0.25; 1; 0.75; -1;
         0.5; 0.25; 0.125; -0.5; -0.25; 1; 0.75; -1;
         0.5; 0.25; 0.125; -0.5; -0.25; 1; 0.75; -1]] |}.

(** A stereo buffer of two frames. *)
Definition two_frames : AudioBuffer :=
  {| sampleRate := 8000; buffer_length := 2;
     channels := [[0.5; -0.5]; [1.5; -2]] |}.

(** Two states of the ambient random source. *)
Definition low_draws : RandomSource := fun _ => 0.25.
Definition high_draws : RandomSource := fun _ => 0.75.

(** A plan whose override asks for one short noise sweep at the start of
    the transition. *)
Definition sweep_override : PlanOverride :=
  {| o_style := None; o_startBarA := None; o_startBarB := None;
     o_lengthBars := None; o_tempoOps := None; o_pitchOps := None;
     o_fx := Some [mkFX sweep 0 [("duration", 0.0005)]] |}.

Definition sweep_plan : TransitionPlan :=
  Renderer.executed_plan steady_track steady_track neutral
                (Some sweep_override).

Definition tape_stop_fx : list FX := [mkFX tapeStop 0 [("duration", 0.0005)]].

(** An override that starts the transition at bar 1000. *)
Definition late_override : PlanOverride :=
  {| o_style := None; o_startBarA := Some 1000; o_startBarB := None;
     o_lengthBars := None; o_tempoOps := None; o_pitchOps := None;
     o_fx := None |}.

(** The plan executed for two tracks that analyse to the fallback
    summary, one bar each, under that override. *)
Definition late_plan : TransitionPlan :=
  Renderer.executed_plan Analysis.fallback_summary Analysis.fallback_summary
                         neutral (Some late_override).

End Inputs.

(* ------------------------------------------------------------------ *)
(** * Further vocabulary: the planner *)
(* ------------------------------------------------------------------ *)

Module PlannerSpec.
Import JS Transition Spec.
Local Open Scope string_scope.
Local Open Scope float_scope.
Local Open Scope list_scope.

(** The twenty-four Camelot codes. *)
Definition camelot_codes : list string :=
  [ "1A"; "2A"; "3A"; "4A"; "5A"; "6A"; "7A"; "8A"; "9A"; "10A"; "11A"; "12A";
    "1B"; "2B"; "3B"; "4B"; "5B"; "6B"; "7B"; "8B"; "9B"; "10B"; "11B"; "12B" ].

(** The position of a code on the wheel: its number, and whether its
    letter is A. *)
Fixpoint last_is_A (s : string) : bool :=
  match s with
  | EmptyString => false
  | String c EmptyString => Ascii.eqb c "A"
  | String _ rest => last_is_A rest
  end.

Definition wheel_position (s : string) : option (Z * bool) :=
  if camelot_pattern s then
    match parse_digits s None with
    | Some n => Some (n, last_is_A s)
    | None => None
    end
  else None.

(** The wheel rule: the same code, one step around the wheel on the same
    letter, or the other letter on the same number. *)
Definition wheel_rule (keyA keyB : string) : bool :=
  match wheel_position keyA, wheel_position keyB with
  | Some (n1, l1), Some (n2, l2) =>
      let d := ((n2 - n1) mod 12)%Z in
      (Bool.eqb l1 l2 && ((d =? 0) || (d =? 1) || (d =? 11))%Z)
      || ((n1 =? n2)%Z && negb (Bool.eqb l1 l2))
  | _, _ => false
  end.

(** The signed wheel distance of two numbers, wrapped to [-6, 6]. *)
Definition wrapped_shift (n1 n2 : Z) : Z :=
  let shift := (n2 - n1)%Z in
  if (6 <? shift)%Z then (shift - 12)%Z
  else if (shift <? -6)%Z then (shift + 12)%Z
  else shift.

Definition key_shift_check (keyA keyB : string) : bool :=
  match wheel_position keyA, wheel_position keyB with
  | Some (n1, _), Some (n2, _) =>
      PrimFloat.Leibniz.eqb (calculateKeyShift keyA keyB)
                            (Z2f (wrapped_shift n1 n2))
      && (-6 <=? wrapped_shift n1 n2)%Z && (wrapped_shift n1 n2 <=? 6)%Z
      && ((wrapped_shift n1 n2 - (n2 - n1)) mod 12 =? 0)%Z
  | _, _ => false
  end.

(** The pitch operations the planner derives from two key codes. *)
Definition pitch_ops_of (keyA keyB : string) : list PitchOp :=
  if negb (areKeysCompatible keyA keyB) then
    if Math_abs (calculateKeyShift keyA keyB) <=? 1
    then [mkPitchOp TrackB (calculateKeyShift keyA keyB) true]
    else []
  else [].

(** What the pitch operations are on two codes of the wheel: none, or
    one semitone up or down on track B when the numbers are one step
    apart and the letters differ. *)
Definition pitch_ops_check (keyA keyB : string) : bool :=
  match wheel_position keyA, wheel_position keyB, pitch_ops_of keyA keyB with
  | Some (n1, l1), Some (n2, l2), [] =>
      Bool.eqb l1 l2 || negb ((Z.abs (wrapped_shift n1 n2) =? 1)%Z)
  | Some (n1, l1), Some (n2, l2), [op] =>
      negb (Bool.eqb l1 l2) && (Z.abs (wrapped_shift n1 n2) =? 1)%Z
      && PrimFloat.Leibniz.eqb (semitones op) (Z2f (wrapped_shift n1 n2))
      && formantPreserve op
      && match pitch_track op with TrackB => true | TrackA => false end
  | _, _, _ => false
  end.

(** The bar count and the start bar the planner computes from a number
    of downbeats, and the same on integers. *)
Definition bars_of_count (n : nat) : float :=
  Math_max 1 (Math_floor (N2f n / 4)).

Definition start_of_count (n : nat) : float :=
  Math_max 0 (Math_floor (bars_of_count n * 0.75)).

Definition bars_spec (n : nat) : Z := Z.max 1 (Z.of_nat n / 4).

Definition start_spec (n : nat) : Z := (3 * bars_spec n / 4)%Z.

Definition start_bar_check (n : nat) : bool :=
  PrimFloat.Leibniz.eqb (bars_of_count n) (Z2f (bars_spec n))
  && PrimFloat.Leibniz.eqb (start_of_count n) (Z2f (start_spec n))
  && (start_of_count n <? bars_of_count n)
  && (0 <=? start_of_count n).

End PlannerSpec.

Module InputsX.
Import JS Inputs.
Local Open Scope string_scope.
Local Open Scope float_scope.
Local Open Scope list_scope.

(** The steady track one step further round the wheel, in the minor
    mode, and faster. *)
Definition shifted_track : AnalysisSummary :=
  {| bpm := 128; bpmAlt := 64; bpmConfidence := 1;
     camelot := "9A"; keySemitone := 0; keyConfidence := 0.5;
     beatTimes := [0; 0.5; 1; 1.5];
     downbeatIndices := [0; 4; 8; 12]%Z;
     phraseSpans := [(0, 16)%Z];
     energyCurve := [0.5];
     vocalLikelihood := [0.125];
     kickTimes := [0; 0.5; 1; 1.5] |}.

End InputsX.

(* ------------------------------------------------------------------ *)
(** * Further vocabulary: the analyzer *)
(* ------------------------------------------------------------------ *)

Module AnalyzerSpec.
Import JS.
Local Open Scope float_scope.
Local Open Scope list_scope.

(** The phrase that starts at the first downbeat of the [k]-th group of
    four downbeats. *)
Definition phrase_of (downbeats : list Z) (k : nat) : Z * Z :=
  (nth (4 * k) downbeats 0%Z, 16%Z).

(** A time in seconds the analyzer may report. *)
Definition valid_time (t : float) : Prop :=
  isFinite t = true /\ geb t 0 = true.

(** A likelihood: a number between 0 and 1. *)
Definition unit_interval (p : float) : Prop :=
  isFinite p = true /\ (0 <=? p) = true /\ (p <=? 1) = true.

End AnalyzerSpec.

(* ------------------------------------------------------------------ *)
(** * Further vocabulary: buffers and FX windows *)
(* ------------------------------------------------------------------ *)

Module FXSpec.
Import JS FXProcessor.
Local Open Scope float_scope.
Local Open Scope list_scope.

(** An [AudioBuffer] as the Web Audio API hands it out: every channel
    holds [length] samples. *)
Definition well_formed (b : AudioBuffer) : Prop :=
  Forall (fun c => List.length c = buffer_length b) (channels b).

(** Two buffers of the same number of frames and channels. *)
Definition same_frames (a b : AudioBuffer) : Prop :=
  buffer_length a = buffer_length b
  /\ map (@List.length float) (channels a)
     = map (@List.length float) (channels b).

(** The sample offset and the number of samples of the window of a noise
    sweep, a reverse reverb or an EQ morph. *)
Definition window_start (buffer : AudioBuffer) (startTime : float) : integral :=
  floorI (Math_max 0 (Math_floor (startTime * sampleRate buffer))).

Definition window_samples (buffer : AudioBuffer) (duration : float) : integral :=
  floorI (Math_floor (duration * sampleRate buffer)).

(** The number of iterations of a loop [for (i = 0; i < w; i++)] that
    terminates. *)
Definition window_length (w : integral) : nat :=
  match w with IntI z => Z.to_nat z | _ => O end.

(** Where the EQ morph starts on track A: not clamped at 0. *)
Definition morph_start (bufferA : AudioBuffer) (overlapStart : float)
  : integral :=
  floorI (Math_floor (overlapStart * sampleRate bufferA)).

(** The three sample counts of a stutter: where it starts, how long it
    lasts and how long one slice is. *)
Definition stutter_samples (buffer : AudioBuffer) (bars bpm : float) : integral :=
  floorI (Math_floor (60 / bpm * 4 * bars * sampleRate buffer)).

Definition slice_samples (buffer : AudioBuffer) (division bpm : float)
  : integral :=
  floorI (Math_floor (60 / bpm * 4 / division * sampleRate buffer)).

(** The input position a stutter reads for output position [k]: inside
    the stutter the first slice over and over, outside the position
    itself. *)
Definition stutter_source (s t q k : Z) : Z :=
  if (k <? s)%Z then k
  else if (k <? s + t)%Z then (s + (k - s) mod q)%Z
  else k.

End FXSpec.

(* ------------------------------------------------------------------ *)
(** * The crossfade loop of the renderer ([audioProcessor.ts]) *)
(* ------------------------------------------------------------------ *)

(** One channel of the merged buffer, as [mergeAudioFiles] fills it once
    the merge length has passed its check: [maxOverlap] is then a whole
    number of samples, and the sums of lengths are exact.
    [crossfadeSamples] is [Math.floor(crossfadeDuration * sampleRate)],
    which may be NaN or infinite. *)
Module Merge.
Import JS.
Local Open Scope float_scope.
Local Open Scope list_scope.

Section WithMath.
Context {M : MathLib}.

(** Select curve based on transition style. *)
Definition crossfade_gains (style : TransitionStyle) (fadePosition : float)
  : float * float :=
  match style with
  | hard_downbeat =>
      (* S-curve for smooth but quick transition *)
      let sCurve x := x * x * (3 - 2 * x) in
      (1 - sCurve fadePosition, sCurve fadePosition)
  | vocal_aware =>
      (* Fast linear to minimize overlap *)
      (1 - fadePosition, fadePosition)
  | _ =>
      (* Equal power crossfade for others *)
      (Math_cos (fadePosition * Math_PI * 0.5),
       Math_sin (fadePosition * Math_PI * 0.5))
  end.

(** [Math.min(crossfadeSamples, processedA.length - fadeStart,
    processedB.length)]. *)
Definition actualCrossfadeSamples (crossfadeSamples : integral)
  (lengthA fadeStart lengthB : nat) : integral :=
  let rest :=
    Z.min (Z.of_nat lengthA - Z.of_nat fadeStart) (Z.of_nat lengthB) in
  match crossfadeSamples with
  | NaNI => NaNI
  | InfI true => InfI true
  | InfI false => IntI rest
  | IntI c => IntI (Z.min c rest)
  end.

Definition crossfade_sample (style : TransitionStyle)
  (maxOverlap fadeStart lengthA lengthB : nat) (actual : Z)
  (channelA channelB : list float) (i : Z) : float :=
  let fadePosition :=
    if (0 <? actual)%Z
    then Z2f (i - Z.of_nat fadeStart) / Z2f actual else 0 in
  let '(gainA, gainB) := crossfade_gains style fadePosition in
  let sampleA := if (i <? Z.of_nat lengthA)%Z then getZ channelA i else 0 in
  let indexB := (i - Z.of_nat maxOverlap)%Z in
  let sampleB :=
    if (0 <=? indexB)%Z && (indexB <? Z.of_nat lengthB)%Z
    then getZ channelB indexB else 0 in
  sampleA * gainA + sampleB * gainB.

Definition merge_channel (style : TransitionStyle) (maxOverlap : nat)
  (crossfadeSamples : integral) (lengthA lengthB : nat)
  (channelA channelB : list float) : outcome (list float) :=
  let totalLength := (maxOverlap + lengthB)%nat in
  let outputData := repeat 0 totalLength in
  (* Copy track A up to overlap *)
  let copyEnd := Nat.min maxOverlap lengthA in
  let outputData :=
    fold_left (fun out i => set_at out i (get channelA i))
              (seq 0 copyEnd) outputData in
  (* Crossfade region with style-specific curves *)
  let fadeStart := Nat.min maxOverlap lengthA in
  match actualCrossfadeSamples crossfadeSamples lengthA fadeStart lengthB with
  | NaNI =>
      (* fadeEnd is NaN: neither of the two loops runs *)
      Returned outputData
  | InfI _ =>
      (* fadeEnd is -Infinity: the last loop never ends *)
      Diverged
  | IntI actual =>
      let fadeEnd :=
        Z.min (Z.of_nat fadeStart + actual) (Z.of_nat totalLength) in
      let outputData :=
        fold_left
          (fun out i =>
             setZ out i
               (crossfade_sample style maxOverlap fadeStart lengthA lengthB
                  actual channelA channelB i))
          (Zrange (Z.of_nat fadeStart) fadeEnd) outputData in
      (* Copy rest of track B *)
      let outputData :=
        fold_left
          (fun out i =>
             let indexB := (i - Z.of_nat maxOverlap)%Z in
             if (0 <=? indexB)%Z && (indexB <? Z.of_nat lengthB)%Z
             then setZ out i (getZ channelB indexB)
             else out)
          (Zrange fadeEnd (Z.of_nat totalLength)) outputData in
      Returned outputData
  end.

End WithMath.

(** The number of samples that are crossfaded. *)
Definition faded (crossfadeSamples : Z) (lengthA maxOverlap lengthB : nat) : Z :=
  Z.max 0
    (Z.min crossfadeSamples
       (Z.min (Z.of_nat lengthA - Z.of_nat maxOverlap) (Z.of_nat lengthB))).

End Merge.

(* ------------------------------------------------------------------ *)
(** * Further vocabulary: the renderer *)
(* ------------------------------------------------------------------ *)

Module RendererSpec.
Import JS.
Local Open Scope float_scope.
Local Open Scope list_scope.


(** A byte of the WAV file. *)
Definition is_byte (b : Z) : Prop := (0 <= b < 256)%Z.

End RendererSpec.

(* ------------------------------------------------------------------ *)
(** * Mastering chain ([masteringProcessor.ts]) *)
(* ------------------------------------------------------------------ *)

(** [Math.tanh], [Math.pow] and [Math.log10] of the engine. *)
Class MasteringMath : Type := {
  Math_tanh : float -> float;
  Math_pow : float -> float -> float;
  Math_log10 : float -> float
}.

Module Mastering.
Import JS.
Local Open Scope float_scope.
Local Open Scope list_scope.

(** The output channel of a buffer created with [length] frames, after
    [for (let i = 0; i < input.length; i++) output[i] = value(i)]. *)
Definition write_channel (length : nat) (input : list float)
  (value : nat -> float) : list float :=
  fold_left (fun output i => set_at output i (value i))
            (seq 0 (List.length input)) (repeat 0 length).

Section WithMath.
Context {MM : MasteringMath}.

(** ** Loudness *)

(** [sumSquared] and [sampleCount] after the two loops. *)
Definition sum_squares (buffer : AudioBuffer) : float * nat :=
  fold_left
    (fun acc data =>
       fold_left
         (fun '(sumSquared, sampleCount) x =>
            (sumSquared + x * x, S sampleCount))
         data acc)
    (channels buffer) (0, O).

(** Simplified LUFS measurement (K-weighted RMS approximation). *)
Definition measureLUFS (buffer : AudioBuffer) : float :=
  let '(sumSquared, sampleCount) := sum_squares buffer in
  (* Prevent division by zero *)
  if (sampleCount =? 0)%nat || (sumSquared =? 0) then -60
  else
    let rms := Math_sqrt (sumSquared / N2f sampleCount) in
    if (rms <=? 0) || negb (isFinite rms) then -60
    else
      let lufs := -0.691 + 10 * Math_log10 (rms * rms) in
      if isFinite lufs then lufs else -60.

Definition normalizeLoudness (buffer : AudioBuffer) (targetLUFS : float)
  : AudioBuffer :=
  let currentLUFS := measureLUFS buffer in
  let gainAdjust := Math_pow 10 ((targetLUFS - currentLUFS) / 20) in
  {| sampleRate := sampleRate buffer;
     buffer_length := buffer_length buffer;
     channels :=
       map (fun input =>
              write_channel (buffer_length buffer) input
                (fun i => get input i * gainAdjust))
           (channels buffer) |}.

(** ** True-peak limiter *)

(** [maxPeak] after the lookahead loop
    [for (j = 1; j <= lookahead && i + j < input.length; j++)], which
    runs for [j] from 1 to the smaller of 10 and [input.length - 1 - i]. *)
Definition lookahead_peak (input : list float) (i : nat) : float :=
  let lookahead := 10%nat in
  fold_left
    (fun maxPeak j => Math_max maxPeak (Math_abs (get input (i + j))))
    (seq 1 (Nat.min lookahead (List.length input - 1 - i)))
    (Math_abs (get input i)).

(** The value stored in [output[i]]. *)
Definition limit_sample (ceilingLinear : float) (input : list float)
  (i : nat) : float :=
  let maxPeak := lookahead_peak input i in
  let sample := get input i in
  let sample :=
    if gtb maxPeak ceilingLinear
    then sample * (ceilingLinear / maxPeak)
    else sample in
  (* Soft clip *)
  Math_tanh (sample * 1.5) * 0.95.

Definition applyTruePeakLimiter (buffer : AudioBuffer) (ceiling : float)
  : AudioBuffer :=
  let ceilingLinear := Math_pow 10 (ceiling / 20) in
  {| sampleRate := sampleRate buffer;
     buffer_length := buffer_length buffer;
     channels :=
       map (fun input =>
              write_channel (buffer_length buffer) input
                (limit_sample ceilingLinear input))
           (channels buffer) |}.

(** ** Glue compression *)

(** One turn of the sample loop: the new envelope and the value stored
    in [output[i]]. *)
Definition compress_step (thresholdLinear attackSamples releaseSamples
  ratio : float) (envelope x : float) : float * float :=
  let inputAbs := Math_abs x in
  (* Envelope follower *)
  let envelope :=
    if gtb inputAbs envelope
    then envelope + (inputAbs - envelope) / attackSamples
    else envelope + (inputAbs - envelope) / releaseSamples in
  (* Calculate gain reduction *)
  let gain :=
    if gtb envelope thresholdLinear
    then Math_pow (envelope / thresholdLinear) (1 / ratio - 1)
    else 1 in
  (envelope, x * gain).

Definition compress_channel (thresholdLinear attackSamples releaseSamples
  ratio : float) (length : nat) (input : list float) : list float :=
  snd
    (fold_left
       (fun '(envelope, output) i =>
          let '(envelope, y) :=
            compress_step thresholdLinear attackSamples releaseSamples ratio
                          envelope (get input i) in
          (envelope, set_at output i y))
       (seq 0 (List.length input)) (0, repeat 0 length)).

Definition applyGlueCompression (buffer : AudioBuffer)
  (threshold ratio : float) : AudioBuffer :=
  let thresholdLinear := Math_pow 10 (threshold / 20) in
  let attackSamples := Math_floor (0.01 * sampleRate buffer) in (* 10ms *)
  let releaseSamples := Math_floor (0.08 * sampleRate buffer) in (* 80ms *)
  {| sampleRate := sampleRate buffer;
     buffer_length := buffer_length buffer;
     channels :=
       map (compress_channel thresholdLinear attackSamples releaseSamples
              ratio (buffer_length buffer))
           (channels buffer) |}.

End WithMath.

(** ** Bass mono *)

(** The indices [j] of
    [for (j = Math.max(0, i - windowSize);
          j < Math.min(buffer.length, i + windowSize); j++)].
    With [windowSize] NaN no comparison holds; with +Infinity the window
    is the whole buffer; with -Infinity [j] starts at +Infinity. *)
Definition window (windowSize : integral) (length i : nat) : list Z :=
  match windowSize with
  | IntI w =>
      Zrange (Z.max 0 (Z.of_nat i - w))
             (Z.min (Z.of_nat length) (Z.of_nat i + w))
  | InfI false => Zrange 0 (Z.of_nat length)
  | InfI true => []
  | NaNI => []
  end.

(** The values stored in [outLeft[i]] and [outRight[i]]. *)
Definition bass_mono_frame (windowSize : integral) (length : nat)
  (inLeft inRight : list float) (i : nat) : float * float :=
  (* Sum low frequencies to mono *)
  let '(avgLeft, avgRight, count) :=
    fold_left
      (fun '(avgLeft, avgRight, count) j =>
         (avgLeft + getZ inLeft j, avgRight + getZ inRight j, S count))
      (window windowSize length i) (0, 0, O) in
  let monoLow := (avgLeft + avgRight) / (N2f count * 2) in
  let highLeft := get inLeft i - avgLeft / N2f count in
  let highRight := get inRight i - avgRight / N2f count in
  (monoLow + highLeft, monoLow + highRight).

(** Buffers with fewer than two channels are returned as they are; the
    channels after the second are left as [createBuffer] made them. *)
Definition makeBassMono (buffer : AudioBuffer) (cutoffFreq : float)
  : AudioBuffer :=
  match channels buffer with
  | inLeft :: inRight :: others =>
      let length := buffer_length buffer in
      (* Simple moving average low-pass (approximation) *)
      let windowSize := floorI (sampleRate buffer / (cutoffFreq * 2)) in
      let frames :=
        map (bass_mono_frame windowSize length inLeft inRight)
            (seq 0 length) in
      {| sampleRate := sampleRate buffer;
         buffer_length := length;
         channels :=
           map (fun frame => fround (fst frame)) frames
           :: map (fun frame => fround (snd frame)) frames
           :: map (fun _ => repeat 0 length) others |}
  | _ => buffer
  end.

(** ** Phase correlation *)

Definition checkPhaseCorrelation (bufferA bufferB : AudioBuffer) : float :=
  match channels bufferA, channels bufferB with
  | leftA :: rightA :: _, leftB :: rightB :: _ =>
      let minLen := Nat.min (List.length leftA) (List.length leftB) in
      if (minLen =? 0)%nat then 1
      else
        let correlation :=
          fold_left
            (fun correlation i =>
               let mono :=
                 (get leftA i + get rightA i + get leftB i + get rightB i)
                 / 4 in
               let side :=
                 (get leftA i - get rightA i + get leftB i - get rightB i)
                 / 4 in
               correlation + mono * side)
            (seq 0 minLen) 0 in
        let result := correlation / N2f minLen in
        if isFinite result then result else 1
  | _, _ => 1
  end.

End Mastering.

(* ------------------------------------------------------------------ *)
(** * The merge as a whole ([audioProcessor.ts], [mergeAudioFiles]) *)
(* ------------------------------------------------------------------ *)

(** [mergeAudioFiles] from the two decoded buffers on: decoding the files
    and minting the object URL are the browser's.  [contextRate] is
    [audioContext.sampleRate].  The call returns the result, or it
    throws, or it never returns; with it comes the state in which it
    leaves the ambient random source. *)
Module Pipeline.
Import JS.
Local Open Scope float_scope.
Local Open Scope list_scope.

Record MergedAudioResult : Type := mkMergedAudioResult {
  audioBuffer : AudioBuffer;
  blob : list Z;
  analysis_trackA : AnalysisSummary;
  analysis_trackB : AnalysisSummary;
  analysis_plan : TransitionPlan
}.

(** [!bpm || isNaN(bpm) || bpm <= 0]. *)
Definition invalid_bpm (bpm : float) : bool :=
  (bpm =? 0) || isNaN bpm || (bpm <=? 0).

Section WithMath.
Context {M : MathLib} {MM : MasteringMath}.

(** Apply transition-specific processing. *)
Definition applyStyleProcessing (plan : TransitionPlan)
  (analysisA : AnalysisSummary) (processedA processedB : AudioBuffer)
  : outcome (AudioBuffer * AudioBuffer) :=
  match style plan with
  | eq_morph =>
      let beatDuration := 60 / bpm analysisA in
      let morphDuration := Z2f (lengthBars plan) * 4 * beatDuration in
      let overlapStart := startBarA plan * 4 * beatDuration in
      FXProcessor.applyEQMorph processedA processedB overlapStart morphDuration
  | _ => Returned (processedA, processedB)
  end.

(** Process each channel with intelligent crossfade.  Channel [channel]
    of the output is merged from channel
    [Math.min(channel, numberOfChannels - 1)] of either track;
    [getChannelData] throws when a track has no channel at all. *)
Fixpoint merge_channels (style : TransitionStyle) (maxOverlap : nat)
  (crossfadeSamples : integral) (processedA processedB : AudioBuffer)
  (todo : list nat) : outcome (list (list float)) :=
  match todo with
  | [] => Returned []
  | channel :: rest =>
      match getChannelData processedA
              (Nat.min channel (numberOfChannels processedA - 1)),
            getChannelData processedB
              (Nat.min channel (numberOfChannels processedB - 1)) with
      | Some channelA, Some channelB =>
          match Merge.merge_channel style maxOverlap crossfadeSamples
                  (buffer_length processedA) (buffer_length processedB)
                  channelA channelB with
          | Returned outputData =>
              match merge_channels style maxOverlap crossfadeSamples
                      processedA processedB rest with
              | Returned others => Returned (outputData :: others)
              | Thrown => Thrown
              | Diverged => Diverged
              end
          | Thrown => Thrown
          | Diverged => Diverged
          end
      | _, _ => Thrown
      end
  end.

(** The merged buffer.  [totalLength] has passed the length check, so
    [maxOverlap] is a whole number of frames, no more than track A has;
    frame counts are taken to fit the 32 bits of [createBuffer]. *)
Definition merge_buffers (plan : TransitionPlan) (analysisA : AnalysisSummary)
  (contextRate crossfadeDuration : float) (processedA processedB : AudioBuffer)
  : outcome AudioBuffer :=
  let crossfadeSamples := floorI (Math_floor (crossfadeDuration * contextRate)) in
  let totalLength :=
    Renderer.totalLength plan analysisA contextRate processedA processedB in
  (* Validate total length *)
  if (totalLength <=? 0) || negb (isFinite totalLength) then Thrown
  else
    match floorI (Renderer.maxOverlap plan analysisA contextRate processedA) with
    | IntI overlap =>
        let maxOverlap := Z.to_nat overlap in
        let numberOfChannels :=
          Nat.max (numberOfChannels processedA) (numberOfChannels processedB) in
        if (numberOfChannels =? 0)%nat then Thrown
        else
          match merge_channels (style plan) maxOverlap crossfadeSamples
                  processedA processedB (seq 0 numberOfChannels) with
          | Returned merged =>
              Returned
                {| sampleRate := contextRate;
                   buffer_length := (maxOverlap + buffer_length processedB)%nat;
                   channels := merged |}
          | Thrown => Thrown
          | Diverged => Diverged
          end
    | _ => Thrown
    end.

(** Phase check, bass mono if needed, glue compression, loudness
    normalisation and the true-peak limiter. *)
Definition master (plan : TransitionPlan)
  (processedA processedB mergedBuffer : AudioBuffer) : AudioBuffer :=
  (* Check phase correlation *)
  let phaseCorr := Mastering.checkPhaseCorrelation processedA processedB in
  (* Apply bass mono during overlap if needed *)
  let finalBuffer :=
    if match style plan with bass_swap => true | _ => false end
       || (phaseCorr <? -0.3)
    then Mastering.makeBassMono mergedBuffer 120
    else mergedBuffer in
  (* Apply glue compression to transition region *)
  let finalBuffer := Mastering.applyGlueCompression finalBuffer (-12) 2 in
  (* Normalize to target LUFS *)
  let finalBuffer := Mastering.normalizeLoudness finalBuffer (-14) in
  (* Apply true-peak limiter *)
  Mastering.applyTruePeakLimiter finalBuffer (-1.0).

(** What follows the FX loop. *)
Definition finish (plan : TransitionPlan) (analysisA analysisB : AnalysisSummary)
  (contextRate crossfadeDuration : float) (processedA processedB : AudioBuffer)
  : outcome MergedAudioResult :=
  match applyStyleProcessing plan analysisA processedA processedB with
  | Returned (processedA, processedB) =>
      match merge_buffers plan analysisA contextRate crossfadeDuration
              processedA processedB with
      | Returned mergedBuffer =>
          let finalBuffer := master plan processedA processedB mergedBuffer in
          (* Convert to WAV blob *)
          match Renderer.bufferToWave finalBuffer contextRate with
          | Some blob =>
              Returned
                {| audioBuffer := finalBuffer;
                   blob := blob;
                   analysis_trackA := analysisA;
                   analysis_trackB := analysisB;
                   analysis_plan := plan |}
          | None => Thrown
          end
      | Thrown => Thrown
      | Diverged => Diverged
      end
  | Thrown => Thrown
  | Diverged => Diverged
  end.

Definition mergeAudioFiles (rng : RandomSource) (contextRate : float)
  (bufferA bufferB : AudioBuffer) (crossfadeDuration : float)
  (mixMode : MixMode) (manualOverride : option PlanOverride)
  : outcome MergedAudioResult * RandomSource :=
  (* Validate buffers *)
  if (buffer_length bufferA =? 0)%nat || (buffer_length bufferB =? 0)%nat
  then (Thrown, rng)
  else
    (* Analyze both tracks *)
    let analysisA := Analysis.analyzeTrack bufferA in
    let analysisB := Analysis.analyzeTrack bufferB in
    (* Validate BPM values *)
    if invalid_bpm (bpm analysisA) || invalid_bpm (bpm analysisB)
    then (Thrown, rng)
    else
      let plan :=
        Renderer.executed_plan analysisA analysisB mixMode manualOverride in
      (* Apply FX *)
      match Renderer.applyPlanFX plan analysisA analysisB (fx plan) rng
              bufferA bufferB with
      | (Returned (processedA, processedB), rng) =>
          (finish plan analysisA analysisB contextRate crossfadeDuration
                  processedA processedB, rng)
      | (Thrown, rng) => (Thrown, rng)
      | (Diverged, rng) => (Diverged, rng)
      end.

End WithMath.

End Pipeline.

(* ------------------------------------------------------------------ *)
(** * Further vocabulary: the crossfade *)
(* ------------------------------------------------------------------ *)

Module MergeSpec.
Import JS.
Local Open Scope float_scope.
Local Open Scope list_scope.





Definition late_cos : float := 0.09801714032956077.
Definition late_sin : float := 0.9951847266721968.

(** A [Math] object that is exact at 0 and returns the nearest binary64
    number at [late_angle]. *)
Definition rounded_math : MathLib :=
  {| Math_cos := fun x => if x =? 0 then 1 else late_cos;
     Math_sin := fun x => if x =? 0 then 0 else late_sin;
     Math_log2 := fun x => x |}.

End MergeSpec.

(* ------------------------------------------------------------------ *)
(** * Further vocabulary: the mastering chain *)
(* ------------------------------------------------------------------ *)

Module MasteringSpec.
Import JS.
Local Open Scope float_scope.
Local Open Scope list_scope.

(** Every sample of a buffer, channel after channel, and the sum of
    their squares, added in that order. *)
Definition all_samples (buffer : AudioBuffer) : list float :=
  List.concat (channels buffer).

Definition sum_of_squares (samples : list float) : float :=
  sum (map (fun x => x * x) samples).

(** The envelope follower: one step towards the magnitude of a sample,
    by 1/[attackSamples] of the way up and 1/[releaseSamples] of the way
    down, and the envelope after the samples of a list, from 0. *)
Definition follow (attackSamples releaseSamples envelope x : float) : float :=
  if gtb (Math_abs x) envelope
  then envelope + (Math_abs x - envelope) / attackSamples
  else envelope + (Math_abs x - envelope) / releaseSamples.

Definition envelope_after (attackSamples releaseSamples : float)
  (samples : list float) : float :=
  fold_left (follow attackSamples releaseSamples) samples 0.

(** The product of mid and side of frame [i] of two stereo pairs. *)
Definition mid_times_side (leftA rightA leftB rightB : list float) (i : nat)
  : float :=
  (get leftA i + get rightA i + get leftB i + get rightB i) / 4
  * ((get leftA i - get rightA i + get leftB i - get rightB i) / 4).

End MasteringSpec.

(* ------------------------------------------------------------------ *)
(** * Further vocabulary: binary64 numbers and random sources *)
(* ------------------------------------------------------------------ *)

Module FloatSpec.
Local Open Scope Z_scope.

(** A number that is zero or finite and not zero. *)
Definition finite_sf (x : spec_float) : Prop :=
  match x with
  | S754_zero _ | S754_finite _ _ _ => True
  | _ => False
  end.

(** The binary64 number of a whole number [N] below 2^53: the mantissa
    is [N] aligned to 53 bits. *)
Definition repr (N : Z) (x : spec_float) : Prop :=
  exists M, x = S754_finite false M (Zdigits2 N - 53)
            /\ Zpos M = N * 2 ^ (53 - Zdigits2 N).

End FloatSpec.

Module PipelineSpec.

(** Two random sources that deliver the same draws. *)
Definition same_draws (rng1 rng2 : RandomSource) : Prop :=
  forall k, rng1 k = rng2 k.

End PipelineSpec.

(** A [Math] object for the mastering chain that clips where
    [Math.tanh] saturates and gives every power the value 0.5. *)
Module InputsM.
Import JS.
Local Open Scope float_scope.
Local Open Scope list_scope.

Definition clipping_math : MasteringMath :=
  {| Math_tanh := fun x =>
       if is_nan x then nan
       else if x <? -1 then -1
       else if 1 <? x then 1
       else x;
     Math_pow := fun _ _ => 0.5;
     Math_log10 := fun x => x |}.

(** A stereo clip of four frames, louder on the left. *)
Definition loud_clip : AudioBuffer :=
  {| sampleRate := 48000; buffer_length := 4;
     channels := [[0.5; -2; 0.25; 1]; [0.125; 0; -0.125; 0.25]] |}.

(** Three samples at 100 Hz, where the attack of the compressor is one
    sample and the release eight. *)
Definition slow_clip : AudioBuffer :=
  {| sampleRate := 100; buffer_length := 3; channels := [[0.25; 1; -0.5]] |}.

(** An override that asks for one tape stop and no other FX. *)
Definition tape_stop_override : PlanOverride :=
  {| o_style := None; o_startBarA := None; o_startBarB := None;
     o_lengthBars := None; o_tempoOps := None; o_pitchOps := None;
     o_fx := Some Inputs.tape_stop_fx |}.

End InputsM.

(* ------------------------------------------------------------------ *)
(** * Order facts about binary64 numbers *)
(* ------------------------------------------------------------------ *)

Module FloatOrder.
Local Open Scope float_scope.

Lemma ltb_leb (x y : float) : (x <? y) = true -> (x <=? y) = true.
Proof.
  rewrite ltb_spec, leb_spec. unfold SFltb, SFleb.
  destruct (SFcompare (Prim2SF x) (Prim2SF y)) as [[]|]; congruence.
Qed.

Lemma eqb_leb (x y : float) : (x =? y) = true -> (x <=? y) = true.
Proof.
  rewrite eqb_spec, leb_spec. unfold SFeqb, SFleb.
  destruct (SFcompare (Prim2SF x) (Prim2SF y)) as [[]|]; congruence.
Qed.

Lemma not_nan_eqb_refl (x : float) : is_nan x = false -> (x =? x) = true.
Proof. unfold is_nan. destruct (x =? x); simpl; congruence. Qed.

Lemma SFcompare_antisym (a b : spec_float) (c : comparison) :
  SFcompare a b = Some c -> SFcompare b a = Some (CompOpp c).
Proof.
  destruct a as [sa|sa| |sa ma ea], b as [sb|sb| |sb mb eb]; simpl;
    try discriminate; intros H; inversion H; subst; clear H;
    try (destruct sa; reflexivity); try (destruct sb; reflexivity);
    try (destruct sa, sb; reflexivity).
  assert (Hp : Pos.compare_cont Eq mb ma = CompOpp (Pos.compare_cont Eq ma mb))
    by (rewrite Pos.compare_cont_antisym; reflexivity).
  rewrite (Z.compare_antisym ea eb), Hp.
  destruct sa, sb; simpl; try reflexivity;
    destruct (ea ?= eb)%Z; simpl; try reflexivity;
    destruct (Pos.compare_cont Eq ma mb); reflexivity.
Qed.

Lemma SFcompare_defined (a b : spec_float) :
  SFcompare a a <> None -> SFcompare b b <> None -> SFcompare a b <> None.
Proof.
  destruct a, b; simpl; congruence.
Qed.

Lemma not_ltb_leb (x y : float) :
  is_nan x = false -> is_nan y = false -> (x <? y) = false -> (y <=? x) = true.
Proof.
  intros Hx Hy. apply not_nan_eqb_refl in Hx, Hy.
  rewrite eqb_spec in Hx, Hy. rewrite ltb_spec, leb_spec.
  unfold SFeqb, SFltb, SFleb in *.
  assert (Hd : SFcompare (Prim2SF x) (Prim2SF y) <> None).
  { apply SFcompare_defined.
    - destruct (SFcompare (Prim2SF x) (Prim2SF x)); congruence.
    - destruct (SFcompare (Prim2SF y) (Prim2SF y)); congruence. }
  destruct (SFcompare (Prim2SF x) (Prim2SF y)) as [c|] eqn:E; [|congruence].
  rewrite (SFcompare_antisym _ _ _ E).
  destruct c; simpl; congruence.
Qed.

Lemma leb_not_gt (x y : float) : (x <=? y) = true -> (y <? x) = false.
Proof.
  rewrite ltb_spec, leb_spec. unfold SFltb, SFleb.
  destruct (SFcompare (Prim2SF x) (Prim2SF y)) as [c|] eqn:E;
    [|discriminate].
  rewrite (SFcompare_antisym _ _ _ E). destruct c; simpl; congruence.
Qed.

Lemma leb_refl (x : float) : is_nan x = false -> (x <=? x) = true.
Proof. intros H. apply eqb_leb, not_nan_eqb_refl, H. Qed.

End FloatOrder.

(* ------------------------------------------------------------------ *)
(** * Rounding to nearest, on the specification of the formats *)
(* ------------------------------------------------------------------ *)

Module Rounding.
Local Open Scope Z_scope.

(** ** Binary digits *)

Lemma digits2_pos_bounds (p : positive) :
  2 ^ (Zpos (digits2_pos p) - 1) <= Zpos p < 2 ^ Zpos (digits2_pos p).
Proof.
  induction p as [p IH | p IH |]; cbn [digits2_pos].
  - rewrite Pos2Z.inj_succ, (Pos2Z.inj_xI p).
    replace (Z.succ (Zpos (digits2_pos p)) - 1)
      with (Z.succ (Zpos (digits2_pos p) - 1)) by lia.
    rewrite !Z.pow_succ_r by lia.
    set (a := 2 ^ (Zpos (digits2_pos p) - 1)) in *.
    set (b := 2 ^ Zpos (digits2_pos p)) in *. lia.
  - rewrite Pos2Z.inj_succ, (Pos2Z.inj_xO p).
    replace (Z.succ (Zpos (digits2_pos p)) - 1)
      with (Z.succ (Zpos (digits2_pos p) - 1)) by lia.
    rewrite !Z.pow_succ_r by lia.
    set (a := 2 ^ (Zpos (digits2_pos p) - 1)) in *.
    set (b := 2 ^ Zpos (digits2_pos p)) in *. lia.
  - simpl. lia.
Qed.

Lemma digits_le_of_lt (p : positive) (k : Z) :
  Zpos p < 2 ^ k -> Zpos (digits2_pos p) <= k.
Proof.
  intros H. destruct (digits2_pos_bounds p) as [L _].
  destruct (Z.le_gt_cases (Zpos (digits2_pos p)) k) as [G | G]; [exact G|].
  assert (2 ^ k <= 2 ^ (Zpos (digits2_pos p) - 1))
    by (apply Z.pow_le_mono_r; lia).
  lia.
Qed.

Lemma lt_of_digits_le (p : positive) (k : Z) :
  Zpos (digits2_pos p) <= k -> Zpos p < 2 ^ k.
Proof.
  intros H. destruct (digits2_pos_bounds p) as [_ U].
  assert (2 ^ Zpos (digits2_pos p) <= 2 ^ k)
    by (apply Z.pow_le_mono_r; lia).
  lia.
Qed.

Lemma digits_ge_of_le (p : positive) (k : Z) :
  2 ^ k <= Zpos p -> k < Zpos (digits2_pos p).
Proof.
  intros H. destruct (digits2_pos_bounds p) as [_ U].
  destruct (Z.lt_ge_cases k (Zpos (digits2_pos p))) as [G | G]; [exact G|].
  assert (2 ^ Zpos (digits2_pos p) <= 2 ^ k)
    by (apply Z.pow_le_mono_r; lia).
  lia.
Qed.

Lemma digits_unique (p : positive) (d : Z) :
  2 ^ (d - 1) <= Zpos p < 2 ^ d -> Zpos (digits2_pos p) = d.
Proof.
  intros [L U].
  pose proof (digits_le_of_lt p d U).
  assert (0 < d).
  { destruct (Z.lt_ge_cases 0 d) as [G | G]; [exact G|].
    destruct (Z.eq_dec d 0) as [-> | N]; [simpl in U; lia|].
    rewrite Z.pow_neg_r in U by lia. lia. }
  pose proof (digits_ge_of_le p (d - 1) L). lia.
Qed.

Lemma Zdigits2_nonneg (m : Z) : 0 <= Zdigits2 m.
Proof. destruct m; simpl; lia. Qed.

Lemma Zdigits2_lt (m k : Z) :
  0 <= m -> 0 <= k -> Zdigits2 m <= k -> m < 2 ^ k.
Proof.
  intros Hm Hk H. destruct m as [|p|p]; [|apply lt_of_digits_le, H | lia].
  apply Z.pow_pos_nonneg; lia.
Qed.

(** ** Shifting right *)

Lemma shr_1_spec (mrs : shr_record) :
  0 <= shr_m mrs ->
  shr_m (shr_1 mrs) = shr_m mrs / 2
  /\ shr_r (shr_1 mrs) = Z.odd (shr_m mrs).
Proof.
  destruct mrs as [m r s]. cbn [shr_m]. intros Hm.
  destruct m as [|[p|p|]|p]; cbn [shr_1 shr_m shr_r]; try lia.
  - split; [reflexivity|reflexivity].
  - split; [|reflexivity].
    rewrite (Pos2Z.inj_xI p). apply Z.div_unique with 1; lia.
  - split; [|reflexivity].
    rewrite (Pos2Z.inj_xO p). apply Z.div_unique with 0; lia.
  - split; reflexivity.
Qed.

Lemma iter_shr_spec (p : positive) :
  forall mrs, 0 <= shr_m mrs ->
  shr_m (iter_pos shr_1 p mrs) = shr_m mrs / 2 ^ Zpos p
  /\ shr_r (iter_pos shr_1 p mrs) = Z.odd (shr_m mrs / 2 ^ (Zpos p - 1)).
Proof.
  induction p as [p IH | p IH |]; intros mrs Hm; cbn [iter_pos].
  - destruct (shr_1_spec mrs Hm) as [M1 _].
    assert (H1 : 0 <= shr_m (shr_1 mrs))
      by (rewrite M1; apply Z.div_pos; lia).
    destruct (IH _ H1) as [M2 _].
    assert (H2 : 0 <= shr_m (iter_pos shr_1 p (shr_1 mrs)))
      by (rewrite M2; apply Z.div_pos; [lia | apply Z.pow_pos_nonneg; lia]).
    destruct (IH _ H2) as [M3 R3].
    rewrite M3, R3, M2, M1.
    rewrite !Z.div_div by (try apply Z.pow_pos_nonneg; lia).
    rewrite (Pos2Z.inj_xI p).
    split; f_equal; [|f_equal];
      rewrite <- ?Z.pow_add_r, <- ?(Z.pow_succ_r 2) by lia;
      f_equal; lia.
  - destruct (IH _ Hm) as [M2 _].
    assert (H2 : 0 <= shr_m (iter_pos shr_1 p mrs))
      by (rewrite M2; apply Z.div_pos; [lia | apply Z.pow_pos_nonneg; lia]).
    destruct (IH _ H2) as [M3 R3].
    rewrite M3, R3, M2.
    rewrite !Z.div_div by (try apply Z.pow_pos_nonneg; lia).
    rewrite (Pos2Z.inj_xO p).
    split; f_equal; [|f_equal];
      rewrite <- ?Z.pow_add_r by lia; f_equal; lia.
  - destruct (shr_1_spec mrs Hm) as [M1 R1].
    rewrite M1, R1. simpl. rewrite Z.div_1_r. split; reflexivity.
Qed.

Lemma round_bit_low (m n : Z) :
  0 <= m -> 0 < n -> 2 * (m mod 2 ^ n) < 2 ^ n ->
  Z.odd (m / 2 ^ (n - 1)) = false.
Proof.
  intros Hm Hn H.
  destruct (Z.odd (m / 2 ^ (n - 1))) eqn:O; [exfalso | reflexivity].
  assert (Hp : 0 < 2 ^ (n - 1)) by (apply Z.pow_pos_nonneg; lia).
  assert (E2 : 2 ^ n = 2 * 2 ^ (n - 1)).
  { replace n with (Z.succ (n - 1)) at 1 by lia.
    apply Z.pow_succ_r. lia. }
  pose proof (Z.div_mod m (2 ^ (n - 1)) ltac:(lia)) as E1.
  pose proof (Z.mod_pos_bound m (2 ^ (n - 1)) Hp) as B.
  pose proof (Z.div2_odd (m / 2 ^ (n - 1))) as E3. rewrite O in E3.
  change (Z.b2z true) with 1 in E3.
  set (P := 2 ^ (n - 1)) in *. set (q := m / P) in *.
  set (r0 := m mod P) in *. set (h := Z.div2 q) in *.
  clearbody P q r0 h.
  assert (E : m mod 2 ^ n = P + r0).
  { symmetry. apply Z.mod_unique with h; [lia|].
    rewrite E2. rewrite E3 in E1. rewrite E1. ring. }
  rewrite E, E2 in H. lia.
Qed.

Lemma rne_bounds (m : Z) (l : location) :
  m <= round_nearest_even m l <= m + 1.
Proof.
  destruct l as [|[]]; cbn [round_nearest_even]; try lia.
  destruct (Z.even m); lia.
Qed.

Lemma rne_low (mrs : shr_record) :
  shr_r mrs = false ->
  round_nearest_even (shr_m mrs) (loc_of_shr_record mrs) = shr_m mrs.
Proof.
  destruct mrs as [m r s]. cbn [shr_r shr_m]. intros ->.
  destruct s; reflexivity.
Qed.

Lemma shr_record_of_loc_m (m : Z) (l : location) :
  shr_m (shr_record_of_loc m l) = m.
Proof. destruct l as [|[]]; reflexivity. Qed.

(** ** One format *)

Section Format.
Variables prc emx : Z.
Hypothesis Hprc : 0 < prc.

Local Notation "'fexp''" := (SpecFloat.fexp prc emx).
Local Notation "'emin''" := (SpecFloat.emin prc emx).

Lemma fexp_max (x : Z) : fexp' x = Z.max (x - prc) emin'.
Proof. reflexivity. Qed.

Lemma fexp_mono (x y : Z) : x <= y -> fexp' x <= fexp' y.
Proof. rewrite !fexp_max. lia. Qed.

(** The first shift of [binary_round_aux]: the exponent reached and the
    mantissa kept; from an exact mantissa, the round bit is clear when
    what is shifted out is less than half a unit. *)
Lemma shr_fexp_spec (m e : Z) (l : location) :
  0 <= m ->
  let e1 := Z.max e (fexp' (Zdigits2 m + e)) in
  snd (shr_fexp prc emx m e l) = e1
  /\ shr_m (fst (shr_fexp prc emx m e l)) = m / 2 ^ (e1 - e)
  /\ (l = loc_Exact -> 2 * (m mod 2 ^ (e1 - e)) < 2 ^ (e1 - e) ->
      shr_r (fst (shr_fexp prc emx m e l)) = false).
Proof.
  intros Hm e1. unfold shr_fexp, shr.
  destruct (fexp' (Zdigits2 m + e) - e) as [|p|p] eqn:N; cbn [fst snd].
  - assert (E : e1 = e) by (unfold e1; lia).
    rewrite E, Z.sub_diag, shr_record_of_loc_m. cbn [Z.pow].
    rewrite Z.div_1_r. repeat split. intros -> _. reflexivity.
  - assert (E : e1 - e = Zpos p) by (unfold e1; lia).
    rewrite E.
    destruct (iter_shr_spec p (shr_record_of_loc m l)) as [M R];
      [rewrite shr_record_of_loc_m; exact Hm|].
    rewrite shr_record_of_loc_m in M, R.
    split; [unfold e1; lia|]. split; [exact M|].
    intros _ H. rewrite R. apply round_bit_low; [exact Hm | lia | exact H].
  - assert (E : e1 = e) by (unfold e1; lia).
    rewrite E, Z.sub_diag, shr_record_of_loc_m. cbn [Z.pow].
    rewrite Z.div_1_r. repeat split. intros -> _. reflexivity.
Qed.

(** The second shift: it renormalises a mantissa that rounding carried
    to [2 ^ prc]. *)
Lemma second_shift (m2 e1 : Z) :
  0 <= m2 <= 2 ^ prc -> emin' <= e1 ->
  (m2 < 2 ^ prc
   /\ shr_m (fst (shr_fexp prc emx m2 e1 loc_Exact)) = m2
   /\ snd (shr_fexp prc emx m2 e1 loc_Exact) = e1)
  \/ (m2 = 2 ^ prc
      /\ shr_m (fst (shr_fexp prc emx m2 e1 loc_Exact)) = 2 ^ (prc - 1)
      /\ snd (shr_fexp prc emx m2 e1 loc_Exact) = e1 + 1).
Proof.
  intros [L U] He.
  destruct (shr_fexp_spec m2 e1 loc_Exact L) as (E & M & _).
  cbv zeta in E, M. rewrite E, M.
  destruct (Z.eq_dec m2 (2 ^ prc)) as [Q | Q].
  - right. split; [exact Q|].
    assert (D : Zdigits2 m2 = prc + 1).
    { destruct m2 as [|p|p]; [|apply digits_unique | lia].
      - pose proof (Z.pow_pos_nonneg 2 prc). lia.
      - rewrite Q. replace (prc + 1 - 1) with prc by lia.
        split; [lia|]. apply Z.pow_lt_mono_r; lia. }
    rewrite D, fexp_max.
    replace (Z.max e1 (Z.max (prc + 1 + e1 - prc) emin')) with (e1 + 1) by lia.
    replace (e1 + 1 - e1) with 1 by lia.
    split; [|reflexivity].
    rewrite Q. replace prc with (Z.succ (prc - 1)) at 1 by lia.
    rewrite Z.pow_succ_r by lia. rewrite Z.pow_1_r.
    rewrite Z.mul_comm. apply Z.div_mul. lia.
  - left. split; [lia|].
    assert (D : Zdigits2 m2 <= prc).
    { destruct m2 as [|p|p]; [simpl; lia | apply digits_le_of_lt; lia | lia]. }
    rewrite fexp_max.
    replace (Z.max e1 (Z.max (Zdigits2 m2 + e1 - prc) emin')) with e1 by lia.
    rewrite Z.sub_diag. cbn [Z.pow]. rewrite Z.div_1_r. split; reflexivity.
Qed.

(** What [binary_round_aux] returns for a mantissa that is not negative:
    the shifted mantissa [m2] after rounding, and the mantissa [M] and
    exponent [E] after renormalisation. *)
Lemma round_aux_spec (s : bool) (m e : Z) (l : location) :
  0 <= m ->
  let e1 := Z.max e (fexp' (Zdigits2 m + e)) in
  let k := e1 - e in
  exists m2 M E,
    m / 2 ^ k <= m2 <= m / 2 ^ k + 1
    /\ (l = loc_Exact -> 2 * (m mod 2 ^ k) < 2 ^ k -> m2 = m / 2 ^ k)
    /\ ((m2 < 2 ^ prc /\ M = m2 /\ E = e1)
        \/ (m2 = 2 ^ prc /\ M = 2 ^ (prc - 1) /\ E = e1 + 1))
    /\ binary_round_aux prc emx s m e l
       = match M with
         | Z0 => S754_zero s
         | Zpos p =>
             if E <=? emx - prc then S754_finite s p E else S754_infinity s
         | Zneg _ => S754_nan
         end.
Proof.
  intros Hm e1 k.
  destruct (shr_fexp_spec m e l Hm) as (E1 & M1 & R1).
  cbv zeta in E1, M1, R1. fold e1 in E1, M1, R1. fold k in M1, R1.
  unfold binary_round_aux.
  destruct (shr_fexp prc emx m e l) as [mrs e1'].
  cbn [fst snd] in E1, M1, R1. subst e1'.
  set (m2 := round_nearest_even (shr_m mrs) (loc_of_shr_record mrs)).
  assert (Hk : 0 <= k) by (unfold k, e1; lia).
  assert (Hpk : 0 < 2 ^ k) by (apply Z.pow_pos_nonneg; lia).
  assert (B : m / 2 ^ k <= m2 <= m / 2 ^ k + 1).
  { unfold m2. rewrite <- M1. apply rne_bounds. }
  assert (Hq : 0 <= m / 2 ^ k) by (apply Z.div_pos; lia).
  assert (Hlt : m / 2 ^ k < 2 ^ prc).
  { apply Z.div_lt_upper_bound; [exact Hpk|].
    rewrite Z.mul_comm, <- Z.pow_add_r by lia.
    assert (D : Zdigits2 m <= prc + k).
    { unfold k, e1. rewrite fexp_max. lia. }
    apply Zdigits2_lt; [exact Hm | lia | exact D]. }
  assert (He1 : emin' <= e1) by (unfold e1; rewrite fexp_max; lia).
  destruct (second_shift m2 e1 ltac:(lia) He1) as [(L & M2 & E2) | (Q & M2 & E2)];
    destruct (shr_fexp prc emx m2 e1 loc_Exact) as [mrs2 E];
    cbn [fst snd] in M2, E2; exists m2, (shr_m mrs2), E.
  - split; [exact B|]. split.
    { intros Hl H. unfold m2. rewrite rne_low; [exact M1 | now apply R1]. }
    split; [left; repeat split; assumption | reflexivity].
  - split; [exact B|]. split.
    { intros Hl H. unfold m2. rewrite rne_low; [exact M1 | now apply R1]. }
    split; [right; repeat split; assumption | reflexivity].
Qed.

(** A mantissa that is not negative never rounds to NaN, and the result
    is finite when the exponent reached leaves room for a carry. *)
Lemma round_aux_finite (s : bool) (m e : Z) (l : location) :
  0 <= m ->
  Z.max e (fexp' (Zdigits2 m + e)) + 1 <= emx - prc ->
  binary_round_aux prc emx s m e l = S754_zero s
  \/ exists M E, binary_round_aux prc emx s m e l = S754_finite s M E.
Proof.
  intros Hm He.
  destruct (round_aux_spec s m e l Hm) as (m2 & M & E & B & _ & C & R).
  cbv zeta in B, C, R. rewrite R.
  assert (Hq : 0 <= m / 2 ^ (Z.max e (fexp' (Zdigits2 m + e)) - e)).
  { apply Z.div_pos; [exact Hm|]. apply Z.pow_pos_nonneg; lia. }
  assert (HM : 0 <= M).
  { destruct C as [(_ & -> & _) | (_ & -> & _)]; [lia|].
    apply Z.pow_nonneg. lia. }
  assert (HE : E <= emx - prc) by (destruct C as [(_ & _ & ->) | (_ & _ & ->)]; lia).
  destruct M as [|p|p]; [now left | right | lia].
  exists p, E. apply Z.leb_le in HE. now rewrite HE.
Qed.

Lemma round_aux_not_nan (s : bool) (m e : Z) (l : location) :
  0 <= m -> binary_round_aux prc emx s m e l <> S754_nan.
Proof.
  intros Hm.
  destruct (round_aux_spec s m e l Hm) as (m2 & M & E & B & _ & C & R).
  cbv zeta in B, C, R. rewrite R.
  assert (Hq : 0 <= m / 2 ^ (Z.max e (fexp' (Zdigits2 m + e)) - e)).
  { apply Z.div_pos; [exact Hm|]. apply Z.pow_pos_nonneg; lia. }
  assert (HM : 0 <= M).
  { destruct C as [(_ & -> & _) | (_ & -> & _)]; [lia|].
    apply Z.pow_nonneg. lia. }
  destruct M as [|p|p]; [discriminate | | lia].
  destruct (E <=? emx - prc); discriminate.
Qed.

(** Rounding an exact mantissa does not pass a number [c] of the format
    that the value does not exceed by half a unit in the last place of
    [c] or more. *)
Lemma round_below (s : bool) (m : positive) (e : Z) (mc : positive) (ec : Z) :
  bounded prc emx mc ec = true ->
  e <= ec ->
  2 * Zpos m < (2 * Zpos mc + 1) * 2 ^ (ec - e) ->
  binary_round_aux prc emx s (Zpos m) e loc_Exact = S754_zero s
  \/ exists M E,
       binary_round_aux prc emx s (Zpos m) e loc_Exact = S754_finite s M E
       /\ Zpos M < 2 ^ prc /\ emin' <= E
       /\ (E < ec \/ (E = ec /\ Zpos M <= Zpos mc)).
Proof.
  intros Hb Hle H.
  unfold bounded, canonical_mantissa in Hb.
  apply andb_true_iff in Hb. destruct Hb as [Hc Hec].
  apply Z.eqb_eq in Hc. apply Z.leb_le in Hec.
  set (d := Zpos (digits2_pos m)) in *.
  set (dc := Zpos (digits2_pos mc)) in *.
  destruct (digits2_pos_bounds mc) as [Lc Uc]. fold dc in Lc, Uc.
  assert (Hdc : dc <= prc) by (rewrite fexp_max in Hc; lia).
  assert (Hmc : Zpos mc < 2 ^ prc) by (apply lt_of_digits_le; exact Hdc).
  assert (Hpe : 0 < 2 ^ (ec - e)) by (apply Z.pow_pos_nonneg; lia).
  (* the magnitude of the value is not above that of [c] *)
  assert (S1 : d + e <= dc + ec).
  { assert (Zpos m < 2 ^ (dc + ec - e)).
    { replace (dc + ec - e) with (dc + (ec - e)) by lia.
      rewrite Z.pow_add_r by (unfold dc; lia).
      assert ((2 * Zpos mc + 1) * 2 ^ (ec - e) <= (2 * 2 ^ dc) * 2 ^ (ec - e))
        by (apply Z.mul_le_mono_nonneg_r; lia).
      lia. }
    pose proof (digits_le_of_lt m _ H0). fold d in H1. lia. }
  set (e1 := Z.max e (fexp' (Zdigits2 (Zpos m) + e))).
  assert (S2 : e1 <= ec).
  { unfold e1. cbn [Zdigits2]. fold d.
    pose proof (fexp_mono _ _ S1). lia. }
  assert (He1 : emin' <= e1) by (unfold e1; rewrite fexp_max; lia).
  destruct (round_aux_spec s (Zpos m) e loc_Exact ltac:(lia))
    as (m2 & M & E & B & X & C & R).
  cbv zeta in B, X, C, R. fold e1 in B, X, C, R.
  specialize (X eq_refl).
  set (k := e1 - e) in *. set (j := ec - e1).
  assert (Hk : 0 <= k) by (unfold k, e1; lia).
  assert (Hj : 0 <= j) by (unfold j; lia).
  assert (Hpk : 0 < 2 ^ k) by (apply Z.pow_pos_nonneg; lia).
  assert (Hpj : 0 < 2 ^ j) by (apply Z.pow_pos_nonneg; lia).
  assert (Epow : 2 ^ (ec - e) = 2 ^ j * 2 ^ k).
  { rewrite <- Z.pow_add_r by lia. f_equal. unfold j, k. lia. }
  pose proof (Z.div_mod (Zpos m) (2 ^ k) ltac:(lia)) as Edm.
  pose proof (Z.mod_pos_bound (Zpos m) (2 ^ k) Hpk) as Brem.
  (* the rounded mantissa is at most [mc * 2 ^ j] *)
  assert (S3 : m2 <= Zpos mc * 2 ^ j).
  { destruct (Z.eq_dec j 0) as [J0 | J0].
    - rewrite J0 in *. cbn [Z.pow] in Epow |- *. rewrite Z.mul_1_r.
      rewrite Epow, Z.mul_1_l in H.
      set (P := 2 ^ k) in *. set (q := Zpos m / P) in *.
      set (r := Zpos m mod P) in *.
      assert (Hq : q <= Zpos mc).
      { destruct (Z.le_gt_cases q (Zpos mc)) as [G | G]; [exact G|].
        assert (P * (Zpos mc + 1) <= P * q)
          by (apply Z.mul_le_mono_nonneg_l; lia).
        lia. }
      destruct (Z.eq_dec q (Zpos mc)) as [Q | Q]; [|lia].
      rewrite X; [lia|]. rewrite Q in Edm. lia.
    - assert (Hlt : Zpos m < 2 ^ k * (Zpos mc * 2 ^ j)).
      { destruct (Z.lt_ge_cases (Zpos m) (2 ^ k * (Zpos mc * 2 ^ j)))
          as [G | G]; [exact G | exfalso].
        assert (G' : 2 ^ ((dc - 1) + (ec - e)) <= Zpos m).
        { rewrite Z.pow_add_r by (unfold dc; lia). rewrite Epow.
          assert (2 ^ (dc - 1) * (2 ^ j * 2 ^ k) <= Zpos mc * (2 ^ j * 2 ^ k))
            by (apply Z.mul_le_mono_nonneg_r; lia).
          lia. }
        pose proof (digits_ge_of_le m _ G') as G''. fold d in G''.
        assert (Ed : d + e = dc + ec) by lia.
        assert (fexp' (d + e) = ec) by (rewrite Ed; exact Hc).
        unfold j, e1 in J0. cbn [Zdigits2] in J0. fold d in J0.
        unfold e1 in S2. cbn [Zdigits2] in S2. fold d in S2. lia. }
      assert (Zpos m / 2 ^ k < Zpos mc * 2 ^ j)
        by (apply Z.div_lt_upper_bound; [exact Hpk | exact Hlt]).
      lia. }
  assert (Hq0 : 0 <= Zpos m / 2 ^ k) by (apply Z.div_pos; lia).
  rewrite R.
  destruct C as [(L & -> & ->) | (Q & -> & ->)].
  - destruct m2 as [|p|p]; [now left | right | lia].
    exists p, e1.
    assert (G : (e1 <=? emx - prc) = true) by (apply Z.leb_le; lia).
    rewrite G. split; [reflexivity|]. split; [exact L|]. split; [exact He1|].
    destruct (Z.eq_dec j 0) as [J0 | J0].
    + right. rewrite J0 in S3. cbn [Z.pow] in S3. unfold j in J0. lia.
    + left. unfold j in J0, Hj. lia.
  - assert (J1 : 1 <= j).
    { destruct (Z.eq_dec j 0) as [J0 | J0]; [|lia].
      rewrite J0 in S3. cbn [Z.pow] in S3. lia. }
    assert (Hp1 : 2 ^ prc = 2 * 2 ^ (prc - 1)).
    { replace prc with (Z.succ (prc - 1)) at 1 by lia.
      apply Z.pow_succ_r. lia. }
    assert (Hpp : 0 < 2 ^ (prc - 1)) by (apply Z.pow_pos_nonneg; lia).
    destruct (2 ^ (prc - 1)) as [|p|p] eqn:EP; [lia | right | lia].
    exists p, (e1 + 1).
    assert (G : (e1 + 1 <=? emx - prc) = true)
      by (apply Z.leb_le; unfold j in J1; lia).
    rewrite G. split; [reflexivity|]. split; [lia|]. split; [lia|].
    destruct (Z.eq_dec j 1) as [J | J].
    + right. rewrite J in S3. rewrite Z.pow_1_r in S3. unfold j in J. lia.
    + left. unfold j in J, J1. lia.
Qed.

Lemma iter_xO_value (m p : positive) :
  Zpos (Pos.iter xO m p) = Zpos m * 2 ^ Zpos p.
Proof.
  induction p as [|p IH] using Pos.peano_ind.
  - cbn [Pos.iter]. rewrite (Pos2Z.inj_xO m). rewrite Z.pow_1_r. lia.
  - rewrite Pos.iter_succ, (Pos2Z.inj_xO (Pos.iter xO m p)), IH.
    rewrite Pos2Z.inj_succ, Z.pow_succ_r by lia. lia.
Qed.

(** A mantissa that fits the format is kept as it is, aligned to the
    exponent of the format. *)
Lemma binary_round_exact (s : bool) (m : positive) (e : Z) :
  let e' := fexp' (Zpos (digits2_pos m) + e) in
  e' <= e -> e' <= emx - prc ->
  exists M,
    binary_round prc emx s m e = S754_finite s M e'
    /\ Zpos M = Zpos m * 2 ^ (e - e').
Proof.
  intros e' He Hmax. unfold binary_round, shl_align. fold e'.
  set (d := Zpos (digits2_pos m)) in *.
  assert (Hshape : forall (m1 : positive) (e1 : Z),
            Zpos (digits2_pos m1) + e1 = d + e -> e1 = e' ->
            binary_round_aux prc emx s (Zpos m1) e1 loc_Exact
            = S754_finite s m1 e1).
  { intros m1 e1 Hd He1.
    destruct (round_aux_spec s (Zpos m1) e1 loc_Exact ltac:(lia))
      as (m2 & M & E & B & X & C & R).
    cbv zeta in B, X, C, R. cbn [Zdigits2] in B, X, C, R.
    rewrite Hd in B, X, C. fold e' in B, X, C.
    replace (Z.max e1 e') with e1 in B, X, C by lia.
    rewrite Z.sub_diag in B, X. cbn [Z.pow] in B, X.
    rewrite Z.div_1_r in B, X. rewrite Z.mod_1_r in X.
    specialize (X eq_refl ltac:(lia)). subst m2.
    assert (Hm1 : Zpos m1 < 2 ^ prc).
    { apply lt_of_digits_le. unfold e' in He1. rewrite fexp_max in He1. lia. }
    destruct C as [(_ & -> & ->) | (Q & _ & _)]; [|lia].
    rewrite R.
    assert (G : (e1 <=? emx - prc) = true) by (apply Z.leb_le; lia).
    now rewrite G. }
  destruct (e' - e) as [|p|p] eqn:N.
  - exists m. assert (e = e') by lia.
    rewrite Hshape by (fold d; lia).
    split; [f_equal; lia|]. replace (e - e') with 0 by lia. simpl. lia.
  - lia.
  - exists (Pos.iter xO m p).
    assert (V : Zpos (Pos.iter xO m p) = Zpos m * 2 ^ Zpos p)
      by apply iter_xO_value.
    assert (D : Zpos (digits2_pos (Pos.iter xO m p)) = d + Zpos p).
    { apply digits_unique. rewrite V.
      destruct (digits2_pos_bounds m) as [L U]. fold d in L, U.
      replace (d + Zpos p - 1) with ((d - 1) + Zpos p) by lia.
      rewrite !Z.pow_add_r by (unfold d; lia).
      assert (0 < 2 ^ Zpos p) by (apply Z.pow_pos_nonneg; lia).
      split; [apply Z.mul_le_mono_nonneg_r; lia
             | apply Z.mul_lt_mono_pos_r; lia]. }
    rewrite Hshape by lia.
    split; [reflexivity|]. rewrite V. f_equal. f_equal. lia.
Qed.

End Format.

End Rounding.

(* ------------------------------------------------------------------ *)
(** * Binary64 numbers and binary32 stores *)
(* ------------------------------------------------------------------ *)

Module Binary64.
Import JS FloatSpec Rounding.
Local Open Scope Z_scope.

(** ** What [Prim2SF] returns *)

Lemma Prim2SF_nan (x : float) : is_nan x = true -> Prim2SF x = S754_nan.
Proof. unfold Prim2SF. intros ->. reflexivity. Qed.

Lemma Prim2SF_not_nan (x : float) : is_nan x = false -> Prim2SF x <> S754_nan.
Proof.
  unfold Prim2SF. intros ->.
  destruct (is_zero x); [discriminate|].
  destruct (is_infinity x); [discriminate|].
  destruct (Z.frexp x) as [r ex].
  destruct (shr_fexp _ _ _ _ _) as [mrs e'].
  destruct (shr_m mrs); discriminate.
Qed.

Lemma is_nan_Prim2SF (x : float) : Prim2SF x <> S754_nan -> is_nan x = false.
Proof.
  intros H. destruct (is_nan x) eqn:E; [|reflexivity].
  exfalso. apply H, Prim2SF_nan, E.
Qed.

Lemma is_finite_sf (x : float) : is_finite x = true -> finite_sf (Prim2SF x).
Proof.
  unfold is_finite. intros H.
  apply negb_true_iff, orb_false_iff in H. destruct H as [Hn Hi].
  unfold Prim2SF. rewrite Hn, Hi.
  destruct (is_zero x); [exact I|].
  destruct (Z.frexp x) as [r ex].
  destruct (shr_fexp _ _ _ _ _) as [mrs e'].
  destruct (shr_m mrs); exact I.
Qed.

Lemma finite_sf_not_nan (x : float) : finite_sf (Prim2SF x) -> is_nan x = false.
Proof.
  intros H. apply is_nan_Prim2SF. intros E. rewrite E in H. exact H.
Qed.

Lemma finite_bounded (x : float) (s : bool) (m : positive) (e : Z) :
  Prim2SF x = S754_finite s m e -> bounded prec emax m e = true.
Proof.
  intros H. pose proof (Prim2SF_valid x) as V. rewrite H in V. exact V.
Qed.

Lemma bounded_facts (m : positive) (e : Z) :
  bounded prec emax m e = true ->
  Zpos (digits2_pos m) <= 53 /\ Zpos m < 2 ^ 53 /\ -1074 <= e <= 971
  /\ (Zpos (digits2_pos m) = 53 \/ e = -1074).
Proof.
  unfold bounded, canonical_mantissa. intros H.
  apply andb_true_iff in H. destruct H as [Hc He].
  apply Z.eqb_eq in Hc. apply Z.leb_le in He.
  rewrite (fexp_max prec emax) in Hc.
  change prec with 53 in *. change emax with 1024 in *.
  change (SpecFloat.emin 53 1024) with (-1074) in *.
  assert (D : Zpos (digits2_pos m) <= 53) by lia.
  split; [exact D|]. split; [apply lt_of_digits_le, D|]. lia.
Qed.

(** ** A binary32 number as a binary64 number *)

(** [SF2Prim] on a mantissa of at most 53 bits: the mantissa is aligned
    to 53 bits. *)
Lemma Prim2SF_SF2Prim_short (s : bool) (M : positive) (E : Z) :
  let d := Zpos (digits2_pos M) in
  d <= 53 -> -1074 <= d + E - 53 -> d + E - 53 <= 971 ->
  exists M',
    Prim2SF (SF2Prim (S754_finite s M E)) = S754_finite s M' (d + E - 53)
    /\ Zpos M' = Zpos M * 2 ^ (53 - d).
Proof.
  intros d Hd Hlo Hhi.
  assert (HM : Zpos M < 2 ^ 53) by (apply lt_of_digits_le; exact Hd).
  (* the mantissa as a number *)
  assert (P1 : exists M1,
             Prim2SF (of_uint63 (Uint63Axioms.of_Z (Zpos M)))
             = S754_finite false M1 (d - 53)
             /\ Zpos M1 = Zpos M * 2 ^ (53 - d)).
  { rewrite of_uint63_spec, Uint63.of_Z_spec.
    rewrite Z.mod_small
      by (split; [lia|]; change Uint63.wB with (2 ^ 63);
          assert (2 ^ 53 < 2 ^ 63) by reflexivity; lia).
    cbn [binary_normalize].
    destruct (binary_round_exact prec emax eq_refl false M 0) as (M1 & R & V).
    - cbv zeta. rewrite (fexp_max prec emax).
      change prec with 53. change emax with 1024.
      change (SpecFloat.emin 53 1024) with (-1074). fold d. lia.
    - cbv zeta. rewrite (fexp_max prec emax).
      change prec with 53. change emax with 1024.
      change (SpecFloat.emin 53 1024) with (-1074). fold d. lia.
    - cbv zeta in R, V. rewrite (fexp_max prec emax) in R, V.
      change prec with 53 in R, V. change emax with 1024 in R, V.
      change (SpecFloat.emin 53 1024) with (-1074) in R, V. fold d in R, V.
      replace (Z.max (d + 0 - 53) (-1074)) with (d - 53) in R, V
        by (unfold d; lia).
      exists M1. split; [exact R|]. rewrite V. f_equal. f_equal. lia. }
  destruct P1 as (M1 & R1 & V1).
  assert (D1 : Zpos (digits2_pos M1) = 53).
  { apply digits_unique. rewrite V1.
    destruct (digits2_pos_bounds M) as [L U]. fold d in L, U.
    assert (0 < 2 ^ (53 - d)) by (apply Z.pow_pos_nonneg; lia).
    assert (E53 : 2 ^ 53 = 2 ^ d * 2 ^ (53 - d)).
    { rewrite <- Z.pow_add_r by (unfold d; lia). f_equal. lia. }
    assert (E52 : 2 ^ (53 - 1) = 2 ^ (d - 1) * 2 ^ (53 - d)).
    { rewrite <- Z.pow_add_r by (unfold d; lia). f_equal. lia. }
    rewrite E53, E52.
    split; [apply Z.mul_le_mono_nonneg_r; lia
           | apply Z.mul_lt_mono_pos_r; lia]. }
  (* scaled by the exponent *)
  assert (P2 : exists M',
             Prim2SF (Z.ldexp (of_uint63 (Uint63Axioms.of_Z (Zpos M))) E)
             = S754_finite false M' (d + E - 53)
             /\ Zpos M' = Zpos M * 2 ^ (53 - d)).
  { rewrite Z_ldexp_spec, R1. cbn [SFldexp].
    destruct (binary_round_exact prec emax eq_refl false M1 (d - 53 + E))
      as (M' & R & V).
    - cbv zeta. rewrite (fexp_max prec emax), D1.
      change prec with 53. change emax with 1024.
      change (SpecFloat.emin 53 1024) with (-1074). lia.
    - cbv zeta. rewrite (fexp_max prec emax), D1.
      change prec with 53. change emax with 1024.
      change (SpecFloat.emin 53 1024) with (-1074). lia.
    - cbv zeta in R, V. rewrite (fexp_max prec emax), D1 in R, V.
      change prec with 53 in R, V. change emax with 1024 in R, V.
      change (SpecFloat.emin 53 1024) with (-1074) in R, V.
      replace (Z.max (53 + (d - 53 + E) - 53) (-1074)) with (d + E - 53)
        in R, V by lia.
      exists M'. split; [exact R|].
      rewrite V, V1. replace (d - 53 + E - (d + E - 53)) with 0 by lia.
      simpl. lia. }
  destruct P2 as (M' & R2 & V2).
  exists M'. split; [|exact V2].
  cbn [SF2Prim]. destruct s; [|exact R2].
  rewrite opp_spec, R2. reflexivity.
Qed.

(** ** The order on finite numbers of one sign *)

Lemma SFleb_pos (m1 : positive) (e1 : Z) (m2 : positive) (e2 : Z) :
  SFleb (S754_finite false m1 e1) (S754_finite false m2 e2) = true
  <-> e1 < e2 \/ (e1 = e2 /\ Zpos m1 <= Zpos m2).
Proof.
  unfold SFleb. cbn [SFcompare].
  change (Pos.compare_cont Eq m1 m2) with (Pos.compare m1 m2).
  destruct (Z.compare_spec e1 e2); [destruct (Pos.compare_spec m1 m2)| |];
    split; intros G; try reflexivity; try discriminate G; lia.
Qed.

Lemma SFltb_pos (m1 : positive) (e1 : Z) (m2 : positive) (e2 : Z) :
  SFltb (S754_finite false m1 e1) (S754_finite false m2 e2) = true
  <-> e1 < e2 \/ (e1 = e2 /\ Zpos m1 < Zpos m2).
Proof.
  unfold SFltb. cbn [SFcompare].
  change (Pos.compare_cont Eq m1 m2) with (Pos.compare m1 m2).
  destruct (Z.compare_spec e1 e2); [destruct (Pos.compare_spec m1 m2)| |];
    split; intros G; try reflexivity; try discriminate G; lia.
Qed.

Lemma SFleb_neg (m1 : positive) (e1 : Z) (m2 : positive) (e2 : Z) :
  SFleb (S754_finite true m1 e1) (S754_finite true m2 e2) = true
  <-> e2 < e1 \/ (e1 = e2 /\ Zpos m2 <= Zpos m1).
Proof.
  unfold SFleb. cbn [SFcompare].
  change (Pos.compare_cont Eq m1 m2) with (Pos.compare m1 m2).
  destruct (Z.compare_spec e1 e2); [destruct (Pos.compare_spec m1 m2)| |];
    cbn [CompOpp]; split; intros G; try reflexivity; try discriminate G; lia.
Qed.

(** ** The soft clip *)

Lemma Prim2SF_095 :
  Prim2SF 0.95%float = S754_finite false 8556839292003942 (-53).
Proof. vm_compute. reflexivity. Qed.

Lemma Prim2SF_one : Prim2SF 1%float = S754_finite false 4503599627370496 (-52).
Proof. vm_compute. reflexivity. Qed.

Lemma Prim2SF_minus_one :
  Prim2SF (-1)%float = S754_finite true 4503599627370496 (-52).
Proof. vm_compute. reflexivity. Qed.

(** A number of [-1, 1]. *)
Lemma within_unit_cases (t : float) :
  (-1 <=? t)%float = true -> (t <=? 1)%float = true ->
  (exists s, Prim2SF t = S754_zero s)
  \/ (exists s m e,
        Prim2SF t = S754_finite s m e
        /\ (e < -52 \/ (e = -52 /\ Zpos m <= 4503599627370496))).
Proof.
  rewrite !leb_spec, Prim2SF_one, Prim2SF_minus_one.
  destruct (Prim2SF t) as [s|s| |s m e].
  - intros _ _. left. now exists s.
  - destruct s; [intros H _ | intros _ H]; discriminate H.
  - intros H _. discriminate H.
  - intros H1 H2. right. exists s, m, e. split; [reflexivity|].
    destruct s.
    + apply SFleb_neg in H1. lia.
    + apply SFleb_pos in H2. lia.
Qed.

(** The product of a number of [-1, 1] and 0.95 is 0.95 at most in
    magnitude. *)
Lemma times_095 (t : float) :
  (-1 <=? t)%float = true -> (t <=? 1)%float = true ->
  (exists s, Prim2SF (t * 0.95)%float = S754_zero s)
  \/ (exists s m e,
        Prim2SF (t * 0.95)%float = S754_finite s m e
        /\ (e < -53 \/ (e = -53 /\ Zpos m <= 8556839292003942))).
Proof.
  intros H1 H2. rewrite mul_spec, Prim2SF_095.
  destruct (within_unit_cases t H1 H2) as [[s E] | (s & m & e & E & B)].
  - rewrite E. left. exists (xorb s false). reflexivity.
  - pose proof (finite_bounded _ _ _ _ E) as Hb.
    apply bounded_facts in Hb. destruct Hb as (_ & Hm & _ & _).
    rewrite E. unfold SF64mul. cbn [SFmul].
    destruct (round_below prec emax eq_refl (xorb s false)
                (m * 8556839292003942) (e + -53) 8556839292003942 (-53))
      as [Z | (M & E' & R & _ & _ & C)].
    + reflexivity.
    + lia.
    + rewrite Pos2Z.inj_mul.
      replace (-53 - (e + -53)) with (- e) by lia.
      destruct B as [B | [-> B]].
      * assert (2 ^ 53 <= 2 ^ (- e)) by (apply Z.pow_le_mono_r; lia).
        assert (Zpos m * 8556839292003942 < 2 ^ 53 * 8556839292003942)
          by (apply Z.mul_lt_mono_pos_r; lia).
        assert (2 ^ 53 * (2 * 8556839292003942)
                <= 2 ^ (- e) * (2 * 8556839292003942))
          by (apply Z.mul_le_mono_nonneg_r; lia).
        assert (0 < 2 ^ (- e)) by (apply Z.pow_pos_nonneg; lia).
        lia.
      * change (2 ^ (- -52)) with 4503599627370496. lia.
    + left. exists (xorb s false). exact Z.
    + right. exists (xorb s false), M, E'. split; [exact R | exact C].
Qed.

Lemma Prim2SF_abs_zero (s : bool) :
  SFltb (SFabs (S754_zero s)) (S754_finite false 8556839292003942 (-53)) = true.
Proof. reflexivity. Qed.

(** A number of at most 0.95 in magnitude is stored in a [Float32Array]
    as a number below 0.95: the store rounds 0.95 down. *)
Lemma fround_below_095 (z : float) :
  (exists s, Prim2SF z = S754_zero s)
  \/ (exists s m e,
        Prim2SF z = S754_finite s m e
        /\ (e < -53 \/ (e = -53 /\ Zpos m <= 8556839292003942))) ->
  (Math_abs (fround z) <? 0.95)%float = true.
Proof.
  intros H. unfold Math_abs. rewrite ltb_spec, abs_spec, Prim2SF_095.
  unfold fround.
  destruct H as [[s E] | (s & m & e & E & B)]; rewrite E;
    [rewrite E; reflexivity|].
  pose proof (finite_bounded _ _ _ _ E) as Hb.
  apply bounded_facts in Hb. destruct Hb as (_ & Hm & He & Hd).
  (* rounding to binary32 *)
  assert (R32 : binary_normalize 24 128 (if s then Zneg m else Zpos m) e s
                = binary_round_aux 24 128 s (Zpos m) e loc_Exact).
  { assert (G : 0 < SpecFloat.fexp 24 128 (Zpos (digits2_pos m) + e) - e).
    { rewrite (fexp_max 24 128).
      change (SpecFloat.emin 24 128) with (-149). lia. }
    destruct s; cbn [binary_normalize]; unfold binary_round, shl_align;
      destruct (SpecFloat.fexp 24 128 (Zpos (digits2_pos m) + e) - e);
      try lia; reflexivity. }
  rewrite R32.
  destruct (round_below 24 128 eq_refl s m e 15938355 (-24))
    as [Z | (M & E' & R & HM & HE & C)].
  - reflexivity.
  - lia.
  - destruct B as [B | [-> B]].
    + assert (2 ^ 30 <= 2 ^ (-24 - e)) by (apply Z.pow_le_mono_r; lia).
      change (2 ^ 30) with 1073741824 in *.
      change (2 ^ 53) with 9007199254740992 in *.
      assert ((2 * 15938355 + 1) * 1073741824
              <= (2 * 15938355 + 1) * 2 ^ (-24 - e))
        by (apply Z.mul_le_mono_nonneg_l; lia).
      lia.
    + change (2 ^ (-24 - -53)) with 536870912. lia.
  - rewrite Z. destruct s; reflexivity.
  - rewrite R.
    change (SpecFloat.emin 24 128) with (-149) in HE.
    assert (D : Zpos (digits2_pos M) <= 24) by (apply digits_le_of_lt, HM).
    pose proof (digits2_pos_bounds M) as [DL DU].
    assert (D1 : 1 <= Zpos (digits2_pos M)) by lia.
    destruct (Prim2SF_SF2Prim_short s M E') as (M' & P & V);
      [lia | lia | lia |].
    cbv zeta in P. rewrite P. cbn [SFabs].
    apply SFltb_pos.
    destruct (Z.eq_dec (Zpos (digits2_pos M) + E' - 53) (-53)) as [Q | Q];
      [right | left; lia].
    split; [exact Q|].
    assert (D24 : Zpos (digits2_pos M) = 24) by lia.
    assert (E24 : E' = -24) by lia.
    rewrite V, D24. change (2 ^ (53 - 24)) with 536870912. lia.
Qed.

(** The soft clip of the limiter: whatever [Math.tanh] returns within
    [-1, 1], the sample stored is below 0.95 in magnitude. *)
Lemma soft_clip_below_095 (t : float) :
  (-1 <=? t)%float = true -> (t <=? 1)%float = true ->
  (Math_abs (fround (t * 0.95)) <? 0.95)%float = true.
Proof.
  intros H1 H2. apply fround_below_095, times_095; assumption.
Qed.

(** ** Products and quotients that are numbers *)

Lemma mul_not_nan (a b : spec_float) :
  a <> S754_nan ->
  match b with S754_finite _ _ _ => True | _ => False end ->
  SF64mul a b <> S754_nan.
Proof.
  intros Ha Hb. destruct b as [| | |sb mb eb]; try contradiction.
  destruct a as [sa|sa| |sa ma ea]; try discriminate; [congruence|].
  unfold SF64mul. cbn [SFmul].
  apply (round_aux_not_nan prec emax eq_refl). lia.
Qed.

Lemma mul_finite_not_nan (a b : spec_float) :
  finite_sf a -> finite_sf b -> SF64mul a b <> S754_nan.
Proof.
  intros Ha Hb.
  destruct a as [sa|sa| |sa ma ea]; try contradiction;
    destruct b as [sb|sb| |sb mb eb]; try contradiction; try discriminate.
  unfold SF64mul. cbn [SFmul].
  apply (round_aux_not_nan prec emax eq_refl). lia.
Qed.

(** The quotient of two positive numbers, the smaller by the larger, is
    zero or finite. *)
Lemma div_below_finite (mc : positive) (ec : Z) (mp : positive) (ep : Z) :
  bounded prec emax mc ec = true -> bounded prec emax mp ep = true ->
  SFltb (S754_finite false mc ec) (S754_finite false mp ep) = true ->
  finite_sf (SF64div (S754_finite false mc ec) (S754_finite false mp ep)).
Proof.
  intros Bc Bp Hlt.
  apply bounded_facts in Bc, Bp.
  destruct Bc as (Dc & Mc & Ec & Nc). destruct Bp as (Dp & Mp & Ep & Np).
  apply SFltb_pos in Hlt.
  set (d1 := Zpos (digits2_pos mc)) in *.
  set (d2 := Zpos (digits2_pos mp)) in *.
  destruct (digits2_pos_bounds mc) as [Lc Uc]. fold d1 in Lc, Uc.
  destruct (digits2_pos_bounds mp) as [Lp Up]. fold d2 in Lp, Up.
  assert (X : d1 + ec - (d2 + ep) <= 0).
  { destruct Hlt as [H | [H1 H2]]; [lia|].
    assert (d1 <= d2) by (apply digits_le_of_lt; lia). lia. }
  unfold SF64div. cbn [SFdiv]. unfold SFdiv_core_binary. cbn [Zdigits2].
  fold d1 d2.
  set (e' := Z.min (SpecFloat.fexp prec emax (d1 + ec - (d2 + ep))) (ec - ep)).
  set (sh := ec - ep - e').
  set (m' := match sh with
             | Zpos _ => Z.shiftl (Zpos mc) sh
             | Z0 => Zpos mc
             | Zneg _ => 0
             end).
  assert (Hsh : 0 <= sh) by (unfold sh, e'; lia).
  assert (Em : m' = Zpos mc * 2 ^ sh).
  { unfold m'. destruct sh as [|p|p] eqn:S; [simpl; lia | | lia].
    apply Z.shiftl_mul_pow2. lia. }
  assert (He' : e' <= -53).
  { unfold e'. rewrite (fexp_max prec emax).
    change prec with 53. change (SpecFloat.emin 53 emax) with (-1074). lia. }
  pose proof (Z.div_eucl_eq m' (Zpos mp) ltac:(lia)) as Eeq.
  pose proof (Z.mod_pos_bound m' (Zpos mp) ltac:(lia)) as Brem.
  unfold Z.modulo in Brem.
  destruct (Z.div_eucl m' (Zpos mp)) as [q r].
  assert (Hps : 0 < 2 ^ sh) by (apply Z.pow_pos_nonneg; lia).
  assert (Hq : 0 <= q) by nia.
  assert (Hdq : Zdigits2 q + e' <= 1).
  { destruct q as [|pq|pq]; [simpl; lia | | lia].
    cbn [Zdigits2].
    assert (G : Zpos (digits2_pos pq) <= d1 + sh - d2 + 1).
    { apply digits_le_of_lt.
      destruct (Z.le_gt_cases 0 (d1 + sh - d2 + 1)) as [K | K].
      - (* q * 2^(d2-1) <= q * mp <= m' < 2^(d1+sh) *)
        assert (T1 : Zpos pq * 2 ^ (d2 - 1) <= Zpos pq * Zpos mp)
          by (apply Z.mul_le_mono_nonneg_l; lia).
        assert (T2 : Zpos mc * 2 ^ sh < 2 ^ d1 * 2 ^ sh)
          by (apply Z.mul_lt_mono_pos_r; lia).
        assert (T3 : 2 ^ d1 * 2 ^ sh
                     = 2 ^ (d1 + sh - d2 + 1) * 2 ^ (d2 - 1)).
        { rewrite <- !Z.pow_add_r by (unfold d1, d2 in *; lia).
          f_equal. lia. }
        assert (0 < 2 ^ (d2 - 1)) by (apply Z.pow_pos_nonneg; unfold d2; lia).
        apply Z.mul_lt_mono_pos_r with (2 ^ (d2 - 1)); [assumption|]. nia.
      - (* then the quotient is 0 *)
        exfalso.
        assert (T2 : Zpos mc * 2 ^ sh < 2 ^ d1 * 2 ^ sh)
          by (apply Z.mul_lt_mono_pos_r; lia).
        assert (T3 : 2 ^ d1 * 2 ^ sh <= 2 ^ (d2 - 1)).
        { rewrite <- Z.pow_add_r by (unfold d1; lia).
          apply Z.pow_le_mono_r; lia. }
        nia. }
    unfold sh in G. lia. }
  destruct (round_aux_finite prec emax eq_refl (xorb false false) q e'
              (new_location (Zpos mp) r) Hq) as [Z | (M & E & R)].
  - rewrite (fexp_max prec emax).
    change prec with 53. change emax with 1024.
    change (SpecFloat.emin 53 1024) with (-1074). lia.
  - rewrite Z. exact I.
  - rewrite R. exact I.
Qed.

Lemma Prim2SF_zero : Prim2SF 0%float = S754_zero false.
Proof. vm_compute. reflexivity. Qed.

(** The sample after the reduction, [x * (c / p)] with [0 <= c < p], is
    a number. *)
Lemma reduced_not_nan (x c p : float) :
  finite_sf (Prim2SF x) -> finite_sf (Prim2SF p) ->
  (0 <=? c)%float = true -> (c <? p)%float = true ->
  is_nan (x * (c / p))%float = false.
Proof.
  intros Hx Hp H0 Hlt.
  rewrite leb_spec, Prim2SF_zero in H0. rewrite ltb_spec in Hlt.
  apply is_nan_Prim2SF. rewrite mul_spec, div_spec.
  apply mul_finite_not_nan; [exact Hx|].
  destruct (Prim2SF p) as [sp|sp| |sp mp ep] eqn:Ep; try contradiction;
    destruct (Prim2SF c) as [sc|sc| |sc mc ec] eqn:Ec;
    try discriminate H0; try discriminate Hlt; try exact I;
    try (destruct sc; try discriminate H0; discriminate Hlt).
  destruct sc; [discriminate H0|]. destruct sp; [discriminate Hlt|].
  apply div_below_finite; [| |exact Hlt].
  - apply (finite_bounded c false mc ec Ec).
  - apply (finite_bounded p false mp ep Ep).
Qed.

Lemma Prim2SF_1_5 : Prim2SF 1.5%float = S754_finite false 6755399441055744 (-52).
Proof. vm_compute. reflexivity. Qed.

Lemma times_1_5_not_nan (s : float) :
  is_nan s = false -> is_nan (s * 1.5)%float = false.
Proof.
  intros H. apply is_nan_Prim2SF. rewrite mul_spec, Prim2SF_1_5.
  apply mul_not_nan; [apply Prim2SF_not_nan, H | exact I].
Qed.

Lemma abs_finite_sf (x : float) :
  finite_sf (Prim2SF x) -> finite_sf (Prim2SF (Math_abs x)).
Proof.
  unfold Math_abs. rewrite abs_spec. destruct (Prim2SF x); auto.
Qed.

Lemma nan_not_below (c p : float) : is_nan c = true -> (c <? p)%float = false.
Proof.
  intros H. rewrite ltb_spec, (Prim2SF_nan c H). reflexivity.
Qed.

Lemma Math_max_either (a b : float) :
  is_nan a = false -> is_nan b = false ->
  Math_max a b = a \/ Math_max a b = b.
Proof.
  intros Ha Hb. unfold Math_max. rewrite Ha, Hb. cbn [orb].
  destruct (a <? b)%float; [now right|].
  destruct (b <? a)%float; [now left|].
  destruct (get_sign a); [now right | now left].
Qed.

End Binary64.

(* ------------------------------------------------------------------ *)
(** * Whole numbers in binary64 *)
(* ------------------------------------------------------------------ *)

Module WholeNumbers.
Import JS Renderer FloatSpec Rounding Binary64.
Local Open Scope Z_scope.

(** A mantissa [S] at an exponent [ez <= 0] whose value is the whole
    number [N] rounds to [N]. *)
Lemma binary_round_whole (S : positive) (ez N : Z) :
  ez <= 0 -> Zpos S = N * 2 ^ (- ez) -> N < 2 ^ 53 ->
  repr N (binary_round prec emax false S ez).
Proof.
  intros Hez HS HN.
  assert (Hpz : 0 < 2 ^ (- ez)) by (apply Z.pow_pos_nonneg; lia).
  assert (N0 : 0 < N) by nia.
  destruct N as [|n|n]; try lia. unfold repr. cbn [Zdigits2].
  set (dN := Zpos (digits2_pos n)).
  destruct (digits2_pos_bounds n) as [Ln Un]. fold dN in Ln, Un.
  assert (DN : dN <= 53) by (apply digits_le_of_lt; exact HN).
  assert (DS : Zpos (digits2_pos S) = dN - ez).
  { apply digits_unique. rewrite HS.
    replace (dN - ez - 1) with ((dN - 1) + (- ez)) by lia.
    replace (dN - ez) with (dN + (- ez)) by lia.
    rewrite !Z.pow_add_r by (unfold dN; lia).
    split; [apply Z.mul_le_mono_nonneg_r; lia
           | apply Z.mul_lt_mono_pos_r; lia]. }
  assert (F : SpecFloat.fexp prec emax (Zpos (digits2_pos S) + ez) = dN - 53).
  { rewrite DS, (fexp_max prec emax).
    change prec with 53. change emax with 1024.
    change (SpecFloat.emin 53 1024) with (-1074). unfold dN. lia. }
  destruct (Z.le_gt_cases (dN - 53) ez) as [Hl | Hr].
  - (* aligned by a shift to the left *)
    destruct (binary_round_exact prec emax eq_refl false S ez) as (M & R & V).
    + cbv zeta. rewrite F. exact Hl.
    + cbv zeta. rewrite F. change prec with 53. change emax with 1024. lia.
    + cbv zeta in R, V. rewrite F in R, V.
      exists M. split; [exact R|].
      rewrite V, HS, <- Z.mul_assoc, <- Z.pow_add_r by lia.
      f_equal. f_equal. lia.
  - (* aligned by a shift to the right, which drops zeros only *)
    unfold binary_round, shl_align. rewrite F.
    destruct (dN - 53 - ez) as [|k|k] eqn:K; try lia.
    destruct (round_aux_spec prec emax eq_refl false (Zpos S) ez loc_Exact
                ltac:(lia)) as (m2 & M & E & B & X & C & R).
    cbv zeta in B, X, C, R. cbn [Zdigits2] in B, X, C.
    rewrite F in B, X, C.
    replace (Z.max ez (dN - 53)) with (dN - 53) in B, X, C by lia.
    rewrite K in B, X.
    assert (Hk : Zpos k <= - ez) by lia.
    assert (ES : Zpos S = (Zpos n * 2 ^ (- ez - Zpos k)) * 2 ^ Zpos k).
    { rewrite HS, <- Z.mul_assoc, <- Z.pow_add_r by lia.
      f_equal. f_equal. lia. }
    assert (Hpk : 0 < 2 ^ Zpos k) by (apply Z.pow_pos_nonneg; lia).
    assert (Hmod : Zpos S mod 2 ^ Zpos k = 0)
      by (rewrite ES; apply Z.mod_mul; lia).
    assert (Hdiv : Zpos S / 2 ^ Zpos k = Zpos n * 2 ^ (- ez - Zpos k))
      by (rewrite ES; apply Z.div_mul; lia).
    rewrite Hmod in X. specialize (X eq_refl ltac:(lia)).
    rewrite Hdiv in X. subst m2.
    assert (Ee : - ez - Zpos k = 53 - dN) by lia.
    rewrite Ee in C.
    assert (Hlt : Zpos n * 2 ^ (53 - dN) < 2 ^ prec).
    { change prec with 53.
      replace 53 with (dN + (53 - dN)) at 2 by lia.
      rewrite Z.pow_add_r by (unfold dN; lia).
      apply Z.mul_lt_mono_pos_r; [apply Z.pow_pos_nonneg; lia | exact Un]. }
    destruct C as [(_ & -> & ->) | (Q & _ & _)]; [|lia].
    rewrite R.
    assert (Hpos : 0 < Zpos n * 2 ^ (53 - dN))
      by (apply Z.mul_pos_pos; [lia | apply Z.pow_pos_nonneg; lia]).
    destruct (Zpos n * 2 ^ (53 - dN)) as [|M|M] eqn:EM; try lia.
    change prec with 53. change emax with 1024.
    assert (G : (dN - 53 <=? 1024 - 53) = true) by (apply Z.leb_le; lia).
    rewrite G. exists M. split; [reflexivity | reflexivity].
Qed.

Lemma repr_valid (N : Z) (x : spec_float) :
  0 < N < 2 ^ 53 -> repr N x -> valid_binary x = true.
Proof.
  intros [N0 HN] (M & -> & V). cbn [valid_binary].
  destruct N as [|n|n]; try lia. cbn [Zdigits2] in *.
  set (dN := Zpos (digits2_pos n)) in *.
  destruct (digits2_pos_bounds n) as [Ln Un]. fold dN in Ln, Un.
  assert (DN : dN <= 53) by (apply digits_le_of_lt; exact HN).
  assert (DM : Zpos (digits2_pos M) = 53).
  { apply digits_unique. rewrite V.
    assert (E53 : 2 ^ 53 = 2 ^ dN * 2 ^ (53 - dN)).
    { rewrite <- Z.pow_add_r by (unfold dN; lia). f_equal. lia. }
    assert (E52 : 2 ^ (53 - 1) = 2 ^ (dN - 1) * 2 ^ (53 - dN)).
    { rewrite <- Z.pow_add_r by (unfold dN; lia). f_equal. lia. }
    assert (0 < 2 ^ (53 - dN)) by (apply Z.pow_pos_nonneg; lia).
    rewrite E53, E52.
    split; [apply Z.mul_le_mono_nonneg_r; lia
           | apply Z.mul_lt_mono_pos_r; lia]. }
  unfold bounded, canonical_mantissa.
  rewrite DM, (fexp_max prec emax).
  change prec with 53. change emax with 1024.
  change (SpecFloat.emin 53 1024) with (-1074).
  apply andb_true_iff. split; [apply Z.eqb_eq | apply Z.leb_le]; unfold dN; lia.
Qed.

(** Truncation gives the whole number back. *)
Lemma truncZ_repr (N : Z) (x : float) :
  0 < N < 2 ^ 53 -> repr N (Prim2SF x) -> truncZ x = N.
Proof.
  intros [N0 HN] (M & E & V). unfold truncZ. rewrite E.
  destruct N as [|n|n]; try lia. cbn [Zdigits2] in *.
  set (dN := Zpos (digits2_pos n)) in *.
  assert (DN : dN <= 53) by (apply digits_le_of_lt; exact HN).
  rewrite Z.shiftl_div_pow2 by lia.
  replace (- (dN - 53)) with (53 - dN) by lia.
  rewrite V. apply Z.div_mul.
  assert (0 < 2 ^ (53 - dN)) by (apply Z.pow_pos_nonneg; lia). lia.
Qed.

Lemma Prim2SF_Z2f (N : Z) : 0 < N < 2 ^ 53 -> repr N (Prim2SF (Z2f N)).
Proof.
  intros [N0 HN]. unfold Z2f.
  assert (R : repr N (binary_normalize prec emax N 0 false)).
  { destruct N as [|n|n]; try lia. cbn [binary_normalize].
    apply binary_round_whole; [lia | simpl; lia | exact HN]. }
  rewrite Prim2SF_SF2Prim; [exact R|].
  apply (repr_valid N); [lia | exact R].
Qed.

(** A frame or byte count survives the conversion to a number and
    back. *)
Lemma truncZ_N2f (n : nat) : Z.of_nat n < 2 ^ 53 -> truncZ (N2f n) = Z.of_nat n.
Proof.
  intros H. unfold N2f.
  destruct (Z.eq_dec (Z.of_nat n) 0) as [E | E].
  - rewrite E. reflexivity.
  - apply truncZ_repr; [lia|]. apply Prim2SF_Z2f. lia.
Qed.

(** The sum of two whole numbers, computed in binary64. *)
Lemma add_whole (a b : float) (A B : Z) :
  0 < A -> 0 < B -> A + B < 2 ^ 53 ->
  repr A (Prim2SF a) -> repr B (Prim2SF b) ->
  repr (A + B) (Prim2SF (a + b)%float).
Proof.
  intros A0 B0 HS (Ma & Ea & Va) (Mb & Eb & Vb).
  rewrite add_spec, Ea, Eb. unfold SF64add. cbn [SFadd].
  destruct A as [|pa|pa]; try lia. destruct B as [|pb|pb]; try lia.
  cbn [Zdigits2] in *.
  set (da := Zpos (digits2_pos pa)) in *.
  set (db := Zpos (digits2_pos pb)) in *.
  assert (Da : da <= 53) by (apply digits_le_of_lt; lia).
  assert (Db : db <= 53) by (apply digits_le_of_lt; lia).
  set (ez := Z.min (da - 53) (db - 53)).
  assert (Hal : forall (m : positive) (e : Z) (V : Z),
            ez <= e -> e <= 0 -> Zpos m = V * 2 ^ (- e) ->
            Zpos (fst (shl_align m e ez)) = V * 2 ^ (- ez)).
  { intros m e V H1 H2 HV. unfold shl_align.
    destruct (ez - e) as [|k|k] eqn:K; cbn [fst]; try lia.
    - replace ez with e by lia. exact HV.
    - rewrite iter_xO_value, HV, <- Z.mul_assoc, <- Z.pow_add_r by lia.
      f_equal. f_equal. lia. }
  cbn [cond_Zopp].
  rewrite <- Pos2Z.inj_add. cbn [binary_normalize].
  apply binary_round_whole; [unfold ez; lia | | exact HS].
  rewrite Pos2Z.inj_add.
  assert (Ha : Zpos (fst (shl_align Ma (da - 53) ez)) = Zpos pa * 2 ^ (- ez)).
  { apply Hal; [unfold ez; lia | lia |]. rewrite Va. f_equal. f_equal. lia. }
  assert (Hb : Zpos (fst (shl_align Mb (db - 53) ez)) = Zpos pb * 2 ^ (- ez)).
  { apply Hal; [unfold ez; lia | lia |]. rewrite Vb. f_equal. f_equal. lia. }
  rewrite Ha, Hb. lia.
Qed.

Lemma repr_36 : repr 36 (Prim2SF 36%float).
Proof. exists 5066549580791808%positive. split; vm_compute; reflexivity. Qed.

(** The chunk size of the RIFF header. *)
Lemma truncZ_riff_size (n : nat) :
  36 + Z.of_nat n < 2 ^ 53 ->
  truncZ (36 + N2f n)%float = 36 + Z.of_nat n.
Proof.
  intros H. unfold N2f.
  destruct (Z.eq_dec (Z.of_nat n) 0) as [E | E].
  - rewrite E. reflexivity.
  - apply truncZ_repr; [lia|].
    apply add_whole; [lia | lia | lia | exact repr_36 |].
    apply Prim2SF_Z2f. lia.
Qed.

End WholeNumbers.

(* ------------------------------------------------------------------ *)
(** * Properties of the analyzer *)
(* ------------------------------------------------------------------ *)

Module AnalyzerFacts.
Import JS Analysis Spec Inputs.
Local Open Scope string_scope.
Local Open Scope float_scope.
Local Open Scope list_scope.

Lemma analyzeTrack_try_invalid {M : MathLib} (buffer : AudioBuffer) :
  invalid_buffer buffer = true -> analyzeTrack_try buffer = None.
Proof.
  unfold invalid_buffer, analyzeTrack_try. intros H.
  destruct ((buffer_length buffer =? 0)%nat || (sampleRate buffer <=? 0));
    [reflexivity|].
  simpl in H. destruct (getChannelData buffer 0) as [d|]; [|reflexivity].
  rewrite H. reflexivity.
Qed.

Lemma detectBeats_short {M : MathLib} (data : list float) (rate : float) :
  (List.length data < 2048)%nat -> detectBeats data rate = default_beats.
Proof.
  intros H. unfold detectBeats.
  apply Nat.ltb_lt in H. rewrite H. reflexivity.
Qed.

Lemma chromagram_short {M : MathLib} (data : list float) (rate : float) :
  (List.length data <= 4096)%nat -> chromagram_of data rate = repeat 0 12.
Proof.
  intros H. unfold chromagram_of.
  replace (List.length data - 4096)%nat with 0%nat by lia.
  reflexivity.
Qed.

Lemma detectKey_short {M : MathLib} (buffer : AudioBuffer) (data : list float) :
  getChannelData buffer 0 = Some data ->
  (List.length data <= 4096)%nat ->
  detectKey buffer = default_key.
Proof.
  intros Hd Hlen. unfold detectKey. rewrite Hd.
  destruct (buffer_length buffer =? 0)%nat; [reflexivity|].
  destruct ((List.length data =? 0)%nat || (sampleRate buffer <=? 0));
    [reflexivity|].
  rewrite chromagram_short by assumption. reflexivity.
Qed.

(** ** The key index and the Camelot code *)

Lemma Math_max_cases (a b : float) :
  Math_max a b = nan \/ Math_max a b = a \/ Math_max a b = b.
Proof.
  unfold Math_max.
  destruct (is_nan a || is_nan b); [now left|].
  destruct (a <? b); [now right; right|].
  destruct (b <? a); [now right; left|].
  destruct (get_sign a); [now right; right | now right; left].
Qed.

Lemma Math_max_list_cases (l : list float) (init : float) :
  let r := fold_left Math_max l init in
  r = nan \/ r = init \/ In r l.
Proof.
  revert init. induction l as [|x l IH]; intros init; simpl.
  - now right; left.
  - destruct (IH (Math_max init x)) as [H | [H | H]].
    + now left.
    + rewrite H. destruct (Math_max_cases init x) as [E | [E | E]];
        rewrite E; auto.
    + right; right; right; exact H.
Qed.

Lemma finite_max_in_list (l : list float) :
  isFinite (Math_max_list l) = true -> In (Math_max_list l) l.
Proof.
  unfold Math_max_list. intros Hfin.
  destruct (Math_max_list_cases l neg_infinity) as [H | [H | H]].
  - rewrite H in Hfin. discriminate Hfin.
  - rewrite H in Hfin. discriminate Hfin.
  - exact H.
Qed.

Lemma finite_eqb_refl (v : float) : isFinite v = true -> (v =? v) = true.
Proof.
  unfold isFinite, is_finite, is_nan.
  destruct (v =? v); [reflexivity | discriminate].
Qed.

Lemma indexOf_from_found (l : list float) (v : float) (i : Z) :
  In v l -> (v =? v) = true ->
  (i <= indexOf_from l v i < i + Z.of_nat (List.length l))%Z.
Proof.
  revert i. induction l as [|x l IH]; intros i Hin Hv; [destruct Hin|].
  simpl indexOf_from. cbn [List.length]. destruct (x =? v) eqn:E; [lia|].
  destruct Hin as [-> | Hin]; [congruence|].
  specialize (IH (i + 1)%Z Hin Hv). lia.
Qed.

Lemma add_at_length (l : list float) (i : nat) (v : float) :
  List.length (add_at l i v) = List.length l.
Proof.
  revert i. induction l as [|x l IH]; intros [|i]; simpl; auto.
Qed.

Section KeyRange.
Context {M : MathLib}.

Lemma chroma_frame_length (rate : float) (chroma spectrum : list float) :
  List.length (chroma_frame rate chroma spectrum) = List.length chroma.
Proof.
  unfold chroma_frame.
  generalize (seq 0 (Nat.div2 (S (List.length spectrum)))) as js.
  intros js. revert chroma.
  induction js as [|j js IH]; intros chroma; [reflexivity|].
  simpl fold_left. rewrite IH.
  destruct ((_ <? 80) || _ || _); [reflexivity|].
  destruct (normalizedPC _); [|reflexivity].
  destruct (_ && _ && _); [apply add_at_length | reflexivity].
Qed.

Lemma chromagram_of_length (data : list float) (rate : float) :
  List.length (chromagram_of data rate) = 12%nat.
Proof.
  unfold chromagram_of.
  generalize (range_step 0 (List.length data - 4096) 4096) as frames.
  assert (H : List.length (repeat 0 12) = 12%nat) by reflexivity.
  revert H. generalize (repeat 0 12) as chroma.
  intros chroma H frames. revert chroma H.
  induction frames as [|i frames IH]; intros chroma H; [exact H|].
  simpl fold_left. apply IH. rewrite chroma_frame_length. exact H.
Qed.

(** [detectKey] returns the index of a bin of the 12-bin chromagram. *)
Lemma detectKey_range (buffer : AudioBuffer) :
  (0 <= key (detectKey buffer) <= 11)%Z.
Proof.
  unfold detectKey.
  destruct (buffer_length buffer =? 0)%nat; [simpl; lia|].
  destruct (getChannelData buffer 0) as [data|]; [|simpl; lia].
  destruct ((List.length data =? 0)%nat || _); [simpl; lia|].
  set (chroma := chromagram_of data (sampleRate buffer)).
  destruct (isFinite (Math_max_list chroma)) eqn:Hfin; [|simpl; lia].
  destruct (Math_max_list chroma =? 0); [simpl; lia|].
  cbn [negb orb key].
  pose proof (indexOf_from_found chroma _ 0
                (finite_max_in_list _ Hfin) (finite_eqb_refl _ Hfin)) as H.
  replace (List.length chroma) with 12%nat in H
    by (symmetry; apply chromagram_of_length).
  unfold indexOf. lia.
Qed.

Lemma camelot_of_key (k : Z) :
  (0 <= k <= 11)%Z ->
  exists code, KEY_TO_CAMELOT k = Some code /\ In code major_codes.
Proof.
  intros H.
  assert (E : (k = 0 \/ k = 1 \/ k = 2 \/ k = 3 \/ k = 4 \/ k = 5 \/ k = 6
              \/ k = 7 \/ k = 8 \/ k = 9 \/ k = 10 \/ k = 11)%Z) by lia.
  repeat (destruct E as [-> | E]); try subst k;
    (eexists; split; [reflexivity | simpl; tauto]).
Qed.

(** What [analyzeTrack] returns is the fallback summary or a summary
    assembled from the stages. *)
Lemma analyzeTrack_cases (buffer : AudioBuffer) :
  analyzeTrack buffer = fallback_summary
  \/ exists channelData,
      getChannelData buffer 0 = Some channelData
      /\ analyzeTrack_try buffer = Some (analyzeTrack buffer)
      /\ bpm (analyzeTrack buffer)
         = bpm_main (calculateBPM (detectBeats channelData (sampleRate buffer))
                                  (sampleRate buffer))
      /\ bpmAlt (analyzeTrack buffer)
         = bpm_alt (calculateBPM (detectBeats channelData (sampleRate buffer))
                                 (sampleRate buffer))
      /\ camelot (analyzeTrack buffer)
         = match KEY_TO_CAMELOT (key (detectKey buffer)) with
           | Some code => code
           | None => "1A"
           end.
Proof.
  unfold analyzeTrack, analyzeTrack_try.
  destruct ((buffer_length buffer =? 0)%nat || _); [now left|].
  destruct (getChannelData buffer 0) as [data|]; [|now left].
  destruct (List.length data =? 0)%nat; [now left|].
  right. exists data. repeat split; reflexivity.
Qed.

Lemma camelot_is_fallback_or_major_aux (buffer : AudioBuffer) :
  camelot (analyzeTrack buffer) = "1A"
  \/ In (camelot (analyzeTrack buffer)) major_codes.
Proof.
  destruct (analyzeTrack_cases buffer) as [H | (data & _ & _ & _ & _ & H)].
  - left. rewrite H. reflexivity.
  - right. rewrite H.
    destruct (camelot_of_key _ (detectKey_range buffer)) as (code & E & Hin).
    rewrite E. exact Hin.
Qed.

(** C10.  The Camelot code [analyzeTrack] returns is the fallback "1A" or
    one of the twelve major codes in entries 0 to 11 of the key table:
    [detectKey] returns an index into the 12-bin chromagram, between 0
    and 11, so entries 12 to 23 are never looked up. *)
Theorem camelot_is_fallback_or_major (buffer : AudioBuffer) :
  (0 <= key (detectKey buffer) <= 11)%Z
  /\ (camelot (analyzeTrack buffer) = "1A"
      \/ In (camelot (analyzeTrack buffer)) major_codes).
Proof.
  split; [apply detectKey_range | apply camelot_is_fallback_or_major_aux].
Qed.

End KeyRange.

(** ** Silence *)

(** Whatever the engine's cosine and sine return, every term the DFT of
    a silent frame accumulates is a zero or NaN, so every magnitude bin is
    stored as 0: there is no spectral flux and no chroma. *)
Lemma eqb_zero (x : float) : (x =? 0) = true -> is_zero_sample x.
Proof.
  rewrite eqb_spec. change (Prim2SF 0) with (S754_zero false).
  intros H. rewrite <- (SF2Prim_Prim2SF x).
  destruct (Prim2SF x) as [[|]| [|] | |[|] m e]; try discriminate H.
  - right. reflexivity.
  - left. reflexivity.
Qed.

Lemma zero_times (x c : float) :
  is_zero_sample x -> is_zero_sample (x * c) \/ x * c = nan.
Proof.
  intros Hx. rewrite <- (SF2Prim_Prim2SF (x * c)), mul_spec.
  destruct Hx as [-> | ->].
  - change (Prim2SF 0) with (S754_zero false).
    destruct (Prim2SF c) as [[|]| [|] | |[|] m e]; unfold SF64mul; simpl;
      try (now right);
      try (left; left; reflexivity); try (left; right; reflexivity).
  - change (Prim2SF (-0)) with (S754_zero true).
    destruct (Prim2SF c) as [[|]| [|] | |[|] m e]; unfold SF64mul; simpl;
      try (now right);
      try (left; left; reflexivity); try (left; right; reflexivity).
Qed.

Lemma accumulate_real (real x c : float) :
  zero_or_nan real -> is_zero_sample x -> zero_or_nan (real + x * c).
Proof.
  intros Hr Hx.
  destruct (zero_times x c Hx) as [[E | E] | E]; rewrite E;
    destruct Hr as [-> | ->]; vm_compute; auto.
Qed.

Lemma accumulate_imag (imag x c : float) :
  zero_or_nan imag -> is_zero_sample x -> zero_or_nan (imag - x * c).
Proof.
  intros Hr Hx.
  destruct (zero_times x c Hx) as [[E | E] | E]; rewrite E;
    destruct Hr as [-> | ->]; vm_compute; auto.
Qed.

Section Silent.
Context {M : MathLib}.

Lemma dft_bin_silent (data : list float) (n k : nat) :
  Forall is_zero_sample data ->
  zero_or_nan (fst (dft_bin data n k)) /\ zero_or_nan (snd (dft_bin data n k)).
Proof.
  intros Hd. unfold dft_bin.
  assert (H0 : zero_or_nan (fst (0, 0)) /\ zero_or_nan (snd (0, 0)))
    by (split; left; reflexivity).
  revert H0. generalize (0, 0) as acc. generalize (seq 0 n) as idx.
  induction Hd as [|x data Hx Hd IH]; intros idx acc H0.
  - destruct idx; exact H0.
  - destruct idx as [|i idx]; [exact H0|].
    simpl combine. simpl fold_left. apply IH.
    destruct acc as [real imag]. destruct H0 as [Hr Hi]. simpl in Hr, Hi.
    destruct (isFinite x); [|split; assumption].
    split; simpl; [apply accumulate_real | apply accumulate_imag]; assumption.
Qed.

Lemma bin_magnitude_silent (real imag : float) :
  zero_or_nan real -> zero_or_nan imag ->
  fround (if isFinite (Math_sqrt (real * real + imag * imag))
          then Math_sqrt (real * real + imag * imag) else 0) = 0.
Proof.
  intros [-> | ->] [-> | ->]; vm_compute; reflexivity.
Qed.

Lemma fft_silent (data : list float) :
  Forall is_zero_sample data -> Forall (eq 0) (fft data).
Proof.
  intros Hd. unfold fft.
  destruct (List.length data =? 0)%nat.
  - apply Forall_forall. intros x Hx. apply repeat_spec in Hx. congruence.
  - apply Forall_forall. intros y Hy.
    apply in_map_iff in Hy. destruct Hy as (k & <- & _).
    destruct (2 * k <? List.length data)%nat; [|reflexivity].
    pose proof (dft_bin_silent data (List.length data) k Hd) as [Hr Hi].
    destruct (dft_bin data (List.length data) k) as [real imag].
    symmetry. apply bin_magnitude_silent; assumption.
Qed.

Lemma Forall_prefix {A} (P : A -> Prop) (l : list A) (n : nat) :
  Forall P l -> Forall P (firstn n l).
Proof.
  intros H. revert n. induction H as [|x l Hx H IH]; intros [|n]; simpl;
    constructor; auto.
Qed.

Lemma Forall_suffix {A} (P : A -> Prop) (l : list A) (n : nat) :
  Forall P l -> Forall P (skipn n l).
Proof.
  intros H. revert n. induction H as [|x l Hx H IH]; intros [|n]; simpl;
    try constructor; auto.
Qed.

Lemma slice_silent (data : list float) (i j : nat) :
  Forall is_zero_sample data -> Forall is_zero_sample (slice data i j).
Proof.
  intros H. unfold slice. apply Forall_prefix, Forall_suffix, H.
Qed.

Lemma flux_between_silent (spectrum prev : list float) :
  Forall (eq 0) spectrum -> Forall (eq 0) prev ->
  flux_between spectrum prev = 0.
Proof.
  intros Hs. unfold flux_between. revert prev.
  induction Hs as [|s spectrum <- Hs IH]; intros prev Hp; [reflexivity|].
  destruct Hp as [|p prev <- Hp]; [reflexivity|].
  simpl combine. simpl fold_left. apply IH, Hp.
Qed.

Lemma spectral_flux_silent (data : list float) :
  Forall is_zero_sample data -> spectral_flux data = [].
Proof.
  intros Hd. unfold spectral_flux.
  set (step := fun (st : option (list float) * list float) (i : nat) => _).
  assert (Inv : forall frames st,
             snd st = [] ->
             (forall prev, fst st = Some prev -> Forall (eq 0) prev) ->
             snd (fold_left step frames st) = []).
  { induction frames as [|i frames IH]; intros [prev flux] Hf Hp;
      [exact Hf|].
    simpl in Hf. subst flux. simpl fold_left. apply IH.
    - unfold step. destruct prev as [prev|]; [|reflexivity].
      rewrite flux_between_silent;
        [reflexivity | apply fft_silent, slice_silent, Hd | apply Hp; reflexivity].
    - intros p Hsome. unfold step in Hsome.
      destruct prev as [prev|]; simpl in Hsome; inversion Hsome; subst;
        apply fft_silent, slice_silent, Hd. }
  apply Inv; [reflexivity | discriminate].
Qed.

Lemma detectBeats_silent (data : list float) (rate : float) :
  Forall is_zero_sample data -> detectBeats data rate = default_beats.
Proof.
  intros Hd. unfold detectBeats.
  destruct ((List.length data <? 2048)%nat || (rate <=? 0)); [reflexivity|].
  rewrite (spectral_flux_silent data Hd). reflexivity.
Qed.

Lemma get_all_zero (l : list float) (j : nat) :
  Forall (eq 0) l -> get l j = 0 \/ get l j = nan.
Proof.
  intros H. unfold get. destruct (nth_in_or_default j l nan) as [Hin | ->];
    [left | now right].
  symmetry. exact (proj1 (Forall_forall _ _) H _ Hin).
Qed.

Lemma add_at_zero (l : list float) (i : nat) :
  Forall (eq 0) l -> Forall (eq 0) (add_at l i 0).
Proof.
  intros H. revert i. induction H as [|x l <- H IH]; intros [|i]; simpl;
    constructor; auto.
Qed.

Lemma chroma_frame_silent (rate : float) (chroma spectrum : list float) :
  Forall (eq 0) chroma -> Forall (eq 0) spectrum ->
  Forall (eq 0) (chroma_frame rate chroma spectrum).
Proof.
  intros Hc Hs. unfold chroma_frame.
  generalize (seq 0 (Nat.div2 (S (List.length spectrum)))) as js.
  intros js. revert chroma Hc.
  induction js as [|j js IH]; intros chroma Hc; [exact Hc|].
  simpl fold_left. apply IH.
  destruct ((_ <? 80) || _ || _); [exact Hc|].
  destruct (normalizedPC _); [|exact Hc].
  destruct (get_all_zero spectrum j Hs) as [E | E]; rewrite E.
  - destruct (_ && _ && _); [apply add_at_zero, Hc | exact Hc].
  - rewrite andb_false_r. exact Hc.
Qed.

Lemma all_zero_repeat (l : list float) :
  Forall (eq 0) l -> l = repeat 0 (List.length l).
Proof.
  induction 1 as [|x l <- H IH]; simpl; [reflexivity | f_equal; exact IH].
Qed.

Lemma chromagram_silent (data : list float) (rate : float) :
  Forall is_zero_sample data -> chromagram_of data rate = repeat 0 12.
Proof.
  intros Hd.
  rewrite <- (chromagram_of_length data rate).
  apply all_zero_repeat. unfold chromagram_of.
  generalize (range_step 0 (List.length data - 4096) 4096) as frames.
  assert (H : Forall (eq 0) (repeat 0 12))
    by (apply Forall_forall; intros x Hx; apply repeat_spec in Hx; congruence).
  revert H. generalize (repeat 0 12) as chroma.
  intros chroma H frames. revert chroma H.
  induction frames as [|i frames IH]; intros chroma H; [exact H|].
  simpl fold_left. apply IH.
  apply chroma_frame_silent; [exact H | apply fft_silent, slice_silent, Hd].
Qed.

Lemma detectKey_silent (buffer : AudioBuffer) (data : list float) :
  getChannelData buffer 0 = Some data ->
  Forall is_zero_sample data ->
  detectKey buffer = default_key.
Proof.
  intros Hd Hs. unfold detectKey. rewrite Hd.
  destruct (buffer_length buffer =? 0)%nat; [reflexivity|].
  destruct ((List.length data =? 0)%nat || (sampleRate buffer <=? 0));
    [reflexivity|].
  rewrite chromagram_silent by assumption. reflexivity.
Qed.

Lemma silent_zero_samples (data : list float) :
  silent data -> Forall is_zero_sample data.
Proof.
  unfold silent. intros H. apply Forall_forall. intros x Hx.
  apply eqb_zero. exact (proj1 (forallb_forall _ _) H x Hx).
Qed.

End Silent.

(** C1 (as amended).  [analyzeTrack] is a total function: its [try] block
    throws on an empty buffer or a sample rate that is not positive, and
    on nothing else, and the throw is caught.  On those inputs it returns
    the fallback summary (bpm 120, Camelot "1A", beat grid
    [0, 0.5, 1.0, 1.5]).  On a buffer with data that is silent, or shorter
    than one 2048-sample frame, it returns bpm 120 and the same grid, and
    the Camelot code of key 0, "8B". *)
Theorem analyzeTrack_degenerate (M : MathLib) (buffer : AudioBuffer) :
  (invalid_buffer buffer = true ->
     analyzeTrack_try buffer = None
     /\ analyzeTrack buffer = fallback_summary
     /\ bpm (analyzeTrack buffer) = 120
     /\ camelot (analyzeTrack buffer) = "1A"
     /\ beatTimes (analyzeTrack buffer) = [0; 0.5; 1.0; 1.5])
  /\ (invalid_buffer buffer = false ->
      analyzeTrack_try buffer = Some (analyzeTrack buffer)
      /\ forall channelData,
          getChannelData buffer 0 = Some channelData ->
          (List.length channelData < 2048)%nat \/ silent channelData ->
          bpm (analyzeTrack buffer) = 120
          /\ camelot (analyzeTrack buffer) = "8B"
          /\ beatTimes (analyzeTrack buffer) = [0; 0.5; 1.0; 1.5]).
Proof.
  split.
  - intros H. unfold analyzeTrack. rewrite (analyzeTrack_try_invalid _ H).
    repeat split; reflexivity.
  - intros H. split.
    + destruct (analyzeTrack_cases buffer) as [E | (data & _ & E & _)];
        [|exact E].
      unfold invalid_buffer in H. unfold analyzeTrack, analyzeTrack_try.
      destruct (getChannelData buffer 0) as [data|];
        [|rewrite orb_true_r in H; discriminate H].
      apply orb_false_iff in H. destruct H as [H Hz]. rewrite H, Hz.
      reflexivity.
    + intros data Hd Hdeg.
      unfold invalid_buffer in H. rewrite Hd in H.
      apply orb_false_iff in H. destruct H as [H Hz].
      unfold analyzeTrack, analyzeTrack_try. rewrite H, Hd, Hz.
      assert (Hb : detectBeats data (sampleRate buffer) = default_beats).
      { destruct Hdeg as [Hlen | Hs];
          [apply detectBeats_short, Hlen
          | apply detectBeats_silent, silent_zero_samples, Hs]. }
      assert (Hk : detectKey buffer = default_key).
      { destruct Hdeg as [Hlen | Hs];
          [apply (detectKey_short buffer data Hd); lia
          | apply (detectKey_silent buffer data Hd), silent_zero_samples, Hs]. }
      rewrite Hb, Hk. cbn [bpm camelot beatTimes].
      repeat split; vm_compute; reflexivity.
Qed.

Lemma analyzeTrack_degenerate_witness :
  (forall M : MathLib, analyzeTrack empty_buffer = fallback_summary)
  /\ (forall M : MathLib, camelot (analyzeTrack too_short_buffer) = "8B")
  /\ (forall M : MathLib, camelot (analyzeTrack silent_buffer) = "8B")
  /\ (forall M : MathLib, bpm (analyzeTrack silent_buffer) = 120).
Proof.
  split; [|split; [|split]]; intros M.
  - apply (proj1 (analyzeTrack_degenerate M empty_buffer) eq_refl).
  - apply (proj2 (proj2 (analyzeTrack_degenerate M too_short_buffer) eq_refl)
             [0; 0; 0; 0] eq_refl).
    left. simpl. lia.
  - apply (proj2 (proj2 (analyzeTrack_degenerate M silent_buffer) eq_refl)
             (repeat 0 5000) eq_refl).
    right. reflexivity.
  - apply (proj2 (proj2 (analyzeTrack_degenerate M silent_buffer) eq_refl)
             (repeat 0 5000) eq_refl).
    right. reflexivity.
Defined.

(** C1, as stated, fails: on the short silent buffer the Camelot code is
    not "1A", whatever the engine's [Math] functions are. *)
Lemma analyzeTrack_short_not_1A :
  ~ (exists M : MathLib, camelot (analyzeTrack too_short_buffer) = "1A").
Proof. intros [M H]. vm_compute in H. discriminate H. Qed.

(** ** The tempo *)

Lemma In_Zrange (lo hi k : Z) : (lo <= k < hi)%Z -> In k (Zrange lo hi).
Proof.
  intros H. unfold Zrange. apply in_map_iff.
  exists (Z.to_nat (k - lo)). split; [lia|].
  apply in_seq. lia.
Qed.

Lemma histogram_incr_keys (h : list (Z * nat)) (k : Z) :
  (0 < k < 300)%Z -> Forall key_in_range h ->
  Forall key_in_range (histogram_incr h k).
Proof.
  intros Hk. induction h as [|[k' c] h IH]; intros Hh; simpl.
  - constructor; [exact Hk | constructor].
  - inversion Hh as [|? ? Hk' Hrest]; subst.
    destruct (k =? k')%Z; [constructor; assumption|].
    destruct (k <? k')%Z; constructor; auto.
Qed.

Lemma cluster_intervals_keys (intervals : list float) :
  Forall key_in_range (cluster_intervals intervals).
Proof.
  unfold cluster_intervals.
  assert (H : Forall key_in_range []) by constructor.
  revert H. generalize (@nil (Z * nat)) as h.
  induction intervals as [|x l IH]; intros h H; [exact H|].
  simpl fold_left. apply IH.
  destruct (gtb x 0 && isFinite x); [|exact H].
  destruct (roundI (60 / x)) as [| |k]; try exact H.
  destruct ((0 <? k)%Z && (k <? 300)%Z) eqn:E; [|exact H].
  apply andb_true_iff in E. destruct E as [E1 E2].
  apply histogram_incr_keys; [lia | exact H].
Qed.

Lemma insert_by_count_keys (e : Z * nat) (sorted : list (Z * nat)) :
  key_in_range e -> Forall key_in_range sorted ->
  Forall key_in_range (insert_by_count e sorted).
Proof.
  intros He. induction sorted as [|e' rest IH]; intros H; simpl.
  - constructor; [exact He | constructor].
  - inversion H; subst.
    destruct (snd e' <=? snd e)%nat; constructor; auto.
Qed.

Lemma sort_by_count_keys (entries : list (Z * nat)) :
  Forall key_in_range entries -> Forall key_in_range (sort_by_count entries).
Proof.
  unfold sort_by_count. induction 1 as [|e l He Hl IH]; simpl.
  - constructor.
  - apply insert_by_count_keys; assumption.
Qed.

Lemma tempo_check_all : forallb tempo_check (Zrange 1 300) = true.
Proof. vm_compute. reflexivity. Qed.

Lemma tempo_of_key_ok (k : Z) :
  (0 < k < 300)%Z ->
  fst (tempo_of_key k) = Z2f (fst (tempo_spec k))
  /\ snd (tempo_of_key k) = Z2f (snd (tempo_spec k))
  /\ (60 <=? fst (tempo_of_key k)) = true
  /\ (fst (tempo_of_key k) <=? 200) = true.
Proof.
  intros H.
  pose proof (proj1 (forallb_forall _ _) tempo_check_all k
                (In_Zrange 1 300 k ltac:(lia))) as C.
  unfold tempo_check in C.
  repeat (apply andb_true_iff in C; destruct C as [C ?]).
  repeat split; try assumption; apply FloatAxioms.Leibniz.eqb_spec; assumption.
Qed.

Lemma default_tempo_ok : tempo_ok 120 60.
Proof. exists 120%Z. repeat split; try lia; reflexivity. Qed.

Lemma calculateBPM_ok (beats : list float) (rate : float) :
  tempo_ok (bpm_main (calculateBPM beats rate))
           (bpm_alt (calculateBPM beats rate)).
Proof.
  unfold calculateBPM.
  destruct (List.length beats <? 2)%nat; [apply default_tempo_ok|].
  destruct (List.length (beat_intervals beats) =? 0)%nat;
    [apply default_tempo_ok|].
  pose proof (sort_by_count_keys _
                (cluster_intervals_keys (beat_intervals beats))) as H.
  destruct (sort_by_count (cluster_intervals (beat_intervals beats)))
    as [|[k count] rest]; [apply default_tempo_ok|].
  inversion H as [|? ? Hk _]; subst. unfold key_in_range in Hk. simpl in Hk.
  destruct (tempo_of_key_ok k Hk) as (E1 & E2 & L1 & L2).
  unfold tempo_of_key, tempo_spec in E1, E2, L1, L2.
  cbn [fst snd] in E1, E2, L1, L2. cbn [bpm_main bpm_alt].
  exists (Z.max 60 (Z.min 200 k)).
  repeat split; try lia; assumption.
Qed.

(** C8.  For every input the analyzer's bpm is an integer of [60, 200],
    its Camelot code matches [^(1[0-2]|[1-9])[AB]$], and bpmAlt is bpm / 2
    rounded when bpm > 100 and 2 bpm otherwise. *)
Theorem analyzer_tempo_and_key_invariants (M : MathLib) (buffer : AudioBuffer) :
  tempo_ok (bpm (analyzeTrack buffer)) (bpmAlt (analyzeTrack buffer))
  /\ camelot_pattern (camelot (analyzeTrack buffer)) = true.
Proof.
  split.
  - destruct (analyzeTrack_cases buffer)
      as [H | (data & _ & _ & Hb & Ha & _)].
    + rewrite H. apply default_tempo_ok.
    + rewrite Hb, Ha. apply calculateBPM_ok.
  - destruct (camelot_is_fallback_or_major_aux buffer) as [H | H].
    + rewrite H. reflexivity.
    + unfold major_codes in H. simpl in H.
      repeat (destruct H as [H | H]; [rewrite <- H; reflexivity|]).
      destruct H.
Qed.

End AnalyzerFacts.

(* ------------------------------------------------------------------ *)
(** * Properties of the planner *)
(* ------------------------------------------------------------------ *)

Module PlannerFacts.
Import JS Transition Spec Inputs.
Local Open Scope string_scope.
Local Open Scope float_scope.
Local Open Scope list_scope.

Lemma plan_style_and_length (a b : AnalysisSummary) (mode : MixMode) :
  (style (createTransitionPlan a b mode),
   lengthBars (createTransitionPlan a b mode))
  = fst (decide a b mode).
Proof.
  unfold createTransitionPlan.
  destruct (decide a b mode) as [[s l] f]. reflexivity.
Qed.

(** C7.  When both-vocal does not hold, the keys are Camelot-compatible
    and the tempo delta |bpm_a - bpm_b| / bpm_a is below 0.02, the plan is
    an eq_morph of 16 bars in club_smooth mode and of 8 bars otherwise.
    The earlier rules come first: both-vocal gives vocal_aware over 4
    bars whatever the keys and tempi are, and the hard_downbeat rule
    requires incompatible keys. *)
Theorem eq_morph_rule (a b : AnalysisSummary) (mode : MixMode) :
  bothVocal a b = false ->
  keysCompatible a b = true ->
  (tempoDelta a b <? 0.02) = true ->
  style (createTransitionPlan a b mode) = eq_morph
  /\ lengthBars (createTransitionPlan a b mode)
     = match mode with club_smooth => 16%Z | _ => 8%Z end
  /\ (forall a' b' mode',
        bothVocal a' b' = true ->
        style (createTransitionPlan a' b' mode') = vocal_aware
        /\ lengthBars (createTransitionPlan a' b' mode') = 4%Z)
  /\ (forall a' b' mode',
        bothVocal a' b' = false ->
        keysCompatible a' b' = false ->
        gtb (tempoDelta a' b') 0.06 = true ->
        style (createTransitionPlan a' b' mode') = hard_downbeat
        /\ lengthBars (createTransitionPlan a' b' mode') = 4%Z).
Proof.
  intros Hv Hk Ht.
  assert (P : forall x y m,
             style (createTransitionPlan x y m) = fst (fst (decide x y m))
             /\ lengthBars (createTransitionPlan x y m)
                = snd (fst (decide x y m))).
  { intros x y m. pose proof (plan_style_and_length x y m) as E.
    rewrite <- E. split; reflexivity. }
  split; [|split; [|split]].
  - rewrite (proj1 (P a b mode)). unfold decide.
    rewrite Hv, Hk, Ht. reflexivity.
  - rewrite (proj2 (P a b mode)). unfold decide.
    rewrite Hv, Hk, Ht. reflexivity.
  - intros a' b' mode' Hv'.
    rewrite (proj1 (P a' b' mode')), (proj2 (P a' b' mode')). unfold decide.
    rewrite Hv'. split; reflexivity.
  - intros a' b' mode' Hv' Hk' Ht'.
    rewrite (proj1 (P a' b' mode')), (proj2 (P a' b' mode')). unfold decide.
    rewrite Hv', Hk', Ht'. split; reflexivity.
Qed.

Lemma eq_morph_rule_witness :
  bothVocal steady_track steady_track = false
  /\ keysCompatible steady_track steady_track = true
  /\ (tempoDelta steady_track steady_track <? 0.02) = true
  /\ style (createTransitionPlan steady_track steady_track club_smooth)
     = eq_morph
  /\ lengthBars (createTransitionPlan steady_track steady_track club_smooth)
     = 16%Z
  /\ lengthBars (createTransitionPlan steady_track steady_track neutral)
     = 8%Z.
Proof.
  pose proof (eq_morph_rule steady_track steady_track club_smooth
                eq_refl eq_refl eq_refl) as H16.
  pose proof (eq_morph_rule steady_track steady_track neutral
                eq_refl eq_refl eq_refl) as H8.
  split; [reflexivity|]. split; [reflexivity|]. split; [reflexivity|].
  split; [exact (proj1 H16)|].
  split; [exact (proj1 (proj2 H16)) | exact (proj1 (proj2 H8))].
Defined.

End PlannerFacts.

(* ------------------------------------------------------------------ *)
(** * Properties of the FX processor *)
(* ------------------------------------------------------------------ *)

Module FXFacts.
Import JS FXProcessor Spec Inputs.
Local Open Scope string_scope.
Local Open Scope float_scope.
Local Open Scope list_scope.

Lemma rejected_invalid (time duration : float) :
  rejected time duration = true ->
  invalid_time_and_duration time duration = true.
Proof.
  unfold rejected, invalid_time_and_duration.
  destruct (time <? 0), (duration <=? 0), (isFinite time),
    (isFinite duration); simpl; congruence.
Qed.

(** The three guarded operations return the buffer they were given. *)
Lemma guarded_fx_reject (rng : RandomSource) (buffer : AudioBuffer)
  (time duration : float) :
  rejected time duration = true ->
  applyNoiseSweep rng buffer time duration = (Returned buffer, rng)
  /\ applyReverseReverb buffer time duration = Returned buffer
  /\ applyTapeStop buffer time duration = Returned buffer.
Proof.
  intros H. apply rejected_invalid in H.
  unfold applyNoiseSweep, applyReverseReverb, applyTapeStop.
  rewrite H. repeat split.
Qed.

(** C3 fails on the code for two of the five operations.  [applyStutter]
    tests [startTime] and [bpm] for finiteness but neither [division] nor
    [bars]: with an infinite [division] (one bar at 120 bpm) it returns
    silence in place of the eight samples it was given, and with an
    infinite [bars] its loop does not end.  [applyEQMorph] has no guard at
    all: with a NaN [overlapStart] it leaves track A as it is and still
    fades track B in, first sample scaled by 0.3, and with an infinite
    [duration] its loop does not end. *)
Theorem stutter_and_morph_accept_nonfinite :
  isFinite infinity = false
  /\ applyStutter eight_samples 0 infinity 1 120 = Returned (silence 8)
  /\ silence 8 <> eight_samples
  /\ applyStutter eight_samples 0 8 infinity 120 = Diverged
  /\ isFinite nan = false
  /\ (exists a b,
        applyEQMorph eight_samples eight_samples nan 0.0005 = Returned (a, b)
        /\ a = eight_samples
        /\ get (hd [] (channels b)) 0 = fround (0.5 * 0.3)
        /\ b <> eight_samples)
  /\ applyEQMorph eight_samples eight_samples 0 infinity = Diverged.
Proof.
  split; [reflexivity|].
  split; [vm_compute; reflexivity|].
  split.
  { intros H. apply (f_equal buffer_bits) in H.
    vm_compute in H. discriminate H. }
  split; [reflexivity|].
  split; [reflexivity|].
  split; [|reflexivity].
  eexists. eexists. split; [vm_compute; reflexivity|].
  split; [reflexivity|]. split; [vm_compute; reflexivity|].
  intros H. apply (f_equal buffer_bits) in H.
  vm_compute in H. discriminate H.
Qed.

End FXFacts.

(* ------------------------------------------------------------------ *)
(** * Properties of the renderer *)
(* ------------------------------------------------------------------ *)

Module RendererFacts.
Import JS Renderer Spec Inputs.
Local Open Scope string_scope.
Local Open Scope float_scope.
Local Open Scope list_scope.

(** C5, as stated, fails: with the sweep in the plan, two states of the
    ambient random source give different buffers for track A. *)
Lemma fx_stage_depends_on_random_source :
  fst (applyPlanFX sweep_plan steady_track
         steady_track (fx sweep_plan) low_draws
         clip_48k clip_48k)
  <> fst (applyPlanFX sweep_plan steady_track
            steady_track (fx sweep_plan) high_draws
            clip_48k clip_48k).
Proof.
  intros H. apply (f_equal sample_bits) in H.
  vm_compute in H. discriminate H.
Qed.

(** ** The start bar *)

Lemma Math_min_upper (a b : float) :
  is_nan (Math_min a b) = true \/ (Math_min a b <=? b) = true.
Proof.
  unfold Math_min.
  destruct (is_nan a) eqn:Na; [now left|].
  destruct (is_nan b) eqn:Nb; [now left|]. cbn [orb].
  destruct (a <? b) eqn:Lab; [right; apply FloatOrder.ltb_leb, Lab|].
  destruct (b <? a) eqn:Lba; [right; apply FloatOrder.leb_refl, Nb|].
  destruct (get_sign a); right.
  - apply FloatOrder.not_ltb_leb; assumption.
  - apply FloatOrder.leb_refl, Nb.
Qed.

(** C4 (as amended).  The renderer clamps [startBarA] from below only: a
    negative value becomes 0 and any other value, however large, is kept
    with the rest of the plan, so the start bar used is never negative.
    What is bounded by track A is the sample offset: [maxOverlap] is NaN
    or at most the length of A. *)
Theorem start_bar_clamped_below (plan : TransitionPlan)
  (analysisA : AnalysisSummary) (sampleRate : float) (processedA : AudioBuffer) :
  (startBarA (validate_plan plan) <? 0) = false
  /\ ((startBarA plan <? 0) = true -> startBarA (validate_plan plan) = 0)
  /\ ((startBarA plan <? 0) = false -> validate_plan plan = plan)
  /\ (is_nan (maxOverlap (validate_plan plan) analysisA sampleRate processedA)
      = true
      \/ (maxOverlap (validate_plan plan) analysisA sampleRate processedA
          <=? N2f (buffer_length processedA)) = true).
Proof.
  unfold validate_plan.
  destruct (startBarA plan <? 0) eqn:E; cbn [startBarA].
  - repeat split; try reflexivity; try discriminate. apply Math_min_upper.
  - repeat split; try assumption; try discriminate. apply Math_min_upper.
Qed.

(** C4, as stated, fails: an override of 1000 bars is executed as it is,
    on a track A of one bar. *)
Lemma start_bar_not_clamped_above :
  startBarA late_plan = 1000
  /\ Transition.totalBarsA Analysis.fallback_summary = 1
  /\ (startBarA late_plan <? Transition.totalBarsA Analysis.fallback_summary)
     = false.
Proof. vm_compute. repeat split. Qed.

End RendererFacts.

Module WavFacts.
Import JS Renderer Spec Inputs.
Local Open Scope string_scope.
Local Open Scope float_scope.
Local Open Scope list_scope.

(** In a concatenation of chunks of [c] elements each, the chunk of the
    [k]-th element starts at offset [k * c]. *)
Lemma flat_map_chunk {A B} (f : A -> list B) (c : nat) (l : list A)
  (k : nat) (x : A) :
  (forall y, List.length (f y) = c) ->
  nth_error l k = Some x ->
  firstn c (skipn (k * c) (flat_map f l)) = f x.
Proof.
  intros Hc. revert k. induction l as [|y l IH]; intros k Hk.
  - destruct k; discriminate Hk.
  - destruct k as [|k]; simpl in Hk |- *.
    + inversion Hk; subst.
      rewrite <- (Hc x) at 1. rewrite firstn_app, firstn_all, Nat.sub_diag.
      simpl. apply app_nil_r.
    + rewrite skipn_app, (Hc y).
      replace (c + k * c - c)%nat with (k * c)%nat by lia.
      rewrite (skipn_all2 (f y)) by (rewrite Hc; lia).
      simpl. apply IH, Hk.
Qed.

Lemma firstn_skipn_firstn {A} (l : list A) (a b c : nat) :
  (a + b <= c)%nat ->
  firstn a (skipn b (firstn c l)) = firstn a (skipn b l).
Proof.
  intros H. rewrite skipn_firstn_comm, firstn_firstn.
  f_equal. lia.
Qed.

Lemma encode_sample_length (x : float) : List.length (encode_sample x) = 2%nat.
Proof. reflexivity. Qed.

Lemma wav_frame_length (channels : list (list float)) (i : nat) :
  List.length (wav_frame channels i) = (2 * List.length channels)%nat.
Proof.
  unfold wav_frame. induction channels as [|ch rest IH]; [reflexivity|].
  cbn [flat_map]. rewrite length_app, IH, encode_sample_length.
  cbn [List.length]. lia.
Qed.

Lemma wav_header_length (n : nat) (rate : float) (len : nat) :
  List.length (wav_header n rate len) = 44%nat.
Proof. reflexivity. Qed.

(** The two bytes of frame [i], channel [ch] in the data chunk. *)
Lemma wav_data_sample (buffer : AudioBuffer) (i ch : nat) (data : list float) :
  (i < buffer_length buffer)%nat ->
  nth_error (channels buffer) ch = Some data ->
  firstn 2 (skipn (2 * (i * numberOfChannels buffer + ch)) (wav_data buffer))
  = encode_sample (get data i).
Proof.
  intros Hi Hch. unfold wav_data, numberOfChannels.
  set (n := List.length (channels buffer)).
  assert (Hlt : (ch < n)%nat) by (apply nth_error_Some; congruence).
  assert (Hframe :
    firstn (2 * n) (skipn (i * (2 * n))
      (flat_map (wav_frame (channels buffer)) (seq 0 (buffer_length buffer))))
    = wav_frame (channels buffer) i).
  { apply flat_map_chunk.
    - intros y. apply wav_frame_length.
    - rewrite nth_error_nth' with (d := O) by (rewrite length_seq; lia).
      rewrite seq_nth by lia. reflexivity. }
  assert (Hsample :
    firstn 2 (skipn (ch * 2) (wav_frame (channels buffer) i))
    = encode_sample (get data i)).
  { unfold wav_frame.
    apply (flat_map_chunk (fun channel => encode_sample (get channel i)) 2
             (channels buffer) ch data); [intros; reflexivity | exact Hch]. }
  rewrite <- Hsample, <- Hframe.
  rewrite firstn_skipn_firstn by lia.
  rewrite skipn_skipn. f_equal. f_equal. lia.
Qed.

(** What the clamp returns for a sample that is a number. *)
Lemma clamp_sample_range (x : float) :
  is_nan x = false ->
  (-1 <=? clamp_sample x) = true /\ (clamp_sample x <=? 1) = true.
Proof.
  intros Nx. unfold clamp_sample.
  assert (Hm : is_nan (Math_min 1 x) = false /\ (Math_min 1 x <=? 1) = true).
  { unfold Math_min. rewrite Nx. cbn [is_nan orb].
    change (is_nan 1) with false. cbn [orb].
    destruct (1 <? x) eqn:L1; [split; reflexivity|].
    destruct (x <? 1) eqn:L2;
      [split; [exact Nx | apply FloatOrder.ltb_leb, L2]|].
    change (get_sign 1) with false. cbv iota.
    split; [exact Nx|].
    apply FloatOrder.not_ltb_leb; [reflexivity | exact Nx | exact L1]. }
  destruct Hm as [Nm Lm]. set (m := Math_min 1 x) in *.
  unfold Math_max. rewrite Nm. change (is_nan (-1)) with false. cbn [orb].
  destruct (-1 <? m) eqn:L1; [split; [apply FloatOrder.ltb_leb, L1 | exact Lm]|].
  destruct (m <? -1) eqn:L2; [split; reflexivity|].
  change (get_sign (-1)) with true. cbv iota.
  split; [|exact Lm].
  apply FloatOrder.not_ltb_leb; [exact Nm | reflexivity | exact L2].
Qed.

Lemma bufferToWave_bytes (buffer : AudioBuffer) (sampleRate : float)
  (bytes : list Z) :
  bufferToWave buffer sampleRate = Some bytes ->
  bytes
  = wav_header (numberOfChannels buffer) sampleRate
               (buffer_length buffer * numberOfChannels buffer * 2)
    ++ wav_data buffer.
Proof.
  unfold bufferToWave.
  destruct ((buffer_length buffer =? 0)%nat || (numberOfChannels buffer =? 0)%nat);
    [discriminate|].
  destruct ((sampleRate <=? 0) || negb (isFinite sampleRate)); [discriminate|].
  intros H. congruence.
Qed.

(** The clamp never leaves a value outside [-1, 1], NaN included. *)
Lemma clamp_sample_never_outside (x : float) :
  (clamp_sample x <? -1) = false /\ (1 <? clamp_sample x) = false.
Proof.
  destruct (is_nan x) eqn:Nx.
  - unfold clamp_sample, Math_min. rewrite Nx, orb_true_r.
    split; reflexivity.
  - destruct (clamp_sample_range x Nx) as [L U].
    split; apply FloatOrder.leb_not_gt; assumption.
Qed.

(** C9.  In the bytes [bufferToWave] emits, the sample of frame [i] and
    channel [ch] occupies the two bytes at offset
    [44 + 2 * (i * channels + ch)]: frames in order, channels interleaved
    inside a frame.  They are the little-endian 16-bit integer that
    [setInt16] stores for the sample clamped by [max(-1, min(1, x))] and
    scaled by 0x8000 when the clamped value is negative and by 0x7FFF
    otherwise.  The clamped value is never below -1 nor above 1, and it
    lies in [-1, 1] for every sample that is a number. *)
Theorem wav_sample_encoding (buffer : AudioBuffer) (sampleRate : float)
  (bytes : list Z) (i ch : nat) (data : list float) :
  bufferToWave buffer sampleRate = Some bytes ->
  (i < buffer_length buffer)%nat ->
  nth_error (channels buffer) ch = Some data ->
  let x := get data i in
  let sample := Math_max (-1) (Math_min 1 x) in
  let value := if sample <? 0 then sample * 32768 else sample * 32767 in
  firstn 2 (skipn (44 + 2 * (i * numberOfChannels buffer + ch)) bytes)
  = [ (truncZ value mod 65536) mod 256;
      ((truncZ value mod 65536) / 256) mod 256 ]%Z
  /\ (sample <? -1) = false /\ (1 <? sample) = false
  /\ (is_nan x = false -> (-1 <=? sample) = true /\ (sample <=? 1) = true).
Proof.
  intros Hw Hi Hch x sample value.
  split; [|split; [apply clamp_sample_never_outside|
           split; [apply clamp_sample_never_outside
                  | apply clamp_sample_range]]].
  rewrite (bufferToWave_bytes buffer sampleRate bytes Hw).
  rewrite skipn_app, wav_header_length.
  rewrite skipn_all2 by (rewrite wav_header_length; lia).
  replace (44 + 2 * (i * numberOfChannels buffer + ch) - 44)%nat
    with (2 * (i * numberOfChannels buffer + ch))%nat by lia.
  cbn [app]. rewrite (wav_data_sample buffer i ch data Hi Hch).
  reflexivity.
Qed.

Lemma wav_sample_encoding_witness :
  exists bytes,
    bufferToWave two_frames 8000 = Some bytes
    /\ firstn 2 (skipn (44 + 2 * (1 * 2 + 0)) bytes) = [0; 192]%Z.
Proof.
  eexists. split; [reflexivity|].
  exact (proj1 (wav_sample_encoding two_frames 8000 _ 1 0 [0.5; -0.5]
                  eq_refl ltac:(simpl; lia) eq_refl)).
Defined.

End WavFacts.

(* ------------------------------------------------------------------ *)
(** * Further properties of the planner *)
(* ------------------------------------------------------------------ *)

Module PlannerExtra.
Import JS Transition Spec PlannerSpec Inputs InputsX.
Local Open Scope string_scope.
Local Open Scope float_scope.
Local Open Scope list_scope.

Lemma codes_agree :
  forallb (fun a =>
    forallb (fun b =>
      Bool.eqb (areKeysCompatible a b) (wheel_rule a b)
      && Bool.eqb (areKeysCompatible a b) (areKeysCompatible b a)
      && key_shift_check a b && pitch_ops_check a b)
    camelot_codes) camelot_codes = true.
Proof. vm_compute. reflexivity. Qed.

Lemma codes_agree_at (a b : string) :
  In a camelot_codes -> In b camelot_codes ->
  areKeysCompatible a b = wheel_rule a b
  /\ areKeysCompatible a b = areKeysCompatible b a
  /\ key_shift_check a b = true /\ pitch_ops_check a b = true.
Proof.
  intros Ha Hb.
  pose proof (proj1 (forallb_forall _ _) codes_agree a Ha) as H.
  pose proof (proj1 (forallb_forall _ _) H b Hb) as H'. cbv beta in H'.
  apply andb_true_iff in H'. destruct H' as [H' Hp].
  apply andb_true_iff in H'. destruct H' as [H' Hk].
  apply andb_true_iff in H'. destruct H' as [Hc Hs].
  split; [apply Bool.eqb_prop, Hc|].
  split; [apply Bool.eqb_prop, Hs | split; assumption].
Qed.

(** A string that matches the pattern is one of the twenty-four codes. *)
Lemma pattern_codes (s : string) :
  camelot_pattern s = true -> In s camelot_codes.
Proof.
  destruct s as [|c1 [|c2 [|c3 [|c4 s]]]]; try discriminate.
  - (* two characters *)
    unfold camelot_pattern. intros H.
    apply andb_true_iff in H. destruct H as [H1 H2].
    destruct c1 as [[] [] [] [] [] [] [] []]; try discriminate H1;
      destruct c2 as [[] [] [] [] [] [] [] []]; try discriminate H2;
      simpl; tauto.
  - (* three characters *)
    unfold camelot_pattern. intros H.
    apply andb_true_iff in H. destruct H as [H H3].
    apply andb_true_iff in H. destruct H as [H1 H2].
    destruct c1 as [[] [] [] [] [] [] [] []]; try discriminate H1;
      destruct c2 as [[] [] [] [] [] [] [] []]; try discriminate H2;
      destruct c3 as [[] [] [] [] [] [] [] []]; try discriminate H3;
      simpl; tauto.
Qed.

Lemma wheel_rule_codes (a b : string) :
  wheel_rule a b = true -> In a camelot_codes /\ In b camelot_codes.
Proof.
  unfold wheel_rule, wheel_position. intros H.
  destruct (camelot_pattern a) eqn:Pa; [|discriminate H].
  destruct (parse_digits a None); [|discriminate H].
  destruct (camelot_pattern b) eqn:Pb; [|discriminate H].
  split; apply pattern_codes; assumption.
Qed.

Lemma lookup_In {A} (k : string) (m : list (string * A)) (v : A) :
  lookup k m = Some v -> In (k, v) m.
Proof.
  induction m as [|[k' v'] m IH]; cbn [lookup]; [discriminate|].
  destruct (String.eqb_spec k k') as [-> | _].
  - intros H. inversion H; subst. now left.
  - intros H. right. apply IH, H.
Qed.

Lemma member_In (c : string) (l : list string) :
  existsb (String.eqb c) l = true -> In c l.
Proof.
  intros H. apply existsb_exists in H. destruct H as (x & Hx & E).
  apply String.eqb_eq in E. subst x. exact Hx.
Qed.

Lemma wheel_rows_codes :
  forallb
    (fun row =>
       existsb (String.eqb (fst row)) camelot_codes
       && forallb (fun c => existsb (String.eqb c) camelot_codes) (snd row))
    CAMELOT_WHEEL = true.
Proof. vm_compute. reflexivity. Qed.

Lemma compatible_codes (a b : string) :
  areKeysCompatible a b = true -> In a camelot_codes /\ In b camelot_codes.
Proof.
  unfold areKeysCompatible. cbv zeta.
  destruct (lookup a CAMELOT_WHEEL) as [keys|] eqn:L; [|discriminate].
  intros H. apply lookup_In in L.
  pose proof (proj1 (forallb_forall _ _) wheel_rows_codes _ L) as Hrow.
  cbn [fst snd] in Hrow. apply andb_true_iff in Hrow.
  destruct Hrow as [Ha Hkeys].
  split; [apply member_In, Ha|].
  apply member_In.
  apply (proj1 (forallb_forall _ _) Hkeys b).
  apply existsb_exists in H. destruct H as (x & Hx & E).
  apply String.eqb_eq in E. subst x. exact Hx.
Qed.

Lemma wheel_position_codes (s : string) (n : Z) (l : bool) :
  wheel_position s = Some (n, l) -> In s camelot_codes.
Proof.
  unfold wheel_position. destruct (camelot_pattern s) eqn:P; [|discriminate].
  intros _. apply pattern_codes, P.
Qed.

(** X1.  For a [keyA] that is one of the twenty-four Camelot codes, the
    keys of [CAMELOT_WHEEL], [areKeysCompatible] is the wheel rule: a
    [keyB] is compatible exactly when it is a Camelot code and it is
    the same code, one step away on the same letter, or the other letter
    of the same number.  On two codes the relation is symmetric. *)
Theorem areKeysCompatible_wheel_rule (keyA keyB : string) :
  In keyA camelot_codes ->
  areKeysCompatible keyA keyB = wheel_rule keyA keyB
  /\ (areKeysCompatible keyA keyB = true -> In keyB camelot_codes)
  /\ (In keyB camelot_codes ->
      areKeysCompatible keyA keyB = areKeysCompatible keyB keyA).
Proof.
  intros Ha. split; [|split].
  - destruct (areKeysCompatible keyA keyB) eqn:E1.
    + destruct (compatible_codes keyA keyB E1) as [_ Hb].
      rewrite <- E1. apply (codes_agree_at keyA keyB Ha Hb).
    + destruct (wheel_rule keyA keyB) eqn:E2; [|reflexivity].
      destruct (wheel_rule_codes keyA keyB E2) as [_ Hb].
      rewrite <- E1, <- E2. apply (codes_agree_at keyA keyB Ha Hb).
  - intros H. apply (compatible_codes keyA keyB H).
  - intros Hb. apply (codes_agree_at keyA keyB Ha Hb).
Qed.

Lemma areKeysCompatible_wheel_rule_witness :
  In "8B" camelot_codes
  /\ areKeysCompatible "8B" "9B" = wheel_rule "8B" "9B"
  /\ (areKeysCompatible "8B" "9B" = true -> In "9B" camelot_codes)
  /\ (In "9B" camelot_codes ->
      areKeysCompatible "8B" "9B" = areKeysCompatible "9B" "8B").
Proof.
  assert (H : In "8B" camelot_codes)
    by (unfold camelot_codes; repeat first [left; reflexivity | right]).
  split; [exact H|].
  apply (areKeysCompatible_wheel_rule "8B" "9B" H).
Defined.

(** X2.  On two Camelot codes [calculateKeyShift] is the difference of the
    wheel numbers wrapped into [-6, 6]: a whole number of that range,
    congruent to the difference modulo 12. *)
Theorem calculateKeyShift_wrapped (keyA keyB : string) (n1 n2 : Z)
  (l1 l2 : bool) :
  wheel_position keyA = Some (n1, l1) ->
  wheel_position keyB = Some (n2, l2) ->
  calculateKeyShift keyA keyB = Z2f (wrapped_shift n1 n2)
  /\ (-6 <= wrapped_shift n1 n2 <= 6)%Z
  /\ ((wrapped_shift n1 n2 - (n2 - n1)) mod 12 = 0)%Z.
Proof.
  intros Ha Hb.
  destruct (codes_agree_at keyA keyB (wheel_position_codes _ _ _ Ha)
              (wheel_position_codes _ _ _ Hb)) as (_ & _ & H & _).
  unfold key_shift_check in H. rewrite Ha, Hb in H.
  apply andb_true_iff in H. destruct H as [H H4].
  apply andb_true_iff in H. destruct H as [H H3].
  apply andb_true_iff in H. destruct H as [H1 H2].
  apply FloatAxioms.Leibniz.eqb_spec in H1.
  split; [exact H1|]. split; lia.
Qed.

Lemma calculateKeyShift_wrapped_witness :
  wheel_position "12A" = Some (12%Z, true)
  /\ wheel_position "1B" = Some (1%Z, false)
  /\ calculateKeyShift "12A" "1B" = 1.
Proof.
  split; [reflexivity|]. split; [reflexivity|].
  exact (proj1 (calculateKeyShift_wrapped "12A" "1B" 12 1 true false
                  eq_refl eq_refl)).
Defined.

Lemma plan_pitchOps (a b : AnalysisSummary) (mode : MixMode) :
  pitchOps (createTransitionPlan a b mode)
  = pitch_ops_of (camelot a) (camelot b).
Proof.
  unfold createTransitionPlan, pitch_ops_of, keysCompatible.
  destruct (decide a b mode) as [[s l] f]. reflexivity.
Qed.

(** X3.  For two tracks whose keys are Camelot codes, the plan asks for a
    pitch shift only when the wheel numbers are one step apart and the
    letters differ; the request is then a single one, on track B, of that
    one step (+1 or -1 semitone) with formant preservation.  It never asks
    for a shift of zero or of more than one semitone. *)
Theorem pitch_ops_one_step (a b : AnalysisSummary) (mode : MixMode)
  (n1 n2 : Z) (l1 l2 : bool) :
  wheel_position (camelot a) = Some (n1, l1) ->
  wheel_position (camelot b) = Some (n2, l2) ->
  pitchOps (createTransitionPlan a b mode)
  = if negb (Bool.eqb l1 l2) && (Z.abs (wrapped_shift n1 n2) =? 1)%Z
    then [mkPitchOp TrackB (Z2f (wrapped_shift n1 n2)) true]
    else [].
Proof.
  intros Ha Hb. rewrite plan_pitchOps.
  destruct (codes_agree_at _ _ (wheel_position_codes _ _ _ Ha)
              (wheel_position_codes _ _ _ Hb)) as (_ & _ & _ & H).
  unfold pitch_ops_check in H. rewrite Ha, Hb in H.
  destruct (pitch_ops_of (camelot a) (camelot b)) as [|op [|op' rest]];
    [| |discriminate H].
  - destruct (Bool.eqb l1 l2); simpl in H |- *; [reflexivity|].
    destruct (Z.abs (wrapped_shift n1 n2) =? 1)%Z; [discriminate H|].
    reflexivity.
  - apply andb_true_iff in H. destruct H as [H H5].
    apply andb_true_iff in H. destruct H as [H H4].
    apply andb_true_iff in H. destruct H as [H H3].
    apply andb_true_iff in H. destruct H as [H1 H2].
    rewrite H1, H2. cbn [andb].
    apply FloatAxioms.Leibniz.eqb_spec in H3.
    destruct op as [tr st fp]. cbn in H3, H4, H5. subst st fp.
    destruct tr; [discriminate H5 | reflexivity].
Qed.

Lemma pitch_ops_one_step_witness :
  wheel_position "8B" = Some (8%Z, false)
  /\ wheel_position "9A" = Some (9%Z, true)
  /\ pitchOps (createTransitionPlan steady_track shifted_track neutral)
     = [mkPitchOp TrackB 1 true].
Proof.
  split; [reflexivity|]. split; [reflexivity|].
  exact (pitch_ops_one_step steady_track shifted_track neutral 8 9 false true
           eq_refl eq_refl).
Defined.

(** The six outcomes of the decision matrix. *)
Lemma decide_cases (a b : AnalysisSummary) (mode : MixMode) :
  decide a b mode = (vocal_aware, 4%Z, [])
  \/ decide a b mode = (hard_downbeat, 4%Z, [mkFX sweep (-2) [("duration", 1)]])
  \/ (keysCompatible a b = true /\ (tempoDelta a b <? 0.02) = true
      /\ ((mode = club_smooth /\ decide a b mode = (eq_morph, 16%Z, []))
          \/ (mode <> club_smooth /\ decide a b mode = (eq_morph, 8%Z, []))))
  \/ decide a b mode = (bass_swap, 8%Z, [])
  \/ (mode = festival
      /\ decide a b mode
         = (stutter_entry, 4%Z,
            [mkFX stutter (-4) [("division", 8); ("bars", 1)]]))
  \/ (mode <> festival /\ decide a b mode = (hard_downbeat, 4%Z, [])).
Proof.
  unfold decide.
  destruct (bothVocal a b); [now left|].
  destruct (negb (keysCompatible a b) && gtb (tempoDelta a b) 0.06);
    [now right; left|].
  destruct (keysCompatible a b && (tempoDelta a b <? 0.02)) eqn:E.
  { apply andb_true_iff in E. destruct E as [E1 E2].
    right; right; left. split; [exact E1|]. split; [exact E2|].
    destruct mode; [right | left | right]; split;
      try reflexivity; discriminate. }
  destruct (tempoDelta a b <? 0.06); [now right; right; right; left|].
  destruct mode.
  - right; right; right; right; left. split; reflexivity.
  - right; right; right; right; right. split; [discriminate | reflexivity].
  - right; right; right; right; right. split; [discriminate | reflexivity].
Qed.

(** The fields of the plan in terms of the decision. *)
Lemma plan_fields (a b : AnalysisSummary) (mode : MixMode) :
  let plan := createTransitionPlan a b mode in
  style plan = fst (fst (decide a b mode))
  /\ lengthBars plan = snd (fst (decide a b mode))
  /\ startBarB plan = 0
  /\ (fx plan = snd (decide a b mode)
      \/ (mode = festival
          /\ fx plan
             = snd (decide a b mode) ++ [mkFX reverseVerb (-4) [("duration", 2)]]))
  /\ (tempoOps plan = []
      \/ (gtb (tempoDelta a b) 0.02 = true
          /\ exists sa sb,
               tempoOps plan = [mkTempoOp TrackA sa; mkTempoOp TrackB sb]))
  /\ pitchOps plan = pitch_ops_of (camelot a) (camelot b).
Proof.
  cbv zeta. split; [|split; [|split; [|split; [|split]]]];
    try (unfold createTransitionPlan;
         destruct (decide a b mode) as [[s l] f]; reflexivity).
  - unfold createTransitionPlan. destruct (decide a b mode) as [[s l] f].
    cbn [fx snd].
    destruct (gtb _ 0.3 && _ && _) eqn:E; [|now left].
    right. split; [|reflexivity].
    apply andb_true_iff in E. destruct E as [_ E].
    destruct mode; [reflexivity | discriminate E | discriminate E].
  - unfold createTransitionPlan. destruct (decide a b mode) as [[s l] f].
    cbn [tempoOps].
    destruct (gtb (tempoDelta a b) 0.02 && _) eqn:E; [|now left].
    apply andb_true_iff in E. destruct E as [E _].
    right. split; [exact E|]. eexists. eexists. reflexivity.
Qed.

(** X4.  Invariants of every plan [createTransitionPlan] returns: the
    length is 4, 8 or 16 bars and 16 only for an eq_morph in club_smooth
    mode; track B starts at bar 0; there are at most two FX, never a tape
    stop; a sweep comes only with hard_downbeat, a stutter only with
    stutter_entry in festival mode, a reverse reverb only in festival
    mode; tempo operations are none or the pair (A, B); and an eq_morph
    plan carries no tempo and no pitch operation. *)
Theorem plan_invariants (a b : AnalysisSummary) (mode : MixMode) :
  let plan := createTransitionPlan a b mode in
  (lengthBars plan = 4 \/ lengthBars plan = 8 \/ lengthBars plan = 16)%Z
  /\ (lengthBars plan = 16%Z -> style plan = eq_morph /\ mode = club_smooth)
  /\ startBarB plan = 0
  /\ (List.length (fx plan) <= 2)%nat
  /\ (forall f, In f (fx plan) ->
        match fx_type f with
        | tapeStop => False
        | sweep => style plan = hard_downbeat
        | stutter => style plan = stutter_entry /\ mode = festival
        | reverseVerb => mode = festival
        end)
  /\ (tempoOps plan = []
      \/ exists sa sb, tempoOps plan = [mkTempoOp TrackA sa; mkTempoOp TrackB sb])
  /\ (style plan = eq_morph -> tempoOps plan = [] /\ pitchOps plan = []).
Proof.
  cbv zeta.
  destruct (plan_fields a b mode) as (Hs & Hl & Hb & Hf & Ht & Hp).
  cbv zeta in Hs, Hl, Hb, Hf, Ht, Hp.
  rewrite Hs, Hl, Hb.
  assert (Hfx : forall f, In f (fx (createTransitionPlan a b mode)) ->
                  In f (snd (decide a b mode))
                  \/ (mode = festival /\ fx_type f = reverseVerb)).
  { intros f Hin. destruct Hf as [-> | [Hm ->]] in Hin; [now left|].
    apply in_app_or in Hin. destruct Hin as [Hin | [<- | []]];
      [now left | right; split; [exact Hm | reflexivity]]. }
  assert (Hlen : (List.length (fx (createTransitionPlan a b mode))
                  <= S (List.length (snd (decide a b mode))))%nat).
  { destruct Hf as [-> | [_ ->]]; [lia|]. rewrite length_app. simpl. lia. }
  assert (Htempo : (tempoDelta a b <? 0.02) = true ->
                   tempoOps (createTransitionPlan a b mode) = []).
  { intros H2. destruct Ht as [E | [G _]]; [exact E|].
    unfold gtb in G.
    rewrite (FloatOrder.leb_not_gt _ _ (FloatOrder.ltb_leb _ _ H2)) in G.
    discriminate G. }
  assert (Hpitch : keysCompatible a b = true ->
                   pitchOps (createTransitionPlan a b mode) = []).
  { intros Hk. rewrite Hp. unfold pitch_ops_of.
    unfold keysCompatible in Hk. rewrite Hk. reflexivity. }
  destruct (decide_cases a b mode)
    as [E | [E | [(Hk & H2 & [[Hm E] | [Hm E]]) | [E | [[Hm E] | [Hm E]]]]]];
    rewrite E in *; cbn [fst snd List.length] in *;
    (split; [auto|]);
    (split; [intros H; try discriminate H; auto|]);
    (split; [reflexivity|]); (split; [lia|]);
    (split;
     [intros f Hin; destruct (Hfx f Hin) as [Hd | [Hfest ->]];
      [simpl in Hd; repeat (destruct Hd as [<- | Hd]; [simpl; auto|]);
       destruct Hd
      | exact Hfest]|]);
    (split; [destruct Ht as [Ht | [_ Ht]]; [left | right]; exact Ht|]);
    intros H; try discriminate H; split; auto.
Qed.

(** ** The default start bar *)

Lemma start_bar_check_all : forallb start_bar_check (seq 0 1024) = true.
Proof. vm_compute. reflexivity. Qed.

(** X5.  For a track A of fewer than 1024 downbeats, the plan counts
    max(1, downbeats div 4) bars and starts the transition at bar
    (3 * bars) div 4, both computed exactly: the start bar is a whole
    number, not negative and below the bar count. *)
Theorem default_start_bar (a b : AnalysisSummary) (mode : MixMode) :
  (List.length (downbeatIndices a) < 1024)%nat ->
  let n := List.length (downbeatIndices a) in
  let plan := createTransitionPlan a b mode in
  totalBarsA a = Z2f (bars_spec n)
  /\ startBarA plan = Z2f (start_spec n)
  /\ (0 <=? startBarA plan) = true
  /\ (startBarA plan <? totalBarsA a) = true.
Proof.
  intros Hn. cbv zeta.
  assert (Hs : startBarA (createTransitionPlan a b mode)
               = start_of_count (List.length (downbeatIndices a))).
  { unfold createTransitionPlan. destruct (decide a b mode) as [[s l] f].
    reflexivity. }
  rewrite Hs. change (totalBarsA a)
    with (bars_of_count (List.length (downbeatIndices a))).
  assert (Hin : In (List.length (downbeatIndices a)) (seq 0 1024))
    by (apply in_seq; lia).
  pose proof (proj1 (forallb_forall _ _) start_bar_check_all _ Hin) as H.
  unfold start_bar_check in H.
  apply andb_true_iff in H. destruct H as [H H4].
  apply andb_true_iff in H. destruct H as [H H3].
  apply andb_true_iff in H. destruct H as [H1 H2].
  apply FloatAxioms.Leibniz.eqb_spec in H1.
  apply FloatAxioms.Leibniz.eqb_spec in H2.
  split; [exact H1|]. split; [exact H2|]. split; [exact H4 | exact H3].
Qed.

Lemma default_start_bar_witness :
  totalBarsA steady_track = Z2f (bars_spec 4)
  /\ startBarA (createTransitionPlan steady_track shifted_track neutral)
     = Z2f (start_spec 4)
  /\ (0 <=? startBarA (createTransitionPlan steady_track shifted_track neutral))
     = true
  /\ (startBarA (createTransitionPlan steady_track shifted_track neutral)
      <? totalBarsA steady_track) = true.
Proof.
  apply (default_start_bar steady_track shifted_track neutral).
  simpl. lia.
Defined.

End PlannerExtra.

(* ------------------------------------------------------------------ *)
(** * Further properties of the analyzer *)
(* ------------------------------------------------------------------ *)

Module AnalyzerExtra.
Import JS Analysis Spec AnalyzerSpec Inputs.
Local Open Scope string_scope.
Local Open Scope float_scope.
Local Open Scope list_scope.

(** ** Downbeats *)

Lemma sorted_snoc (l : list Z) (k : Z) :
  StronglySorted Z.lt l -> Forall (fun d => (d < k)%Z) l ->
  StronglySorted Z.lt (l ++ [k]).
Proof.
  induction 1 as [|x l Hs IH Hx]; intros Hk; simpl.
  - constructor; constructor.
  - inversion Hk as [|? ? Hxk Hl]; subst. constructor.
    + apply IH, Hl.
    + apply Forall_app. split; [exact Hx | constructor; [exact Hxk | constructor]].
Qed.

(** The loop of [detectDownbeats] over the beats [i], [i+1], ...: it only
    appends indices it visits, in the order it visits them. *)
Lemma downbeat_loop (step : float * list Z -> nat * float -> float * list Z)
  (Hstep : forall st ib,
      step st ib = st
      \/ exists bar, step st ib = (bar, snd st ++ [Z.of_nat (fst ib)]))
  (beats : list float) :
  forall (i : nat) (st : float * list Z),
    StronglySorted Z.lt (snd st) ->
    Forall (fun d => (0 <= d < Z.of_nat i)%Z) (snd st) ->
    let out := fold_left step (combine (seq i (List.length beats)) beats) st in
    StronglySorted Z.lt (snd out)
    /\ Forall (fun d => (0 <= d < Z.of_nat (i + List.length beats))%Z) (snd out)
    /\ exists more, snd out = snd st ++ more.
Proof.
  induction beats as [|b beats IH]; intros i st Hs Hb; cbn [List.length seq combine fold_left].
  - split; [exact Hs|]. split.
    + rewrite Nat.add_0_r. exact Hb.
    + exists []. rewrite app_nil_r. reflexivity.
  - assert (Hnext : StronglySorted Z.lt (snd (step st (i, b)))
                    /\ Forall (fun d => (0 <= d < Z.of_nat (S i))%Z)
                              (snd (step st (i, b)))
                    /\ exists more, snd (step st (i, b)) = snd st ++ more).
    { destruct (Hstep st (i, b)) as [-> | [bar ->]]; cbn [snd fst].
      - split; [exact Hs|]. split.
        + eapply Forall_impl; [|exact Hb]. cbv beta. intros d Hd. lia.
        + exists []. rewrite app_nil_r. reflexivity.
      - split.
        + apply sorted_snoc; [exact Hs|].
          eapply Forall_impl; [|exact Hb]. cbv beta. intros d Hd. lia.
        + split.
          * apply Forall_app. split.
            -- eapply Forall_impl; [|exact Hb]. cbv beta. intros d Hd. lia.
            -- constructor; [lia | constructor].
          * eexists. reflexivity. }
    destruct Hnext as (Hs' & Hb' & more & Hm).
    destruct (IH (S i) (step st (i, b)) Hs' Hb') as (H1 & H2 & more' & H3).
    split; [exact H1|]. split.
    + replace (i + S (List.length beats))%nat
        with (S i + List.length beats)%nat by lia. exact H2.
    + exists (more ++ more'). rewrite H3, Hm, app_assoc. reflexivity.
Qed.

(** X6.  The downbeat indices [detectDownbeats] returns start with 0 and
    are strictly increasing; they are the default [0, 4, 8, 12], or
    every one of them is the index of a beat. *)
Theorem detectDownbeats_indices (beats : list float) (bpm : float) :
  (exists rest, detectDownbeats beats bpm = 0%Z :: rest)
  /\ StronglySorted Z.lt (detectDownbeats beats bpm)
  /\ (detectDownbeats beats bpm = default_downbeats
      \/ Forall (fun d => (0 <= d < Z.of_nat (List.length beats))%Z)
                (detectDownbeats beats bpm)).
Proof.
  assert (Hd : (exists rest, default_downbeats = 0%Z :: rest)
               /\ StronglySorted Z.lt default_downbeats
               /\ (default_downbeats = default_downbeats
                   \/ Forall (fun d => (0 <= d < Z.of_nat (List.length beats))%Z)
                             default_downbeats)).
  { split; [eexists; reflexivity|]. split; [|left; reflexivity].
    unfold default_downbeats.
    repeat (constructor; [|repeat (constructor; try lia)]). constructor. }
  unfold detectDownbeats.
  destruct ((List.length beats <? 4)%nat || (bpm <=? 0) || negb (isFinite bpm))
    eqn:G; [exact Hd|].
  destruct (negb (isFinite (60 / bpm)) || (60 / bpm <=? 0)); [exact Hd|].
  destruct beats as [|b0 beats]; [discriminate G|].
  cbn [List.length seq combine tl].
  match goal with
  | |- context [fold_left ?f _ _] => set (step := f)
  end.
  assert (Hstep : forall st ib,
             step st ib = st
             \/ exists bar, step st ib = (bar, snd st ++ [Z.of_nat (fst ib)])).
  { intros [bar ds] [i b]. unfold step. cbn [fst snd].
    destruct (negb (isFinite b)); [now left|].
    destruct (Math_abs _ <? _); [right; eexists; reflexivity|].
    destruct (gtb b _); [right; eexists; reflexivity | now left]. }
  destruct (downbeat_loop step Hstep beats 1 (0, [0%Z])) as (H1 & H2 & more & H3).
  { cbn [snd]. constructor; constructor. }
  { cbn [snd]. constructor; [lia | constructor]. }
  cbv zeta in H1, H2, H3. cbn [snd] in H3.
  destruct (fold_left step _ _) as [bar ds]. cbn [snd] in H1, H2, H3.
  subst ds. cbn [app List.length Nat.eqb].
  split; [eexists; reflexivity|]. split; [exact H1|]. right.
  replace (Z.of_nat (S (List.length beats)))
    with (Z.of_nat (1 + List.length beats)) by (f_equal). exact H2.
Qed.

(** ** Phrases *)

Lemma phrase_loop (downbeats : list Z) :
  forall (fuel i q : nat),
    (List.length downbeats - i <= fuel)%nat -> i = (4 * q)%nat ->
    flat_map
      (fun i =>
         if (i + 4 <=? List.length downbeats)%nat
         then [(nth i downbeats 0%Z, 16%Z)] else [])
      (range_step_aux fuel i (List.length downbeats) 4)
    = map (phrase_of downbeats) (seq q (List.length downbeats / 4 - q)).
Proof.
  set (n := List.length downbeats).
  induction fuel as [|fuel IH]; intros i q Hf Hi; cbn [range_step_aux].
  - assert (E : (n / 4 - q = 0)%nat).
    { assert (n / 4 <= q)%nat; [|lia].
      apply Nat.Div0.div_le_upper_bound. lia. }
    rewrite E. reflexivity.
  - destruct (Nat.ltb_spec i n) as [Hlt | Hge].
    + cbn [flat_map]. rewrite (IH (i + 4)%nat (S q)) by lia.
      destruct (Nat.leb_spec (i + 4) n) as [Hle | Hgt].
      * assert (E : (S q <= n / 4)%nat).
        { apply Nat.div_le_lower_bound; lia. }
        replace (n / 4 - q)%nat with (S (n / 4 - S q)) by lia.
        cbn [seq map app]. unfold phrase_of at 1. subst i. reflexivity.
      * assert (E : (n / 4 <= q)%nat).
        { assert (n / 4 < S q)%nat; [|lia].
          apply Nat.Div0.div_lt_upper_bound. lia. }
        replace (n / 4 - q)%nat with 0%nat by lia.
        replace (n / 4 - S q)%nat with 0%nat by lia. reflexivity.
    + assert (E : (n / 4 - q = 0)%nat).
      { assert (n / 4 <= q)%nat; [|lia].
        apply Nat.Div0.div_le_upper_bound. lia. }
      rewrite E. reflexivity.
Qed.

(** X7.  [detectPhrases] returns one 16-beat phrase for every complete
    group of four downbeats, starting at the first downbeat of the
    group; an incomplete last group gives none, and the beats are not
    looked at. *)
Theorem detectPhrases_groups (beats : list float) (downbeats : list Z) :
  detectPhrases beats downbeats
  = map (phrase_of downbeats) (seq 0 (List.length downbeats / 4)).
Proof.
  unfold detectPhrases, range_step.
  rewrite (phrase_loop downbeats (List.length downbeats) 0 0) by lia.
  rewrite Nat.sub_0_r. reflexivity.
Qed.

(** ** Tempo: the dominant bin *)

Lemma histogram_incr_fst (h : list (Z * nat)) (k : Z) :
  forall e, In e (histogram_incr h k) -> fst e = k \/ In (fst e) (map fst h).
Proof.
  induction h as [|[k' c] rest IH]; intros e; cbn [histogram_incr].
  - intros [<- | []]. now left.
  - destruct (k =? k')%Z eqn:E.
    + apply Z.eqb_eq in E. subst k'. intros [<- | H]; [now left|].
      right. right. apply in_map, H.
    + destruct (k <? k')%Z.
      * intros [<- | [<- | H]]; [now left | right; now left |].
        right. right. apply in_map, H.
      * intros [<- | H]; [right; now left|].
        destruct (IH e H) as [Hk | Hin]; [now left | right; right; exact Hin].
Qed.

Lemma histogram_incr_ascending (h : list (Z * nat)) (k : Z) :
  StronglySorted Z.lt (map fst h) ->
  StronglySorted Z.lt (map fst (histogram_incr h k)).
Proof.
  induction h as [|[k' c] rest IH]; intros Hs; cbn [histogram_incr].
  - constructor; constructor.
  - cbn [map fst] in Hs. inversion Hs as [|? ? Hrest Hall]; subst.
    destruct (k =? k')%Z eqn:E; [exact Hs|].
    destruct (Z.ltb_spec k k') as [Hlt | Hge].
    + cbn [map fst]. constructor; [exact Hs|].
      constructor; [exact Hlt|].
      eapply Forall_impl; [|exact Hall]. cbv beta. intros d Hd. lia.
    + cbn [map fst]. constructor; [apply IH, Hrest|].
      apply Forall_forall. intros d Hd. apply in_map_iff in Hd.
      destruct Hd as (e & <- & He).
      destruct (histogram_incr_fst rest k e He) as [-> | Hin].
      * apply Z.eqb_neq in E. lia.
      * exact (proj1 (Forall_forall _ _) Hall _ Hin).
Qed.

Lemma cluster_intervals_ascending (intervals : list float) :
  StronglySorted Z.lt (map fst (cluster_intervals intervals)).
Proof.
  unfold cluster_intervals.
  assert (G : forall h, StronglySorted Z.lt (map fst h) ->
     StronglySorted Z.lt (map fst (fold_left
       (fun histogram interval =>
          if gtb interval 0 && isFinite interval then
            match roundI (60 / interval) with
            | IntI bpm =>
                if (0 <? bpm)%Z && (bpm <? 300)%Z
                then histogram_incr histogram bpm
                else histogram
            | _ => histogram
            end
          else histogram) intervals h))).
  { induction intervals as [|x rest IH]; intros h Hh; cbn [fold_left];
      [exact Hh|].
    apply IH.
    destruct (gtb x 0 && isFinite x); [|exact Hh].
    destruct (roundI (60 / x)) as [| |bpm]; try exact Hh.
    destruct ((0 <? bpm)%Z && (bpm <? 300)%Z); [|exact Hh].
    apply histogram_incr_ascending, Hh. }
  apply G. constructor.
Qed.

(** The entry a stable sort by decreasing count puts first: the first
    entry of the greatest count. *)
Lemma sort_by_count_head (h : list (Z * nat)) :
  forall e rest, sort_by_count h = e :: rest ->
    exists pre post,
      h = pre ++ e :: post
      /\ Forall (fun e' => (snd e' < snd e)%nat) pre
      /\ Forall (fun e' => (snd e' <= snd e)%nat) post.
Proof.
  induction h as [|e0 es IH]; intros e rest; cbn [sort_by_count fold_right].
  - discriminate.
  - fold (sort_by_count es).
    destruct (sort_by_count es) as [|e' r] eqn:S; cbn [insert_by_count].
    + intros H. inversion H; subst.
      destruct es as [|e1 es'].
      * exists [], []. split; [reflexivity | split; constructor].
      * exfalso. cbn [sort_by_count fold_right] in S.
        destruct (fold_right insert_by_count [] es') as [|x xs];
          cbn [insert_by_count] in S; [discriminate S|].
        destruct (snd x <=? snd e1)%nat; discriminate S.
    + destruct (IH e' r eq_refl) as (pre & post & Hes & Hpre & Hpost).
      destruct (Nat.leb_spec (snd e') (snd e0)) as [Hle | Hgt];
        intros H; inversion H; subst.
      * exists [], (pre ++ e' :: post).
        split; [reflexivity|]. split; [constructor|].
        apply Forall_app. split.
        -- eapply Forall_impl; [|exact Hpre]. cbv beta. intros x Hx. lia.
        -- constructor; [exact Hle|].
           eapply Forall_impl; [|exact Hpost]. cbv beta. intros x Hx. lia.
      * exists (e0 :: pre), post.
        split; [reflexivity|]. split; [|exact Hpost].
        constructor; [exact Hgt | exact Hpre].
Qed.

Lemma ascending_split (pre post : list (Z * nat)) (e : Z * nat) :
  StronglySorted Z.lt (map fst (pre ++ e :: post)) ->
  Forall (fun e' => (fst e < fst e')%Z) post.
Proof.
  induction pre as [|p pre IH]; cbn [app map]; intros H;
    inversion H as [|? ? Hrest Hall]; subst.
  - apply Forall_forall. intros x Hx.
    exact (proj1 (Forall_forall _ _) Hall _ (in_map fst _ _ Hx)).
  - apply IH, Hrest.
Qed.

(** X8.  The tempo [calculateBPM] reports is read off the histogram bin
    that holds the most intervals, the slowest such tempo when several
    bins tie; it is clamped to [60, 200], and the confidence is the
    share of the intervals in that bin, clamped to [0, 1]. *)
Theorem calculateBPM_most_common (beats : list float) (sampleRate : float) :
  let intervals := beat_intervals beats in
  let histogram := cluster_intervals intervals in
  (2 <= List.length beats)%nat -> histogram <> [] ->
  exists key count,
    In (key, count) histogram
    /\ (forall k c, In (k, c) histogram ->
          (c <= count)%nat /\ (c = count -> (key <= k)%Z))
    /\ bpm_main (calculateBPM beats sampleRate)
       = Math_max 60 (Math_min 200 (Z2f key))
    /\ bpm_confidence (calculateBPM beats sampleRate)
       = Math_min 1 (Math_max 0 (N2f count / N2f (List.length intervals))).
Proof.
  cbv zeta. intros Hlen Hne. unfold calculateBPM.
  destruct (Nat.ltb_spec (List.length beats) 2) as [Hlt | _]; [lia|].
  destruct (Nat.eqb_spec (List.length (beat_intervals beats)) 0) as [E0 | _].
  { exfalso. apply Hne.
    destruct (beat_intervals beats); [reflexivity | discriminate E0]. }
  pose proof (cluster_intervals_ascending (beat_intervals beats)) as Hasc.
  destruct (sort_by_count (cluster_intervals (beat_intervals beats)))
    as [|[key count] rest] eqn:Es.
  { exfalso. destruct (cluster_intervals (beat_intervals beats)) as [|e es];
      [apply Hne; reflexivity|].
    cbn [sort_by_count fold_right] in Es.
    destruct (fold_right insert_by_count [] es) as [|y ys];
      cbn [insert_by_count] in Es; [discriminate Es|].
    destruct (snd y <=? snd e)%nat; discriminate Es. }
  destruct (sort_by_count_head _ _ _ Es) as (pre & post & Hh & Hpre & Hpost).
  exists key, count. cbn [bpm_main bpm_confidence].
  split; [rewrite Hh; apply in_or_app; right; now left|].
  split; [|split; reflexivity].
  rewrite Hh in Hasc. pose proof (ascending_split _ _ _ Hasc) as Hkeys.
  intros k c Hin. rewrite Hh in Hin.
  apply in_app_or in Hin. destruct Hin as [Hin | [Heq | Hin]].
  - pose proof (proj1 (Forall_forall _ _) Hpre _ Hin) as Hc.
    cbn [snd] in Hc. split; lia.
  - inversion Heq; subst. split; lia.
  - pose proof (proj1 (Forall_forall _ _) Hpost _ Hin) as Hc.
    pose proof (proj1 (Forall_forall _ _) Hkeys _ Hin) as Hk.
    cbn [fst snd] in Hc, Hk. split; [exact Hc | lia].
Qed.

Lemma calculateBPM_most_common_witness :
  exists key count,
    In (key, count) (cluster_intervals (beat_intervals default_beats))
    /\ (forall k c,
          In (k, c) (cluster_intervals (beat_intervals default_beats)) ->
          (c <= count)%nat /\ (c = count -> (key <= k)%Z))
    /\ bpm_main (calculateBPM default_beats 44100)
       = Math_max 60 (Math_min 200 (Z2f key))
    /\ bpm_confidence (calculateBPM default_beats 44100)
       = Math_min 1
           (Math_max 0
              (N2f count / N2f (List.length (beat_intervals default_beats)))).
Proof.
  apply (calculateBPM_most_common default_beats 44100).
  - simpl. lia.
  - vm_compute. discriminate.
Defined.

(** ** Beat and kick times *)

Lemma fold_left_Forall {A B} (P : A -> Prop) (step : list A -> B -> list A)
  (Hstep : forall acc x, Forall P acc -> Forall P (step acc x))
  (l : list B) :
  forall acc, Forall P acc -> Forall P (fold_left step l acc).
Proof.
  induction l as [|x l IH]; intros acc Hacc; cbn [fold_left];
    [exact Hacc | apply IH, Hstep, Hacc].
Qed.

Lemma fold_left_length {A B} (step : list A -> B -> list A)
  (Hstep : forall acc x, (List.length (step acc x) <= S (List.length acc))%nat)
  (l : list B) :
  forall acc,
    (List.length (fold_left step l acc) <= List.length l + List.length acc)%nat.
Proof.
  induction l as [|x l IH]; intros acc; cbn [fold_left List.length]; [lia|].
  specialize (IH (step acc x)). specialize (Hstep acc x). lia.
Qed.

Lemma Forall_snoc {A} (P : A -> Prop) (l : list A) (x : A) :
  Forall P l -> P x -> Forall P (l ++ [x]).
Proof.
  intros Hl Hx. apply Forall_app. split; [exact Hl | constructor; [exact Hx | constructor]].
Qed.

Lemma default_beats_valid : Forall valid_time default_beats.
Proof.
  unfold default_beats, valid_time.
  repeat (constructor; [split; reflexivity|]). constructor.
Qed.

Lemma finite_not_nan (x : float) : isFinite x = true -> is_nan x = false.
Proof.
  unfold isFinite, is_finite. intros H.
  apply negb_true_iff, orb_false_iff in H. apply H.
Qed.

Section Times.
Context {M : MathLib}.

Lemma pick_peaks_valid (spectralFlux : list float) (sampleRate : float) :
  Forall valid_time (pick_peaks spectralFlux sampleRate).
Proof.
  unfold pick_peaks.
  destruct (floorI _) as [| |w]; try constructor.
  apply fold_left_Forall; [|constructor].
  intros acc i Hacc.
  destruct (List.length _ =? 0)%nat; [exact Hacc|].
  destruct (negb (isFinite _) || _); [exact Hacc|].
  destruct (gtb _ _ && isLocalPeak _ _ _); [|exact Hacc].
  destruct (isFinite (Z2f i * 512 / sampleRate)
            && geb (Z2f i * 512 / sampleRate) 0) eqn:G; [|exact Hacc].
  apply andb_true_iff in G. apply Forall_snoc; [exact Hacc | exact G].
Qed.

(** X9.  [detectBeats] never returns an empty list, and every beat time
    it returns is a finite number that is not negative. *)
Theorem detectBeats_times (data : list float) (sampleRate : float) :
  detectBeats data sampleRate <> []
  /\ Forall valid_time (detectBeats data sampleRate).
Proof.
  assert (Hd : default_beats <> [] /\ Forall valid_time default_beats)
    by (split; [discriminate | apply default_beats_valid]).
  unfold detectBeats.
  destruct ((List.length data <? 2048)%nat || (sampleRate <=? 0)); [exact Hd|].
  destruct (List.length (spectral_flux data) <? 2)%nat; [exact Hd|].
  destruct (pick_peaks (spectral_flux data) sampleRate) as [|b bs] eqn:E;
    [exact Hd|].
  cbn [List.length Nat.eqb]. split; [discriminate|].
  rewrite <- E. apply pick_peaks_valid.
Qed.

(** X10.  [detectKicks] never returns an empty list; every kick time is a
    finite number that is not negative, whatever the beat times it is
    given; and it returns the default grid or at most one kick per
    beat. *)
Theorem detectKicks_times (data : list float) (sampleRate : float)
  (beats : list float) :
  detectKicks data sampleRate beats <> []
  /\ Forall valid_time (detectKicks data sampleRate beats)
  /\ (detectKicks data sampleRate beats = default_beats
      \/ (List.length (detectKicks data sampleRate beats)
          <= List.length beats)%nat).
Proof.
  assert (Hd : default_beats <> [] /\ Forall valid_time default_beats
               /\ (default_beats = default_beats
                   \/ (List.length default_beats <= List.length beats)%nat)).
  { split; [discriminate|]. split; [apply default_beats_valid | now left]. }
  unfold detectKicks.
  destruct ((List.length data =? 0)%nat || (sampleRate <=? 0)
            || (List.length beats =? 0)%nat); [exact Hd|].
  match goal with
  | |- context [fold_left ?f beats []] => set (step := f)
  end.
  assert (Hv : Forall valid_time (fold_left step beats [])).
  { apply fold_left_Forall; [|constructor].
    intros acc beatTime Hacc. unfold step.
    destruct (negb (isFinite beatTime) || (beatTime <? 0)) eqn:G; [exact Hacc|].
    apply orb_false_iff in G. destruct G as [G1 G2].
    apply negb_false_iff in G1.
    destruct (geb (Math_max 0 _) _).
    - apply Forall_snoc; [exact Hacc|]. split; [exact G1|].
      unfold geb. apply FloatOrder.not_ltb_leb; [| |exact G2].
      + apply finite_not_nan, G1.
      + reflexivity.
    - match goal with
      | |- context [isFinite ?k && geb ?k 0] =>
          destruct (isFinite k && geb k 0) eqn:K
      end; [|exact Hacc].
      apply andb_true_iff in K. apply Forall_snoc; [exact Hacc | exact K]. }
  assert (Hl : (List.length (fold_left step beats []) <= List.length beats)%nat).
  { pose proof (fold_left_length step) as H.
    rewrite <- (Nat.add_0_r (List.length beats)).
    apply (H) with (acc := @nil float).
    intros acc beatTime. unfold step.
    destruct (negb (isFinite beatTime) || (beatTime <? 0)); [lia|].
    destruct (geb (Math_max 0 _) _); [rewrite length_app; simpl; lia|].
    match goal with
    | |- context [isFinite ?k && geb ?k 0] =>
        destruct (isFinite k && geb k 0)
    end; [rewrite length_app; simpl; lia | lia]. }
  destruct (fold_left step beats []) as [|k ks]; [exact Hd|].
  cbn [Nat.eqb List.length]. cbn [List.length] in Hl.
  split; [discriminate|]. split; [exact Hv | right; exact Hl].
Qed.

End Times.

(** ** Local peaks *)

Lemma Zrange_In (lo hi k : Z) : (lo <= k < hi)%Z -> In k (Zrange lo hi).
Proof.
  intros H. unfold Zrange. apply in_map_iff.
  exists (Z.to_nat (k - lo)). split; [lia|]. apply in_seq. lia.
Qed.

Lemma leb_total (x y : float) :
  is_nan x = false -> is_nan y = false ->
  (x <=? y) = true \/ (y <=? x) = true.
Proof.
  intros Nx Ny. destruct (x <? y) eqn:L.
  - left. apply FloatOrder.ltb_leb, L.
  - right. apply FloatOrder.not_ltb_leb; assumption.
Qed.

Lemma isLocalPeak_neighbour (data : list float) (i j range : Z) :
  isLocalPeak data i range = true ->
  (0 <= j < Z.of_nat (List.length data))%Z -> i <> j ->
  (Z.abs (i - j) <= range)%Z ->
  geb (getZ data j) (getZ data i) = false.
Proof.
  unfold isLocalPeak. intros H Hj Hne Hr.
  pose proof (proj1 (forallb_forall _ _) H j) as Hk.
  assert (Hin : In j (Zrange (i - range) (i + range + 1)))
    by (apply Zrange_In; lia).
  specialize (Hk Hin). cbv beta in Hk.
  apply negb_true_iff in Hk.
  destruct (Z.eqb_spec j i) as [-> | _]; [congruence|].
  destruct (Z.leb_spec 0 j); [|lia].
  destruct (Z.ltb_spec j (Z.of_nat (List.length data))); [|lia].
  exact Hk.
Qed.

(** X11.  Two different positions of an array that are within [range] of
    each other are not both local peaks, unless the value at one of them
    is NaN: [isLocalPeak] wants the value strictly above every
    neighbour.  (A NaN value is a local peak wherever it stands.) *)
Theorem isLocalPeak_separated (data : list float) (i j range : Z) :
  (0 <= i < Z.of_nat (List.length data))%Z ->
  (0 <= j < Z.of_nat (List.length data))%Z ->
  i <> j -> (Z.abs (i - j) <= range)%Z ->
  isLocalPeak data i range = true ->
  isLocalPeak data j range = true ->
  isNaN (getZ data i) = true \/ isNaN (getZ data j) = true.
Proof.
  intros Hi Hj Hne Hr Pi Pj.
  pose proof (isLocalPeak_neighbour data i j range Pi Hj Hne Hr) as H1.
  pose proof (isLocalPeak_neighbour data j i range Pj Hi
                ltac:(congruence) ltac:(lia)) as H2.
  unfold geb in H1, H2. unfold isNaN.
  destruct (is_nan (getZ data i)) eqn:Ni; [now left|].
  destruct (is_nan (getZ data j)) eqn:Nj; [now right|].
  destruct (leb_total _ _ Ni Nj); congruence.
Qed.

Lemma isLocalPeak_separated_witness :
  isNaN (getZ [1; nan; 0] 0) = true \/ isNaN (getZ [1; nan; 0] 1) = true.
Proof.
  apply (isLocalPeak_separated [1; nan; 0] 0 1 3).
  - simpl. lia.
  - simpl. lia.
  - discriminate.
  - simpl. lia.
  - reflexivity.
  - reflexivity.
Defined.

(** ** Confidences and likelihoods *)

Lemma unit_clamp_range (x : float) :
  is_nan x = false ->
  is_nan (Math_min 1 (Math_max 0 x)) = false
  /\ (0 <=? Math_min 1 (Math_max 0 x)) = true
  /\ (Math_min 1 (Math_max 0 x) <=? 1) = true.
Proof.
  intros Nx.
  assert (Hm : is_nan (Math_max 0 x) = false /\ (0 <=? Math_max 0 x) = true).
  { unfold Math_max. rewrite Nx. change (is_nan 0) with false. cbn [orb].
    destruct (0 <? x) eqn:L1;
      [split; [exact Nx | apply FloatOrder.ltb_leb, L1]|].
    destruct (x <? 0) eqn:L2; [split; reflexivity|].
    change (get_sign 0) with false. cbv iota. split; reflexivity. }
  destruct Hm as [Nm Lm]. set (m := Math_max 0 x) in *.
  unfold Math_min. rewrite Nm. change (is_nan 1) with false. cbn [orb].
  destruct (1 <? m) eqn:L1; [repeat split; reflexivity|].
  destruct (m <? 1) eqn:L2;
    [split; [exact Nm | split; [exact Lm | apply FloatOrder.ltb_leb, L2]]|].
  change (get_sign 1) with false. cbv iota.
  split; [exact Nm|]. split; [exact Lm|].
  apply FloatOrder.not_ltb_leb; [reflexivity | exact Nm | exact L1].
Qed.

Lemma unit_clamp_never_outside (x : float) :
  (Math_min 1 (Math_max 0 x) <? 0) = false
  /\ gtb (Math_min 1 (Math_max 0 x)) 1 = false.
Proof.
  unfold gtb. destruct (is_nan x) eqn:Nx.
  - unfold Math_max at 1 2. rewrite Nx, orb_true_r.
    split; reflexivity.
  - destruct (unit_clamp_range x Nx) as (_ & L & U).
    split; apply FloatOrder.leb_not_gt; assumption.
Qed.

Lemma unit_clamp_nan (x : float) :
  is_nan x = true -> Math_min 1 (Math_max 0 x) = nan.
Proof.
  intros Nx. unfold Math_max. rewrite Nx, orb_true_r. reflexivity.
Qed.

Section Likelihood.
Context {M : MathLib}.

Lemma vocal_frame_unit (sampleRate : float) (spectrum : list float) :
  unit_interval (vocal_frame sampleRate spectrum).
Proof.
  unfold vocal_frame.
  destruct (fold_left _ _ _) as [vocalEnergy totalEnergy].
  set (prob := if gtb totalEnergy 0 then _ else _).
  destruct (isFinite prob) eqn:F; [|repeat split; reflexivity].
  split; [exact F|]. subst prob.
  destruct (gtb totalEnergy 0); [|split; reflexivity].
  destruct (is_nan (vocalEnergy / totalEnergy)) eqn:N.
  - rewrite (unit_clamp_nan _ N) in F. discriminate F.
  - apply unit_clamp_range, N.
Qed.

(** X12.  Every entry of the vocal likelihood curve is the binary32
    rounding of a number between 0 and 1: a frame whose ratio is not a
    number counts as 0, and the fallback curve holds the single value
    0.3. *)
Theorem vocal_likelihood_unit (buffer : AudioBuffer) :
  Forall (fun v => exists p, v = fround p /\ unit_interval p)
         (estimateVocalPresence buffer).
Proof.
  assert (Hd : Forall (fun v => exists p, v = fround p /\ unit_interval p)
                      (Float32Array [0.3])).
  { constructor; [|constructor]. exists 0.3.
    split; [reflexivity | repeat split; reflexivity]. }
  unfold estimateVocalPresence.
  destruct (buffer_length buffer =? 0)%nat; [exact Hd|].
  destruct (getChannelData buffer 0) as [data|]; [|exact Hd].
  destruct ((List.length data =? 0)%nat || (sampleRate buffer <=? 0));
    [exact Hd|].
  match goal with
  | |- context [if ?c then _ else _] => destruct c
  end; [exact Hd|].
  unfold Float32Array. rewrite map_map. apply Forall_forall.
  intros v Hv. apply in_map_iff in Hv. destruct Hv as (i & <- & _).
  eexists. split; [reflexivity | apply vocal_frame_unit].
Qed.

(** X13.  The two confidences of an analysis are never below 0 and never
    above 1. *)
Theorem confidences_clamped (buffer : AudioBuffer) :
  (bpmConfidence (analyzeTrack buffer) <? 0) = false
  /\ gtb (bpmConfidence (analyzeTrack buffer)) 1 = false
  /\ (keyConfidence (analyzeTrack buffer) <? 0) = false
  /\ gtb (keyConfidence (analyzeTrack buffer)) 1 = false.
Proof.
  assert (Hb : forall beats rate,
             (bpm_confidence (calculateBPM beats rate) <? 0) = false
             /\ gtb (bpm_confidence (calculateBPM beats rate)) 1 = false).
  { intros beats rate. unfold calculateBPM.
    destruct (List.length beats <? 2)%nat; [split; reflexivity|].
    destruct (List.length (beat_intervals beats) =? 0)%nat;
      [split; reflexivity|].
    destruct (sort_by_count _) as [|[k c] rest]; [split; reflexivity|].
    cbn [bpm_confidence]. apply unit_clamp_never_outside. }
  assert (Hk : forall b,
             (key_confidence (detectKey b) <? 0) = false
             /\ gtb (key_confidence (detectKey b)) 1 = false).
  { intros b. unfold detectKey.
    destruct (buffer_length b =? 0)%nat; [split; reflexivity|].
    destruct (getChannelData b 0) as [data|]; [|split; reflexivity].
    destruct ((List.length data =? 0)%nat || (sampleRate b <=? 0));
      [split; reflexivity|].
    destruct (negb (isFinite _) || _); [split; reflexivity|].
    cbn [key_confidence].
    destruct (gtb (sum _) 0); [apply unit_clamp_never_outside|].
    split; reflexivity. }
  unfold analyzeTrack, analyzeTrack_try.
  destruct ((buffer_length buffer =? 0)%nat || (sampleRate buffer <=? 0));
    [repeat split; reflexivity|].
  destruct (getChannelData buffer 0) as [data|]; [|repeat split; reflexivity].
  destruct (List.length data =? 0)%nat; [repeat split; reflexivity|].
  cbn [bpmConfidence keyConfidence].
  destruct (Hb (detectBeats data (sampleRate buffer)) (sampleRate buffer))
    as [B1 B2].
  destruct (Hk buffer) as [K1 K2].
  split; [exact B1|]. split; [exact B2|]. split; [exact K1 | exact K2].
Qed.

End Likelihood.

End AnalyzerExtra.

(* ------------------------------------------------------------------ *)
(** * Stores into typed arrays *)
(* ------------------------------------------------------------------ *)

Module ArrayFacts.
Import JS.
Local Open Scope float_scope.
Local Open Scope list_scope.

Lemma set_at_length (l : list float) (i : nat) (v : float) :
  List.length (set_at l i v) = List.length l.
Proof.
  revert i. induction l as [|x l IH]; intros [|i]; simpl; auto.
Qed.

Lemma setZ_length (l : list float) (i : Z) (v : float) :
  List.length (setZ l i v) = List.length l.
Proof.
  unfold setZ. destruct (i <? 0)%Z; [reflexivity | apply set_at_length].
Qed.

Lemma get_set_at_other (l : list float) (i k : nat) (v : float) :
  i <> k -> get (set_at l i v) k = get l k.
Proof.
  unfold get. revert i k.
  induction l as [|x l IH]; intros [|i] [|k] H; simpl; auto;
    try congruence; apply IH; congruence.
Qed.

Lemma get_set_at_same (l : list float) (i : nat) (v : float) :
  (i < List.length l)%nat -> get (set_at l i v) i = fround v.
Proof.
  unfold get. revert i.
  induction l as [|x l IH]; intros [|i] H; simpl in *; try lia; auto.
  apply IH. lia.
Qed.

Lemma getZ_setZ_other (l : list float) (i k : Z) (v : float) :
  i <> k -> getZ (setZ l i v) k = getZ l k.
Proof.
  intros H. unfold getZ, setZ.
  destruct (Z.ltb_spec k 0); [reflexivity|].
  destruct (Z.ltb_spec i 0); [reflexivity|].
  apply get_set_at_other. lia.
Qed.

Lemma getZ_setZ_same (l : list float) (i : Z) (v : float) :
  (0 <= i < Z.of_nat (List.length l))%Z -> getZ (setZ l i v) i = fround v.
Proof.
  intros H. unfold getZ, setZ.
  destruct (Z.ltb_spec i 0); [lia|].
  apply get_set_at_same. lia.
Qed.

Lemma getZ_of_nat (l : list float) (i : nat) : getZ l (Z.of_nat i) = get l i.
Proof.
  unfold getZ. destruct (Z.ltb_spec (Z.of_nat i) 0); [lia|].
  rewrite Nat2Z.id. reflexivity.
Qed.

Lemma getZ_nonneg (l : list float) (k : Z) :
  (0 <= k)%Z -> getZ l k = get l (Z.to_nat k).
Proof.
  intros H. unfold getZ. destruct (Z.ltb_spec k 0); [lia | reflexivity].
Qed.

Section Loops.
Context {B : Type} (step : list float -> B -> list float).

(** A loop whose body keeps the length of the array. *)
Lemma loop_length (l : list B) :
  (forall out x, List.length (step out x) = List.length out) ->
  forall out, List.length (fold_left step l out) = List.length out.
Proof.
  intros H. induction l as [|x l IH]; intros out; cbn [fold_left];
    [reflexivity | rewrite IH; apply H].
Qed.

(** A position no iteration writes keeps its value. *)
Lemma loop_untouched (l : list B) (k : Z) :
  (forall out x, In x l -> getZ (step out x) k = getZ out k) ->
  forall out, getZ (fold_left step l out) k = getZ out k.
Proof.
  induction l as [|x l IH]; intros H out; cbn [fold_left]; [reflexivity|].
  rewrite IH.
  - apply H. now left.
  - intros out' y Hy. apply H. now right.
Qed.

(** A position holds what the last iteration that writes it stored. *)
Lemma loop_written (l1 l2 : list B) (x : B) (k : Z) (w : float) (n : nat) :
  (forall out y, List.length (step out y) = List.length out) ->
  (forall out, List.length out = n -> getZ (step out x) k = w) ->
  (forall out y, In y l2 -> getZ (step out y) k = getZ out k) ->
  forall out, List.length out = n ->
    getZ (fold_left step (l1 ++ x :: l2) out) k = w.
Proof.
  intros Hlen Hx Hrest out Hout.
  rewrite fold_left_app. cbn [fold_left].
  rewrite loop_untouched by exact Hrest.
  apply Hx. rewrite loop_length by exact Hlen. exact Hout.
Qed.

End Loops.

Lemma seq_split (n i : nat) :
  (i < n)%nat -> seq 0 n = seq 0 i ++ i :: seq (S i) (n - S i).
Proof.
  intros H. replace n with (i + S (n - S i))%nat at 1 by lia.
  rewrite seq_app. reflexivity.
Qed.

Lemma Zrange_bounds (lo hi k : Z) : In k (Zrange lo hi) -> (lo <= k < hi)%Z.
Proof.
  unfold Zrange. intros H. apply in_map_iff in H.
  destruct H as (j & <- & Hj). apply in_seq in Hj. lia.
Qed.

Lemma Zrange_shift (a : Z) (b m : nat) :
  forall c,
    map (fun j => (a + Z.of_nat j)%Z) (seq (b + c) m)
    = map (fun j => (a + Z.of_nat b + Z.of_nat j)%Z) (seq c m).
Proof.
  induction m as [|m IH]; intros c; cbn [seq map]; [reflexivity|].
  f_equal; [lia|]. rewrite <- IH. f_equal. f_equal. lia.
Qed.

Lemma Zrange_split (lo hi k : Z) :
  (lo <= k < hi)%Z -> Zrange lo hi = Zrange lo k ++ k :: Zrange (k + 1) hi.
Proof.
  intros H. unfold Zrange.
  rewrite (seq_split (Z.to_nat (hi - lo)) (Z.to_nat (k - lo))) by lia.
  rewrite map_app. cbn [map]. f_equal. f_equal; [lia|].
  replace (Z.to_nat (hi - lo) - S (Z.to_nat (k - lo)))%nat
    with (Z.to_nat (hi - (k + 1))) by lia.
  replace (S (Z.to_nat (k - lo))) with (S (Z.to_nat (k - lo)) + 0)%nat by lia.
  rewrite Zrange_shift. apply map_ext. intros j. lia.
Qed.

End ArrayFacts.

(* ------------------------------------------------------------------ *)
(** * Further properties of the FX processor *)
(* ------------------------------------------------------------------ *)

Module FXExtra.
Import JS FXProcessor Spec FXSpec Inputs ArrayFacts.
Local Open Scope string_scope.
Local Open Scope float_scope.
Local Open Scope list_scope.

Lemma same_frames_refl (b : AudioBuffer) : same_frames b b.
Proof. split; reflexivity. Qed.

Lemma same_frames_map (b : AudioBuffer) (rate : float)
  (f : list float -> list float) :
  (forall c, In c (channels b) -> List.length (f c) = List.length c) ->
  same_frames b {| sampleRate := rate; buffer_length := buffer_length b;
                   channels := map f (channels b) |}.
Proof.
  intros H. split; [reflexivity|]. cbn [channels].
  rewrite map_map. apply map_ext_in. intros c Hc. symmetry. apply H, Hc.
Qed.

Lemma mix_noise_length (s : integral) (d : float) (noise c : list float) :
  List.length (mix_noise s d noise c) = List.length c.
Proof.
  unfold mix_noise. apply loop_length. intros out [i x].
  destruct (index_from s (Z.of_nat i)) as [idx|]; [|reflexivity].
  destruct (idx <? _)%Z; [apply setZ_length | reflexivity].
Qed.

Lemma reverse_echo_length (s : integral) (d : float) (n : nat)
  (c : list float) :
  List.length (reverse_echo s d n c) = List.length c.
Proof.
  unfold reverse_echo. apply loop_length. intros out [i x].
  destruct (index_from s (Z.of_nat i)) as [idx|]; [|reflexivity].
  destruct (idx <? _)%Z; [apply setZ_length | reflexivity].
Qed.

Lemma morph_channel_length (base : integral) (d : float)
  (curve : float -> float) (iterations : list nat) (c : list float) :
  List.length (morph_channel base d curve iterations c) = List.length c.
Proof.
  unfold morph_channel. apply loop_length. intros out i.
  destruct (index_from base (Z.of_nat i)) as [idx|]; [|reflexivity].
  destruct (idx <? _)%Z; [apply setZ_length | reflexivity].
Qed.

Lemma stutter_channel_length (s t q : integral) (before idx : list nat)
  (c : list float) :
  List.length (stutter_channel s t q before idx c) = List.length c.
Proof.
  unfold stutter_channel.
  assert (H1 : List.length
                 (fold_left (fun out i => set_at out i (get c i)) before
                            (repeat 0 (List.length c))) = List.length c).
  { rewrite loop_length; [apply repeat_length|].
    intros out i. apply set_at_length. }
  match goal with
  | |- context [fold_left ?f idx ?a] =>
      assert (H2 : List.length (fold_left f idx a) = List.length c)
  end.
  { rewrite loop_length; [exact H1|]. intros out i.
    destruct (add_integral s _) as [src|]; [|reflexivity].
    destruct (src <? _)%Z; [|reflexivity].
    destruct (index_from s _) as [tgt|]; [|reflexivity].
    destruct (tgt <? _)%Z; [apply setZ_length | reflexivity]. }
  destruct (add_integral s t) as [first|]; [|exact H2].
  rewrite loop_length; [exact H2|]. intros out i. apply setZ_length.
Qed.

(** X14.  Every FX operation that returns gives back a buffer of the
    shape it was given: the same number of frames, the same channels,
    each as long as before.  The EQ morph keeps the shape of both
    tracks, and labels both results with the sample rate of track A. *)
Theorem fx_keep_shape (buffer : AudioBuffer) :
  well_formed buffer ->
  (forall rng startTime duration out rng',
      applyNoiseSweep rng buffer startTime duration = (Returned out, rng') ->
      same_frames buffer out /\ sampleRate out = sampleRate buffer)
  /\ (forall startTime duration out,
        applyReverseReverb buffer startTime duration = Returned out ->
        same_frames buffer out /\ sampleRate out = sampleRate buffer)
  /\ (forall stopTime duration out,
        applyTapeStop buffer stopTime duration = Returned out ->
        same_frames buffer out /\ sampleRate out = sampleRate buffer)
  /\ (forall startTime division bars bpm out,
        applyStutter buffer startTime division bars bpm = Returned out ->
        same_frames buffer out /\ sampleRate out = sampleRate buffer)
  /\ (forall bufferB overlapStart duration outA outB,
        applyEQMorph buffer bufferB overlapStart duration
        = Returned (outA, outB) ->
        same_frames buffer outA /\ same_frames bufferB outB
        /\ sampleRate outA = sampleRate buffer
        /\ sampleRate outB = sampleRate buffer).
Proof.
  intros Hwf.
  split; [|split; [|split; [|split]]].
  - intros rng startTime duration out rng'. unfold applyNoiseSweep.
    destruct (invalid_time_and_duration startTime duration).
    { intros H. inversion H; subst. split; [apply same_frames_refl | reflexivity]. }
    destruct (typed_array_length _) as [n|]; [|discriminate].
    intros H. inversion H; subst. split; [|reflexivity].
    apply same_frames_map. intros c _. apply mix_noise_length.
  - intros startTime duration out. unfold applyReverseReverb.
    destruct (invalid_time_and_duration startTime duration).
    { intros H. inversion H; subst. split; [apply same_frames_refl | reflexivity]. }
    destruct (typed_array_length _) as [n|].
    + intros H. inversion H; subst. split; [|reflexivity].
      apply same_frames_map. intros c _. apply reverse_echo_length.
    + destruct (channels buffer) eqn:E; [|discriminate].
      intros H. inversion H; subst. split; [|reflexivity].
      split; [reflexivity|]. rewrite E. reflexivity.
  - intros stopTime duration out. unfold applyTapeStop.
    destruct (invalid_time_and_duration stopTime duration).
    { intros H. inversion H; subst. split; [apply same_frames_refl | reflexivity]. }
    intros H. inversion H; subst. split; [|reflexivity].
    apply same_frames_map. intros c Hc.
    rewrite length_map, length_seq.
    symmetry. exact (proj1 (Forall_forall _ _) Hwf c Hc).
  - intros startTime division bars bpm out. unfold applyStutter.
    destruct (invalid_stutter startTime division bars bpm).
    { intros H. inversion H; subst. split; [apply same_frames_refl | reflexivity]. }
    destruct (channels buffer) as [|c0 cs] eqn:E.
    { intros H. inversion H; subst. split; [|reflexivity].
      split; [reflexivity|]. rewrite E. reflexivity. }
    destruct (loop_to _) as [before| |]; try discriminate.
    destruct (loop_to _) as [idx| |]; try discriminate.
    rewrite <- E. intros H. inversion H; subst. split; [|reflexivity].
    apply same_frames_map. intros c _.
    apply stutter_channel_length.
  - intros bufferB overlapStart duration outA outB. unfold applyEQMorph.
    assert (G : forall iterations,
      Returned
        ({| sampleRate := sampleRate buffer;
            buffer_length := buffer_length buffer;
            channels :=
              map (morph_channel
                     (floorI (Math_floor (overlapStart * sampleRate buffer)))
                     (Math_floor (duration * sampleRate buffer))
                     (fun progress => 1 - progress * 0.7) iterations)
                  (channels buffer) |},
         {| sampleRate := sampleRate buffer;
            buffer_length := buffer_length bufferB;
            channels :=
              map (morph_channel (IntI 0)
                     (Math_floor (duration * sampleRate buffer))
                     (fun progress => 0.3 + progress * 0.7) iterations)
                  (channels bufferB) |}) = Returned (outA, outB) ->
      same_frames buffer outA /\ same_frames bufferB outB
      /\ sampleRate outA = sampleRate buffer
      /\ sampleRate outB = sampleRate buffer).
    { intros iterations H. inversion H; subst.
      split; [apply same_frames_map; intros c _; apply morph_channel_length|].
      split; [apply same_frames_map; intros c _; apply morph_channel_length|].
      split; reflexivity. }
    destruct (channels buffer) as [|a0 as_] eqn:EA;
      destruct (channels bufferB) as [|b0 bs] eqn:EB.
    + intros H. inversion H; subst.
      split; [split; [reflexivity | rewrite EA; reflexivity]|].
      split; [split; [reflexivity | rewrite EB; reflexivity]|].
      split; reflexivity.
    + destruct (loop_to _) as [iterations| |]; try discriminate.
      apply G.
    + destruct (loop_to _) as [iterations| |]; try discriminate.
      apply G.
    + destruct (loop_to _) as [iterations| |]; try discriminate.
      apply G.
Qed.

Lemma fx_keep_shape_witness :
  well_formed eight_samples
  /\ exists out,
       applyTapeStop eight_samples 0 0.0005 = Returned out
       /\ same_frames eight_samples out
       /\ sampleRate out = sampleRate eight_samples.
Proof.
  assert (Hwf : well_formed eight_samples)
    by (constructor; [reflexivity | constructor]).
  split; [exact Hwf|].
  eexists. split; [reflexivity|].
  apply (proj1 (proj2 (proj2 (fx_keep_shape eight_samples Hwf))) 0 0.0005).
  reflexivity.
Defined.

(** ** The window of a noise sweep *)

Lemma mix_noise_outside (start : integral) (d : float) (noise c : list float)
  (k : Z) :
  (forall s, start = IntI s ->
             (k < s \/ s + Z.of_nat (List.length noise) <= k)%Z) ->
  getZ (mix_noise start d noise c) k = getZ c k.
Proof.
  intros Hout. unfold mix_noise. apply loop_untouched.
  intros out [i x] Hin.
  apply in_combine_l, in_seq in Hin.
  destruct start as [| |s]; cbn [index_from]; try reflexivity.
  destruct (s + Z.of_nat i <? _)%Z; [|reflexivity].
  apply getZ_setZ_other. specialize (Hout s eq_refl). lia.
Qed.

(** X15.  A noise sweep that is not rejected and returns draws exactly
    as many random numbers as its window has samples, and leaves every
    sample outside the window [start, start + samples) as it was. *)
Theorem noise_sweep_window (rng : RandomSource) (buffer : AudioBuffer)
  (startTime duration : float) (out : AudioBuffer) (rng' : RandomSource) :
  invalid_time_and_duration startTime duration = false ->
  applyNoiseSweep rng buffer startTime duration = (Returned out, rng') ->
  exists n,
    typed_array_length (window_samples buffer duration) = Some n
    /\ rng' = advance rng n
    /\ forall ch input, nth_error (channels buffer) ch = Some input ->
         exists output,
           nth_error (channels out) ch = Some output
           /\ forall k,
                (forall s, window_start buffer startTime = IntI s ->
                           (k < s \/ s + Z.of_nat n <= k)%Z) ->
                getZ output k = getZ input k.
Proof.
  intros Hvalid. unfold applyNoiseSweep. rewrite Hvalid.
  fold (window_samples buffer duration). fold (window_start buffer startTime).
  destruct (typed_array_length (window_samples buffer duration)) as [n|];
    [|discriminate].
  intros H. inversion H; subst. exists n.
  split; [reflexivity|]. split; [reflexivity|].
  intros ch input Hin. cbn [channels].
  eexists. split; [rewrite nth_error_map, Hin; reflexivity|].
  intros k Hk. apply mix_noise_outside.
  rewrite length_map, length_seq. exact Hk.
Qed.

Lemma noise_sweep_window_witness :
  exists n,
    typed_array_length (window_samples clip_48k 0.0005) = Some n
    /\ advance low_draws 24 = advance low_draws n
    /\ forall ch input, nth_error (channels clip_48k) ch = Some input ->
         exists output,
           nth_error
             (channels
                {| sampleRate := 48000; buffer_length := 32;
                   channels :=
                     map (mix_noise (window_start clip_48k 0)
                            (Math_floor (0.0005 * 48000))
                            (map (fun i => fround ((low_draws i * 2 - 1) * 0.3))
                                 (seq 0 24)))
                         (channels clip_48k) |}) ch
           = Some output
           /\ forall k,
                (forall s, window_start clip_48k 0 = IntI s ->
                           (k < s \/ s + Z.of_nat n <= k)%Z) ->
                getZ output k = getZ input k.
Proof.
  apply (noise_sweep_window low_draws clip_48k 0 0.0005).
  - reflexivity.
  - reflexivity.
Defined.

(** ** The windows of the EQ morph and of the reverse reverb *)

Lemma morph_channel_outside (base : integral) (d : float)
  (curve : float -> float) (n : nat) (c : list float) (k : Z) :
  (forall s, base = IntI s -> (k < s \/ s + Z.of_nat n <= k)%Z) ->
  getZ (morph_channel base d curve (seq 0 n) c) k = getZ c k.
Proof.
  intros Hout. unfold morph_channel. apply loop_untouched.
  intros out i Hin. apply in_seq in Hin.
  destruct base as [| |s]; cbn [index_from]; try reflexivity.
  destruct (s + Z.of_nat i <? _)%Z; [|reflexivity].
  apply getZ_setZ_other. specialize (Hout s eq_refl). lia.
Qed.

Lemma loop_to_window (w : integral) (iterations : list nat) :
  loop_to w = Returned iterations -> iterations = seq 0 (window_length w).
Proof.
  destruct w as [|[]|z]; cbn [loop_to window_length]; intros H;
    inversion H; reflexivity.
Qed.

(** X16.  An EQ morph that returns leaves track A as it was outside the
    window [start, start + samples) and track B as it was from sample
    [samples] on: it only scales the samples of the overlap. *)
Theorem eq_morph_window (bufferA bufferB : AudioBuffer)
  (overlapStart duration : float) (outA outB : AudioBuffer) :
  applyEQMorph bufferA bufferB overlapStart duration = Returned (outA, outB) ->
  let n := window_length (window_samples bufferA duration) in
  (forall ch input, nth_error (channels bufferA) ch = Some input ->
     exists output,
       nth_error (channels outA) ch = Some output
       /\ forall k,
            (forall s, morph_start bufferA overlapStart = IntI s ->
                       (k < s \/ s + Z.of_nat n <= k)%Z) ->
            getZ output k = getZ input k)
  /\ (forall ch input, nth_error (channels bufferB) ch = Some input ->
        exists output,
          nth_error (channels outB) ch = Some output
          /\ forall k, (Z.of_nat n <= k)%Z -> getZ output k = getZ input k).
Proof.
  intros Hrun n. unfold applyEQMorph in Hrun.
  fold (window_samples bufferA duration) in Hrun.
  fold (morph_start bufferA overlapStart) in Hrun.
  assert (G : forall iterations,
    loop_to (window_samples bufferA duration) = Returned iterations ->
    outA = {| sampleRate := sampleRate bufferA;
              buffer_length := buffer_length bufferA;
              channels :=
                map (morph_channel (morph_start bufferA overlapStart)
                       (Math_floor (duration * sampleRate bufferA))
                       (fun progress => 1 - progress * 0.7) iterations)
                    (channels bufferA) |} ->
    outB = {| sampleRate := sampleRate bufferA;
              buffer_length := buffer_length bufferB;
              channels :=
                map (morph_channel (IntI 0)
                       (Math_floor (duration * sampleRate bufferA))
                       (fun progress => 0.3 + progress * 0.7) iterations)
                    (channels bufferB) |} ->
    (forall ch input, nth_error (channels bufferA) ch = Some input ->
       exists output,
         nth_error (channels outA) ch = Some output
         /\ forall k,
              (forall s, morph_start bufferA overlapStart = IntI s ->
                         (k < s \/ s + Z.of_nat n <= k)%Z) ->
              getZ output k = getZ input k)
    /\ (forall ch input, nth_error (channels bufferB) ch = Some input ->
          exists output,
            nth_error (channels outB) ch = Some output
            /\ forall k, (Z.of_nat n <= k)%Z -> getZ output k = getZ input k)).
  { intros iterations Hl -> ->. apply loop_to_window in Hl. subst iterations.
    fold n. cbn [channels]. split; intros ch input Hin.
    - eexists. split; [rewrite nth_error_map, Hin; reflexivity|].
      intros k Hk. apply morph_channel_outside, Hk.
    - eexists. split; [rewrite nth_error_map, Hin; reflexivity|].
      intros k Hk. apply morph_channel_outside.
      intros s Hs. inversion Hs; subst. lia. }
  destruct (channels bufferA) as [|a0 as_] eqn:EA;
    destruct (channels bufferB) as [|b0 bs] eqn:EB.
  - split; intros [|ch] input Hin; discriminate Hin.
  - destruct (loop_to _) as [iterations| |] eqn:L; try discriminate Hrun.
    inversion Hrun; subst. apply (G iterations); reflexivity.
  - destruct (loop_to _) as [iterations| |] eqn:L; try discriminate Hrun.
    inversion Hrun; subst. apply (G iterations); reflexivity.
  - destruct (loop_to _) as [iterations| |] eqn:L; try discriminate Hrun.
    inversion Hrun; subst. apply (G iterations); reflexivity.
Qed.

Lemma eq_morph_window_witness :
  exists outA outB,
    applyEQMorph eight_samples eight_samples 0.00025 0.0005
    = Returned (outA, outB)
    /\ (forall ch input, nth_error (channels eight_samples) ch = Some input ->
          exists output,
            nth_error (channels outA) ch = Some output
            /\ forall k,
                 (forall s, morph_start eight_samples 0.00025 = IntI s ->
                            (k < s
                             \/ s + Z.of_nat
                                      (window_length
                                         (window_samples eight_samples 0.0005))
                                <= k)%Z) ->
                 getZ output k = getZ input k)
    /\ (forall ch input, nth_error (channels eight_samples) ch = Some input ->
          exists output,
            nth_error (channels outB) ch = Some output
            /\ forall k,
                 (Z.of_nat (window_length (window_samples eight_samples 0.0005))
                  <= k)%Z ->
                 getZ output k = getZ input k).
Proof.
  eexists. eexists. split; [reflexivity|].
  apply (eq_morph_window eight_samples eight_samples 0.00025 0.0005).
  reflexivity.
Defined.

(** ** The stutter *)

Section Stutter.
Variables (s t q : Z) (input : list float).
Hypotheses (Hs : (0 <= s)%Z) (Ht : (0 <= t)%Z) (Hq : (0 < q)%Z).

Let len := Z.of_nat (List.length input).

Let copy_before (out : list float) (i : nat) : list float :=
  set_at out i (get input i).

Let replay (out : list float) (i : nat) : list float :=
  match add_integral (IntI s) (remI (Z.of_nat i) (IntI q)) with
  | Some srcIdx =>
      if (srcIdx <? len)%Z then
        match index_from (IntI s) (Z.of_nat i) with
        | Some targetIdx =>
            if (targetIdx <? len)%Z
            then setZ out targetIdx (getZ input srcIdx)
            else out
        | None => out
        end
      else out
  | None => out
  end.

Let copy_after (out : list float) (i : Z) : list float :=
  setZ out i (getZ input i).

Lemma copy_before_length out i :
  List.length (copy_before out i) = List.length out.
Proof. apply set_at_length. Qed.

Lemma replay_length out i : List.length (replay out i) = List.length out.
Proof.
  unfold replay. destruct (add_integral _ _) as [src|]; [|reflexivity].
  destruct (src <? len)%Z; [|reflexivity]. cbn [index_from].
  destruct (_ <? len)%Z; [apply setZ_length | reflexivity].
Qed.

Lemma copy_after_length out i :
  List.length (copy_after out i) = List.length out.
Proof. apply setZ_length. Qed.

Lemma replay_target out i k :
  (s + Z.of_nat i <> k)%Z -> getZ (replay out i) k = getZ out k.
Proof.
  intros H. unfold replay.
  destruct (add_integral _ _) as [src|]; [|reflexivity].
  destruct (src <? len)%Z; [|reflexivity]. cbn [index_from].
  destruct (_ <? len)%Z; [apply getZ_setZ_other, H | reflexivity].
Qed.

Lemma stutter_channel_sample (k : Z) :
  (0 <= k < len)%Z ->
  getZ (stutter_channel (IntI s) (IntI t) (IntI q)
          (seq 0 (Z.to_nat s)) (seq 0 (Z.to_nat t)) input) k
  = fround (getZ input (stutter_source s t q k)).
Proof.
  intros Hk. unfold stutter_channel. cbn [add_integral].
  fold len. fold copy_before. fold replay. fold copy_after.
  set (out0 := repeat 0 (List.length input)).
  set (out1 := fold_left copy_before (seq 0 (Z.to_nat s)) out0).
  set (out2 := fold_left replay (seq 0 (Z.to_nat t)) out1).
  assert (L0 : List.length out0 = List.length input) by apply repeat_length.
  assert (L1 : List.length out1 = List.length input).
  { unfold out1. rewrite loop_length; [exact L0 | apply copy_before_length]. }
  assert (L2 : List.length out2 = List.length input).
  { unfold out2. rewrite loop_length; [exact L1 | apply replay_length]. }
  unfold stutter_source.
  destruct (Z.ltb_spec k s) as [Hks | Hks].
  - (* before the stutter *)
    rewrite loop_untouched.
    2:{ intros out i Hi. apply Zrange_bounds in Hi.
        apply getZ_setZ_other. lia. }
    unfold out2. rewrite loop_untouched.
    2:{ intros out i _. apply replay_target. lia. }
    unfold out1.
    rewrite (seq_split (Z.to_nat s) (Z.to_nat k)) by lia.
    apply (loop_written copy_before _ _ _ _ _ (List.length input)).
    + apply copy_before_length.
    + intros out Hout. unfold copy_before.
      rewrite !getZ_nonneg by lia. unfold len in Hk.
      apply get_set_at_same. lia.
    + intros out y Hy. apply in_seq in Hy. unfold copy_before.
      rewrite !getZ_nonneg by lia.
      apply get_set_at_other. lia.
    + exact L0.
  - destruct (Z.ltb_spec k (s + t)) as [Hkt | Hkt].
    + (* inside the stutter *)
      rewrite loop_untouched.
      2:{ intros out i Hi. apply Zrange_bounds in Hi.
          apply getZ_setZ_other. lia. }
      unfold out2.
      rewrite (seq_split (Z.to_nat t) (Z.to_nat (k - s))) by lia.
      apply (loop_written replay _ _ _ _ _ (List.length input)).
      * apply replay_length.
      * intros out Hout. unfold replay. cbn [remI].
        destruct (Z.eqb_spec q 0) as [E | _]; [lia|].
        cbn [add_integral index_from].
        rewrite Z2Nat.id by lia.
        rewrite Z.rem_mod_nonneg by lia.
        pose proof (Z.mod_pos_bound (k - s) q Hq) as Hm.
        pose proof (Z.mod_le (k - s) q ltac:(lia) Hq) as Hle.
        destruct (Z.ltb_spec (s + (k - s) mod q) len) as [_ | Hge]; [|lia].
        replace (s + (k - s))%Z with k by lia.
        destruct (Z.ltb_spec k len) as [_ | Hge]; [|lia].
        apply getZ_setZ_same. unfold len in Hk. lia.
      * intros out y Hy. apply in_seq in Hy. apply replay_target. lia.
      * exact L1.
    + (* after the stutter *)
      rewrite (Zrange_split (s + t) len k) by lia.
      apply (loop_written copy_after _ _ _ _ _ (List.length input)).
      * apply copy_after_length.
      * intros out Hout. unfold copy_after.
        apply getZ_setZ_same. unfold len in Hk. lia.
      * intros out y Hy. apply Zrange_bounds in Hy. unfold copy_after.
        apply getZ_setZ_other. lia.
      * exact L2.
Qed.

End Stutter.

(** X17.  A stutter with whole, positive sample counts copies the input
    outside the stutter region and fills the region [start, start +
    length) with the first slice of the region, repeated: output sample
    [k] of the region is input sample [start + (k - start) mod slice]. *)
Theorem stutter_replays_slice (buffer : AudioBuffer)
  (startTime division bars bpm : float) (out : AudioBuffer) (s t q : Z) :
  invalid_stutter startTime division bars bpm = false ->
  applyStutter buffer startTime division bars bpm = Returned out ->
  window_start buffer startTime = IntI s ->
  stutter_samples buffer bars bpm = IntI t ->
  slice_samples buffer division bpm = IntI q ->
  (0 <= s)%Z -> (0 <= t)%Z -> (0 < q)%Z ->
  forall ch input, nth_error (channels buffer) ch = Some input ->
    exists output,
      nth_error (channels out) ch = Some output
      /\ List.length output = List.length input
      /\ forall k, (0 <= k < Z.of_nat (List.length input))%Z ->
           getZ output k = fround (getZ input (stutter_source s t q k)).
Proof.
  intros Hvalid Hrun Hstart Hlen Hslice Hs Ht Hq ch input Hin.
  unfold applyStutter in Hrun. rewrite Hvalid in Hrun.
  fold (window_start buffer startTime) in Hrun.
  fold (stutter_samples buffer bars bpm) in Hrun.
  fold (slice_samples buffer division bpm) in Hrun.
  rewrite Hstart, Hlen, Hslice in Hrun. cbn [loop_to] in Hrun.
  destruct (channels buffer) as [|c0 cs] eqn:E.
  { destruct ch; discriminate Hin. }
  rewrite <- E in Hrun. inversion Hrun; subst. cbn [channels].
  eexists. split; [rewrite E, nth_error_map, Hin; reflexivity|].
  split; [apply stutter_channel_length|].
  intros k Hk. apply stutter_channel_sample; assumption.
Qed.

Lemma stutter_replays_slice_witness :
  exists output,
    nth_error
      (channels
         {| sampleRate := 8000; buffer_length := 8;
            channels := [[0.5; 0.25; 0.125; -0.5; 0.5; 0.25; 0.125; -0.5]] |}) 0
    = Some output
    /\ List.length output = 8%nat
    /\ forall k, (0 <= k < 8)%Z ->
         getZ output k
         = fround (getZ [0.5; 0.25; 0.125; -0.5; -0.25; 1; 0.75; -1]
                        (stutter_source 0 32 4 k)).
Proof.
  refine (stutter_replays_slice eight_samples 0 8 1 60000
           {| sampleRate := 8000; buffer_length := 8;
              channels := [[0.5; 0.25; 0.125; -0.5; 0.5; 0.25; 0.125; -0.5]] |}
           0 32 4 eq_refl _ _ _ _ _ _ _
           0%nat [0.5; 0.25; 0.125; -0.5; -0.25; 1; 0.75; -1] eq_refl).
  - vm_compute. reflexivity.
  - reflexivity.
  - vm_compute. reflexivity.
  - vm_compute. reflexivity.
  - lia.
  - lia.
  - lia.
Defined.

End FXExtra.

(* ------------------------------------------------------------------ *)
(** * The layout of the merged channel *)
(* ------------------------------------------------------------------ *)

Module MergeFacts.
Import JS Merge MergeSpec ArrayFacts.
Local Open Scope float_scope.
Local Open Scope list_scope.

Section Layout.
Context {M : MathLib}.
Variables (style : TransitionStyle) (m lenA lenB : nat) (c : Z)
          (channelA channelB : list float).
Hypothesis (Hm : (m <= lenA)%nat).

Let a := faded c lenA m lenB.
Let actual := Z.min c (Z.min (Z.of_nat lenA - Z.of_nat m) (Z.of_nat lenB)).
Let total := (m + lenB)%nat.

Let copyA (out : list float) (i : nat) : list float :=
  set_at out i (get channelA i).

Let fade (out : list float) (i : Z) : list float :=
  setZ out i (crossfade_sample style m m lenA lenB actual channelA channelB i).

Let copyB (out : list float) (i : Z) : list float :=
  let indexB := (i - Z.of_nat m)%Z in
  if (0 <=? indexB)%Z && (indexB <? Z.of_nat lenB)%Z
  then setZ out i (getZ channelB indexB)
  else out.

Lemma copyB_length out i : List.length (copyB out i) = List.length out.
Proof.
  unfold copyB. cbv zeta. destruct (_ && _); [apply setZ_length | reflexivity].
Qed.

Lemma copyB_other out i k : i <> k -> getZ (copyB out i) k = getZ out k.
Proof.
  intros H. unfold copyB. cbv zeta.
  destruct (_ && _); [apply getZ_setZ_other, H | reflexivity].
Qed.

Lemma merge_channel_loops :
  merge_channel style m (IntI c) lenA lenB channelA channelB
  = Returned
      (fold_left copyB (Zrange (Z.of_nat m + actual) (Z.of_nat total))
         (fold_left fade (Zrange (Z.of_nat m) (Z.of_nat m + actual))
            (fold_left copyA (seq 0 m) (repeat 0 total)))).
Proof.
  unfold merge_channel. cbn [actualCrossfadeSamples].
  rewrite (Nat.min_l m lenA Hm). fold actual. fold total.
  replace (Z.min (Z.of_nat m + actual) (Z.of_nat total))
    with (Z.of_nat m + actual)%Z by (unfold actual, total; lia).
  reflexivity.
Qed.

Lemma merge_channel_sample (out : list float) :
  merge_channel style m (IntI c) lenA lenB channelA channelB = Returned out ->
  List.length out = total
  /\ (forall k, (0 <= k < Z.of_nat m)%Z -> getZ out k = fround (getZ channelA k))
  /\ (forall k, (Z.of_nat m <= k < Z.of_nat m + a)%Z ->
        getZ out k
        = fround (crossfade_sample style m m lenA lenB a channelA channelB k))
  /\ (forall k, (Z.of_nat m + a <= k < Z.of_nat total)%Z ->
        getZ out k = fround (getZ channelB (k - Z.of_nat m))).
Proof.
  rewrite merge_channel_loops. intros H. inversion H; subst out. clear H.
  set (out0 := repeat 0 total).
  set (out1 := fold_left copyA (seq 0 m) out0).
  set (out2 := fold_left fade _ out1).
  assert (L0 : List.length out0 = total) by apply repeat_length.
  assert (L1 : List.length out1 = total).
  { unfold out1. rewrite loop_length; [exact L0|].
    intros out i. apply set_at_length. }
  assert (L2 : List.length out2 = total).
  { unfold out2. rewrite loop_length; [exact L1|].
    intros out i. apply setZ_length. }
  assert (Ha : a = Z.max 0 actual) by reflexivity.
  split; [rewrite loop_length; [exact L2 | apply copyB_length]|].
  split; [|split].
  - (* the part of track A before the overlap *)
    intros k Hk.
    rewrite loop_untouched.
    2:{ intros out i Hi. apply Zrange_bounds in Hi. unfold copyB. cbv zeta.
        destruct (Z.leb_spec 0 (i - Z.of_nat m)); cbn [andb]; [|reflexivity].
        destruct (_ <? _)%Z; [|reflexivity].
        apply getZ_setZ_other. lia. }
    unfold out2. rewrite loop_untouched.
    2:{ intros out i Hi. apply Zrange_bounds in Hi.
        apply getZ_setZ_other. lia. }
    unfold out1. rewrite (seq_split m (Z.to_nat k)) by lia.
    apply (loop_written copyA _ _ _ _ _ total).
    + intros out i. apply set_at_length.
    + intros out Hout. unfold copyA. rewrite !getZ_nonneg by lia.
      apply get_set_at_same. unfold total in Hout. lia.
    + intros out y Hy. apply in_seq in Hy. unfold copyA.
      rewrite !getZ_nonneg by lia. apply get_set_at_other. lia.
    + exact L0.
  - (* the crossfade *)
    intros k Hk.
    assert (Hpos : (0 < actual)%Z) by lia.
    replace a with actual by lia.
    rewrite loop_untouched.
    2:{ intros out i Hi. apply Zrange_bounds in Hi.
        apply copyB_other. lia. }
    unfold out2.
    rewrite (Zrange_split (Z.of_nat m) (Z.of_nat m + actual) k) by lia.
    apply (loop_written fade _ _ _ _ _ total).
    + intros out i. apply setZ_length.
    + intros out Hout. unfold fade.
      apply getZ_setZ_same. unfold actual, total in *. lia.
    + intros out y Hy. apply Zrange_bounds in Hy. unfold fade.
      apply getZ_setZ_other. lia.
    + exact L1.
  - (* the rest of track B *)
    intros k Hk.
    assert (Hk' : (Z.of_nat m + actual <= k < Z.of_nat total)%Z) by lia.
    rewrite (Zrange_split (Z.of_nat m + actual) (Z.of_nat total) k) by lia.
    apply (loop_written copyB _ _ _ _ _ total).
    + apply copyB_length.
    + intros out Hout. unfold copyB. cbv zeta.
      destruct (Z.leb_spec 0 (k - Z.of_nat m)) as [_ | Hn]; [|lia].
      destruct (Z.ltb_spec (k - Z.of_nat m) (Z.of_nat lenB)) as [_ | Hn];
        [|unfold total in Hk; lia].
      cbn [andb]. apply getZ_setZ_same. lia.
    + intros out y Hy. apply Zrange_bounds in Hy. apply copyB_other. lia.
    + exact L2.
Qed.

End Layout.

(** X18.  The merged channel, for a crossfade of a whole number of
    samples: the samples of track A before the overlap, then the
    crossfade, then the rest of track B.  Sample [k] of the crossfade
    is [A[k] * gainA + B[k - overlap] * gainB] at the fade position
    [x = (k - overlap) / n], [n] being the number of samples crossfaded:
    the gains are [1 - s] and [s] with [s = x * x * (3 - 2 * x)] for
    hard_downbeat, [1 - x] and [x] for vocal_aware, and
    [Math.cos(x * Math.PI * 0.5)] and [Math.sin(x * Math.PI * 0.5)] for
    the other styles.  The channel is as long as the overlap offset plus
    track B: what track A holds after the crossfade is not in the mix. *)
Theorem merged_channel_layout (M : MathLib) (style : TransitionStyle)
  (maxOverlap lengthA lengthB : nat) (crossfadeSamples : Z)
  (channelA channelB : list float) :
  (maxOverlap <= lengthA)%nat ->
  let n := faded crossfadeSamples lengthA maxOverlap lengthB in
  exists out,
    merge_channel style maxOverlap (IntI crossfadeSamples) lengthA lengthB
                  channelA channelB = Returned out
    /\ List.length out = (maxOverlap + lengthB)%nat
    /\ (forall k, (0 <= k < Z.of_nat maxOverlap)%Z ->
          getZ out k = fround (getZ channelA k))
    /\ (forall k, (Z.of_nat maxOverlap <= k < Z.of_nat maxOverlap + n)%Z ->
          let a := getZ channelA k in
          let b := getZ channelB (k - Z.of_nat maxOverlap) in
          let x := Z2f (k - Z.of_nat maxOverlap) / Z2f n in
          let s := x * x * (3 - 2 * x) in
          getZ out k
          = fround
              match style with
              | hard_downbeat => a * (1 - s) + b * s
              | vocal_aware => a * (1 - x) + b * x
              | _ => a * Math_cos (x * Math_PI * 0.5)
                     + b * Math_sin (x * Math_PI * 0.5)
              end)
    /\ (forall k,
          (Z.of_nat maxOverlap + n <= k < Z.of_nat (maxOverlap + lengthB))%Z ->
          getZ out k = fround (getZ channelB (k - Z.of_nat maxOverlap))).
Proof.
  intros Hm n.
  destruct (merge_channel style maxOverlap (IntI crossfadeSamples) lengthA
              lengthB channelA channelB) as [out| |] eqn:E.
  - exists out. split; [reflexivity|].
    destruct (merge_channel_sample style maxOverlap lengthA lengthB
                crossfadeSamples channelA channelB Hm out E)
      as (L & HA & HX & HB).
    split; [exact L|]. split; [exact HA|]. split; [|exact HB].
    intros k Hk. cbv zeta. rewrite (HX k Hk).
    f_equal. unfold crossfade_sample. fold n.
    assert (Hn : (0 <? n)%Z = true) by (apply Z.ltb_lt; lia).
    assert (HkA : (k <? Z.of_nat lengthA)%Z = true).
    { apply Z.ltb_lt. unfold n, faded in Hk. lia. }
    assert (Hk0 : (0 <=? k - Z.of_nat maxOverlap)%Z = true)
      by (apply Z.leb_le; lia).
    assert (HkB : (k - Z.of_nat maxOverlap <? Z.of_nat lengthB)%Z = true).
    { apply Z.ltb_lt. unfold n, faded in Hk. lia. }
    rewrite Hn, HkA, Hk0, HkB. cbn [andb].
    destruct style; reflexivity.
  - rewrite merge_channel_loops in E by exact Hm. discriminate E.
  - rewrite merge_channel_loops in E by exact Hm. discriminate E.
Qed.

Lemma merged_channel_layout_witness :
  (2 <= 6)%nat
  /\ merge_channel (M := rounded_math) hard_downbeat 2 (IntI 4) 6 5
       [0.5; 0.25; 1; 1; 1; 1] [0.125; 0.5; -0.5; 0.25; 0.75]
     = Returned [0.5; 0.25; 1; 0.921875; 0.25; 0.3671875; 0.75]
  /\ exists out,
       merge_channel (M := rounded_math) hard_downbeat 2 (IntI 4) 6 5
         [0.5; 0.25; 1; 1; 1; 1] [0.125; 0.5; -0.5; 0.25; 0.75]
       = Returned out
       /\ List.length out = 7%nat
       /\ getZ out 3
          = fround (1 * (1 - 0.25 * 0.25 * (3 - 2 * 0.25))
                    + 0.5 * (0.25 * 0.25 * (3 - 2 * 0.25))).
Proof.
  split; [lia|]. split; [vm_compute; reflexivity|].
  destruct (merged_channel_layout rounded_math hard_downbeat 2 6 5 4
              [0.5; 0.25; 1; 1; 1; 1] [0.125; 0.5; -0.5; 0.25; 0.75]
              ltac:(lia)) as (out & E & L & _ & X & _).
  exists out. split; [exact E|]. split; [exact L|].
  exact (X 3%Z ltac:(vm_compute; split; [discriminate | reflexivity])).
Defined.

End MergeFacts.

(* ------------------------------------------------------------------ *)
(** * The crossfade gains *)
(* ------------------------------------------------------------------ *)

Module GainFacts.
Import JS Merge MergeSpec.
Local Open Scope float_scope.
Local Open Scope list_scope.




End GainFacts.

(* ------------------------------------------------------------------ *)
(** * The true-peak limiter *)
(* ------------------------------------------------------------------ *)

Module LimiterFacts.
Import JS Mastering FloatSpec ArrayFacts Binary64 InputsM.
Local Open Scope float_scope.
Local Open Scope list_scope.

Lemma get_repeat_zero (n i : nat) : (i < n)%nat -> get (repeat 0 n) i = 0.
Proof.
  unfold get. revert i. induction n as [|n IH]; intros [|i] H; simpl;
    try lia; [reflexivity | apply IH; lia].
Qed.

(** The output channel of a sample loop: as long as the buffer, written
    where the input has a sample and left at 0 elsewhere. *)
Lemma write_channel_spec (length : nat) (input : list float)
  (value : nat -> float) :
  List.length (write_channel length input value) = length
  /\ forall i, (i < length)%nat ->
       get (write_channel length input value) i
       = if (i <? List.length input)%nat then fround (value i) else 0.
Proof.
  unfold write_channel.
  set (step := fun (output : list float) (i : nat) => set_at output i (value i)).
  assert (Hlen : forall out y, List.length (step out y) = List.length out)
    by (intros; apply set_at_length).
  split; [rewrite loop_length by exact Hlen; apply repeat_length|].
  intros i Hi. rewrite <- !getZ_of_nat.
  destruct (Nat.ltb_spec i (List.length input)) as [Hin | Hout].
  - rewrite (seq_split (List.length input) i Hin).
    apply (loop_written step _ _ _ _ _ length).
    + exact Hlen.
    + intros out Hout. unfold step. rewrite getZ_of_nat.
      apply get_set_at_same. lia.
    + intros out y Hy. apply in_seq in Hy. unfold step.
      rewrite !getZ_of_nat. apply get_set_at_other. lia.
    + apply repeat_length.
  - rewrite loop_untouched.
    + rewrite getZ_of_nat. apply get_repeat_zero, Hi.
    + intros out y Hy. apply in_seq in Hy. unfold step.
      rewrite !getZ_of_nat. apply get_set_at_other. lia.
Qed.

Section WithMath.
Context {MM : MasteringMath}.

(** The lookahead peak is the magnitude of one of the samples of the
    window. *)
Lemma lookahead_peak_member (input : list float) (i : nat) :
  (i < List.length input)%nat ->
  exists j, (i <= j <= i + 10)%nat /\ (j < List.length input)%nat
            /\ lookahead_peak input i = Math_abs (get input j).
Proof.
  intros Hi. unfold lookahead_peak. cbv zeta.
  set (n := Nat.min 10 (List.length input - 1 - i)).
  assert (Hl : forall j, In j (seq 1 n) ->
                 (i <= i + j <= i + 10)%nat /\ (i + j < List.length input)%nat)
    by (intros j Hj; apply in_seq in Hj; unfold n in Hj; lia).
  assert (H0 : exists j, (i <= j <= i + 10)%nat /\ (j < List.length input)%nat
                 /\ Math_abs (get input i) = Math_abs (get input j))
    by (exists i; repeat split; lia).
  revert Hl H0. generalize (seq 1 n) (Math_abs (get input i)).
  intros l. induction l as [|j l IH]; intros acc Hl H0; cbn [fold_left];
    [exact H0|].
  apply IH; [intros k Hk; apply Hl; now right|].
  unfold Math_max.
  destruct (is_nan acc || is_nan (Math_abs (get input (i + j)))) eqn:N.
  - (* a NaN peak is the magnitude of a NaN sample *)
    apply orb_true_iff in N. destruct N as [N | N].
    + destruct H0 as (j0 & B0 & L0 & E0). exists j0.
      repeat split; try lia. rewrite <- E0.
      apply Prim2SF_inj. rewrite (Prim2SF_nan acc N). reflexivity.
    + destruct (Hl j (or_introl eq_refl)) as [B L].
      exists (i + j)%nat. repeat split; try lia.
      apply Prim2SF_inj.
      rewrite (Prim2SF_nan _ N). reflexivity.
  - destruct (acc <? Math_abs (get input (i + j))).
    + destruct (Hl j (or_introl eq_refl)) as [B L].
      exists (i + j)%nat. repeat split; try lia.
    + destruct (Math_abs (get input (i + j)) <? acc); [exact H0|].
      destruct (get_sign acc); [|exact H0].
      destruct (Hl j (or_introl eq_refl)) as [B L].
      exists (i + j)%nat. repeat split; try lia.
Qed.

(** One output sample of the limiter. *)
Lemma limit_sample_clipped (ceilingLinear : float) (input : list float)
  (i : nat) :
  (forall x, is_nan x = false ->
     (-1 <=? Math_tanh x) = true /\ (Math_tanh x <=? 1) = true) ->
  (is_nan ceilingLinear = true \/ (0 <=? ceilingLinear) = true) ->
  (forall x, In x input -> is_finite x = true) ->
  (i < List.length input)%nat ->
  (Math_abs (fround (limit_sample ceilingLinear input i)) <? 0.95) = true
  /\ exists sample,
       is_nan sample = false
       /\ limit_sample ceilingLinear input i = Math_tanh (sample * 1.5) * 0.95
       /\ (sample = get input i
           \/ exists j,
                (i <= j <= i + 10)%nat /\ (j < List.length input)%nat
                /\ gtb (Math_abs (get input j)) ceilingLinear = true
                /\ sample = get input i
                            * (ceilingLinear / Math_abs (get input j))).
Proof.
  intros Htanh Hpow Hfin Hi.
  assert (Hget : forall j, (j < List.length input)%nat ->
                   finite_sf (Prim2SF (get input j))).
  { intros j Hj. apply is_finite_sf, Hfin. unfold get. apply nth_In, Hj. }
  destruct (lookahead_peak_member input i Hi) as (j & Bj & Lj & Ep).
  assert (Hs : exists sample,
             is_nan sample = false
             /\ limit_sample ceilingLinear input i
                = Math_tanh (sample * 1.5) * 0.95
             /\ (sample = get input i
                 \/ exists j,
                      (i <= j <= i + 10)%nat /\ (j < List.length input)%nat
                      /\ gtb (Math_abs (get input j)) ceilingLinear = true
                      /\ sample = get input i
                                  * (ceilingLinear / Math_abs (get input j)))).
  { unfold limit_sample. cbv zeta. rewrite Ep.
    destruct (gtb (Math_abs (get input j)) ceilingLinear) eqn:G.
    - exists (get input i * (ceilingLinear / Math_abs (get input j))).
      split; [|split; [reflexivity|]].
      + unfold gtb in G.
        destruct Hpow as [N | P];
          [rewrite (nan_not_below _ _ N) in G; discriminate G|].
        apply reduced_not_nan;
          [apply Hget, Hi | apply abs_finite_sf, Hget, Lj | exact P | exact G].
      + right. exists j. repeat split; try lia. exact G.
    - exists (get input i). split; [|split; [reflexivity | now left]].
      apply finite_sf_not_nan, Hget, Hi. }
  split; [|exact Hs].
  destruct Hs as (sample & Hn & -> & _).
  destruct (Htanh (sample * 1.5) (times_1_5_not_nan _ Hn)) as [L U].
  apply soft_clip_below_095; assumption.
Qed.

End WithMath.

(** [clipping_math] keeps [Math.tanh] within [-1, 1]. *)
Lemma clipping_math_bounds (x : float) :
  is_nan x = false ->
  (-1 <=? Math_tanh (MasteringMath := clipping_math) x) = true
  /\ (Math_tanh (MasteringMath := clipping_math) x <=? 1) = true.
Proof.
  intros H. cbn [Math_tanh clipping_math]. rewrite H.
  destruct (x <? -1) eqn:L; [split; reflexivity|].
  destruct (1 <? x) eqn:U; [split; reflexivity|].
  split; apply FloatOrder.not_ltb_leb; auto.
Qed.

(** C2.  For every input buffer with finite samples, every sample of
    the buffer [applyTruePeakLimiter] returns is below 0.95 in
    magnitude, because the soft clip is applied to every output sample:
    the sample stored is [Math.tanh(sample * 1.5) * 0.95] rounded to
    binary32, where [sample] is the input sample, scaled by
    [ceilingLinear / peak] when a peak of the lookahead window exceeds
    the ceiling.  [Math.tanh] is taken to return a number of [-1, 1]
    on every number, and [Math.pow] a ceiling that is not negative; the
    bound is strict because the store rounds 0.95 down. *)
Theorem limiter_output_below_095 (MM : MasteringMath) (buffer : AudioBuffer)
  (ceiling : float) :
  (forall x, is_nan x = false ->
     (-1 <=? Math_tanh x) = true /\ (Math_tanh x <=? 1) = true) ->
  (is_nan (Math_pow 10 (ceiling / 20)) = true
   \/ (0 <=? Math_pow 10 (ceiling / 20)) = true) ->
  (forall input x, In input (channels buffer) -> In x input ->
     is_finite x = true) ->
  let limited := applyTruePeakLimiter buffer ceiling in
  let ceilingLinear := Math_pow 10 (ceiling / 20) in
  (forall output y, In output (channels limited) -> In y output ->
     (Math_abs y <? 0.95) = true)
  /\ numberOfChannels limited = numberOfChannels buffer
  /\ forall ch input, nth_error (channels buffer) ch = Some input ->
       exists output,
         nth_error (channels limited) ch = Some output
         /\ List.length output = buffer_length buffer
         /\ forall i, (i < buffer_length buffer)%nat ->
              (i < List.length input)%nat ->
              exists sample,
                is_nan sample = false
                /\ get output i = fround (Math_tanh (sample * 1.5) * 0.95)
                /\ (sample = get input i
                    \/ exists j,
                         (i <= j <= i + 10)%nat /\ (j < List.length input)%nat
                         /\ gtb (Math_abs (get input j)) ceilingLinear = true
                         /\ sample = get input i
                                     * (ceilingLinear / Math_abs (get input j))).
Proof.
  intros Htanh Hpow Hfin. cbv zeta.
  unfold applyTruePeakLimiter, numberOfChannels. cbn [channels].
  set (ceilingLinear := Math_pow 10 (ceiling / 20)) in *.
  assert (Hch : forall input, In input (channels buffer) ->
            let output := write_channel (buffer_length buffer) input
                            (limit_sample ceilingLinear input) in
            List.length output = buffer_length buffer
            /\ (forall i, (i < buffer_length buffer)%nat ->
                  (Math_abs (get output i) <? 0.95) = true)
            /\ (forall i, (i < buffer_length buffer)%nat ->
                  (i < List.length input)%nat ->
                  get output i = fround (limit_sample ceilingLinear input i))).
  { intros input Hin. cbv zeta.
    destruct (write_channel_spec (buffer_length buffer) input
                (limit_sample ceilingLinear input)) as [L G].
    split; [exact L|]. split.
    - intros i Hi. rewrite (G i Hi).
      destruct (Nat.ltb_spec i (List.length input)) as [Hlt | Hge];
        [|reflexivity].
      apply limit_sample_clipped; auto. intros x Hx. now apply (Hfin input).
    - intros i Hi Hlt. rewrite (G i Hi).
      apply Nat.ltb_lt in Hlt. now rewrite Hlt. }
  split; [|split].
  - intros output y Ho Hy. apply in_map_iff in Ho.
    destruct Ho as (input & <- & Hin).
    destruct (Hch input Hin) as (L & B & _).
    destruct (In_nth _ _ nan Hy) as (i & Hi & <-).
    rewrite L in Hi. apply (B i Hi).
  - apply length_map.
  - intros ch input Hch'.
    assert (Hin : In input (channels buffer)) by (eapply nth_error_In; eauto).
    destruct (Hch input Hin) as (L & _ & W).
    exists (write_channel (buffer_length buffer) input
              (limit_sample ceilingLinear input)).
    split; [|split; [exact L|]].
    + rewrite nth_error_map, Hch'. reflexivity.
    + intros i Hi Hlt. rewrite (W i Hi Hlt).
      destruct (limit_sample_clipped ceilingLinear input i Htanh Hpow
                  (fun x Hx => Hfin input x Hin Hx) Hlt)
        as (_ & sample & Hn & E & Hs).
      exists sample. split; [exact Hn|]. split; [now rewrite E | exact Hs].
Qed.

Lemma limiter_output_below_095_witness :
  (0 <=? Math_pow (MasteringMath := clipping_math) 10 (-1 / 20)) = true
  /\ (forall output y,
        In output
           (channels (applyTruePeakLimiter (MM := clipping_math) loud_clip (-1))) ->
        In y output -> (Math_abs y <? 0.95) = true)
  /\ channels (applyTruePeakLimiter (MM := clipping_math) loud_clip (-1))
     = [[fround (0.125 * 1.5 * 0.95); fround (-0.5 * 1.5 * 0.95);
         fround (0.125 * 1.5 * 0.95); fround (0.75 * 0.95)];
        [fround (0.125 * 1.5 * 0.95); 0;
         fround (-0.125 * 1.5 * 0.95); fround (0.25 * 1.5 * 0.95)]].
Proof.
  split; [reflexivity|]. split; [|vm_compute; reflexivity].
  refine (proj1 (limiter_output_below_095 clipping_math loud_clip (-1)
                   clipping_math_bounds (or_intror eq_refl) _)).
  intros input x Hin Hx.
  destruct Hin as [<- | [<- | []]];
    repeat (destruct Hx as [<- | Hx]; [reflexivity|]); destruct Hx.
Defined.

End LimiterFacts.

(* ------------------------------------------------------------------ *)
(** * The merge as a whole *)
(* ------------------------------------------------------------------ *)

Module PipelineFacts.
Import JS Renderer Pipeline Spec PipelineSpec MergeSpec Inputs InputsM.
Local Open Scope string_scope.
Local Open Scope float_scope.
Local Open Scope list_scope.

(** Without a sweep the FX loop neither reads nor advances the random
    source. *)
Lemma applyPlanFX_no_sweep (plan : TransitionPlan)
  (analysisA analysisB : AnalysisSummary) (fxs : list FX)
  (rng1 rng2 : RandomSource) (processedA processedB : AudioBuffer) :
  no_sweep fxs ->
  applyPlanFX plan analysisA analysisB fxs rng1 processedA processedB
  = (fst (applyPlanFX plan analysisA analysisB fxs rng2 processedA processedB),
     rng1).
Proof.
  intros Hns. revert processedA processedB.
  induction fxs as [|f rest IH]; intros A B; [reflexivity|].
  assert (Hrest : no_sweep rest) by (intros g Hg; apply Hns; now right).
  assert (Hf : fx_type f <> sweep) by (apply Hns; now left).
  specialize (IH Hrest).
  cbn [applyPlanFX].
  destruct ((fxTime plan analysisA f <? 0) || isNaN (fxTime plan analysisA f)
            || negb (isFinite (fxTime plan analysisA f))); [apply IH|].
  destruct (fx_type f); [congruence| | |].
  - destruct (FXProcessor.applyReverseReverb _ _ _); try apply IH; reflexivity.
  - destruct (FXProcessor.applyTapeStop _ _ _); try apply IH; reflexivity.
  - destruct (FXProcessor.applyStutter _ _ _ _ _); try apply IH; reflexivity.
Qed.

Lemma applyNoiseSweep_same_draws (rng1 rng2 : RandomSource)
  (buffer : AudioBuffer) (startTime duration : float) :
  same_draws rng1 rng2 ->
  fst (FXProcessor.applyNoiseSweep rng1 buffer startTime duration)
  = fst (FXProcessor.applyNoiseSweep rng2 buffer startTime duration)
  /\ same_draws
       (snd (FXProcessor.applyNoiseSweep rng1 buffer startTime duration))
       (snd (FXProcessor.applyNoiseSweep rng2 buffer startTime duration)).
Proof.
  intros H. unfold FXProcessor.applyNoiseSweep.
  destruct (FXProcessor.invalid_time_and_duration startTime duration);
    [split; [reflexivity | exact H]|].
  destruct (FXProcessor.typed_array_length _) as [n|];
    [|split; [reflexivity | exact H]].
  cbn [fst snd]. split.
  - do 3 f_equal. f_equal. apply map_ext. intros i. now rewrite H.
  - intros k. unfold advance. apply H.
Qed.

Lemma applyPlanFX_same_draws (plan : TransitionPlan)
  (analysisA analysisB : AnalysisSummary) (fxs : list FX) :
  forall (rng1 rng2 : RandomSource) (processedA processedB : AudioBuffer),
  same_draws rng1 rng2 ->
  fst (applyPlanFX plan analysisA analysisB fxs rng1 processedA processedB)
  = fst (applyPlanFX plan analysisA analysisB fxs rng2 processedA processedB)
  /\ same_draws
       (snd (applyPlanFX plan analysisA analysisB fxs rng1 processedA processedB))
       (snd (applyPlanFX plan analysisA analysisB fxs rng2 processedA processedB)).
Proof.
  induction fxs as [|f rest IH]; intros rng1 rng2 A B H;
    [split; [reflexivity | exact H]|].
  cbn [applyPlanFX].
  destruct ((fxTime plan analysisA f <? 0) || isNaN (fxTime plan analysisA f)
            || negb (isFinite (fxTime plan analysisA f))); [now apply IH|].
  destruct (fx_type f).
  - destruct (applyNoiseSweep_same_draws rng1 rng2 A
                (fxTime plan analysisA f)
                (or_default (lookup "duration" (params f)) 1) H) as [E1 E2].
    destruct (FXProcessor.applyNoiseSweep rng1 _ _ _) as [o1 r1].
    destruct (FXProcessor.applyNoiseSweep rng2 _ _ _) as [o2 r2].
    cbn [fst snd] in E1, E2. subst o2.
    destruct o1; [now apply IH | now apply IH | split; [reflexivity | exact E2]].
  - destruct (FXProcessor.applyReverseReverb _ _ _);
      [now apply IH | now apply IH | split; [reflexivity | exact H]].
  - destruct (FXProcessor.applyTapeStop _ _ _);
      [now apply IH | now apply IH | split; [reflexivity | exact H]].
  - destruct (FXProcessor.applyStutter _ _ _ _ _);
      [now apply IH | now apply IH | split; [reflexivity | exact H]].
Qed.

Section WithMath.
Context {M : MathLib} {MM : MasteringMath}.

(** The result of [mergeAudioFiles] is a function of the outcome of the
    FX loop. *)
Lemma mergeAudioFiles_after_fx (contextRate : float)
  (bufferA bufferB : AudioBuffer) (crossfadeDuration : float)
  (mixMode : MixMode) (manualOverride : option PlanOverride) :
  exists after : outcome (AudioBuffer * AudioBuffer) -> outcome MergedAudioResult,
    forall rng,
      let analysisA := Analysis.analyzeTrack bufferA in
      let analysisB := Analysis.analyzeTrack bufferB in
      let plan := executed_plan analysisA analysisB mixMode manualOverride in
      let run := applyPlanFX plan analysisA analysisB (fx plan) rng
                   bufferA bufferB in
      mergeAudioFiles rng contextRate bufferA bufferB crossfadeDuration
                      mixMode manualOverride
      = (after (fst run),
         if ((buffer_length bufferA =? 0)%nat || (buffer_length bufferB =? 0)%nat)
            || (invalid_bpm (bpm analysisA) || invalid_bpm (bpm analysisB))
         then rng else snd run).
Proof.
  unfold mergeAudioFiles.
  destruct ((buffer_length bufferA =? 0)%nat || (buffer_length bufferB =? 0)%nat);
    [exists (fun _ => Thrown); reflexivity|].
  destruct (invalid_bpm (bpm (Analysis.analyzeTrack bufferA))
            || invalid_bpm (bpm (Analysis.analyzeTrack bufferB)));
    [exists (fun _ => Thrown); reflexivity|].
  cbn [orb].
  exists (fun o =>
            match o with
            | Returned (processedA, processedB) =>
                finish
                  (executed_plan (Analysis.analyzeTrack bufferA)
                     (Analysis.analyzeTrack bufferB) mixMode manualOverride)
                  (Analysis.analyzeTrack bufferA) (Analysis.analyzeTrack bufferB)
                  contextRate crossfadeDuration processedA processedB
            | Thrown => Thrown
            | Diverged => Diverged
            end).
  intros rng'. cbv zeta.
  destruct (applyPlanFX _ _ _ _ rng' bufferA bufferB) as [[[a b]| |] r];
    reflexivity.
Qed.

End WithMath.

(** C5 (as amended).  [mergeAudioFiles] reads the ambient random source
    [Math.random()] in the noise sweep and nowhere else.  Two runs on the
    same decoded buffers and the same configuration end the same way,
    with the same audio buffer, WAV bytes, analyses and plan, when the
    plan they execute has no sweep or when the random source delivers
    the same draws to both; without a sweep the run leaves the random
    source as it found it. *)
Theorem merge_random_only_in_sweep (M : MathLib) (MM : MasteringMath)
  (contextRate : float) (bufferA bufferB : AudioBuffer)
  (crossfadeDuration : float) (mixMode : MixMode)
  (manualOverride : option PlanOverride) (rng1 rng2 : RandomSource) :
  no_sweep (fx (executed_plan (Analysis.analyzeTrack bufferA)
                  (Analysis.analyzeTrack bufferB) mixMode manualOverride))
  \/ (forall k, rng1 k = rng2 k) ->
  fst (mergeAudioFiles rng1 contextRate bufferA bufferB crossfadeDuration
         mixMode manualOverride)
  = fst (mergeAudioFiles rng2 contextRate bufferA bufferB crossfadeDuration
           mixMode manualOverride)
  /\ (no_sweep (fx (executed_plan (Analysis.analyzeTrack bufferA)
                      (Analysis.analyzeTrack bufferB) mixMode manualOverride)) ->
      snd (mergeAudioFiles rng1 contextRate bufferA bufferB crossfadeDuration
             mixMode manualOverride)
      = rng1).
Proof.
  intros H.
  destruct (mergeAudioFiles_after_fx contextRate bufferA bufferB
              crossfadeDuration mixMode manualOverride) as [after E].
  rewrite (E rng1), (E rng2). cbv zeta. cbn [fst snd]. split.
  - f_equal. destruct H as [Hns | Hsame].
    + now rewrite (applyPlanFX_no_sweep _ _ _ _ rng1 rng2 _ _ Hns).
    + now apply applyPlanFX_same_draws.
  - intros Hns.
    rewrite (applyPlanFX_no_sweep _ _ _ _ rng1 rng2 _ _ Hns). cbn [snd].
    match goal with |- (if ?c then _ else _) = _ => destruct c end;
      reflexivity.
Qed.

Lemma merge_random_only_in_sweep_witness :
  no_sweep (fx (executed_plan
                  (Analysis.analyzeTrack (M := rounded_math) clip_48k)
                  (Analysis.analyzeTrack (M := rounded_math) clip_48k)
                  neutral (Some tape_stop_override)))
  /\ fst (mergeAudioFiles (M := rounded_math) (MM := clipping_math)
            low_draws 48000 clip_48k clip_48k 8 neutral
            (Some tape_stop_override))
     = fst (mergeAudioFiles (M := rounded_math) (MM := clipping_math)
              high_draws 48000 clip_48k clip_48k 8 neutral
              (Some tape_stop_override)).
Proof.
  assert (H : no_sweep (fx (executed_plan
                  (Analysis.analyzeTrack (M := rounded_math) clip_48k)
                  (Analysis.analyzeTrack (M := rounded_math) clip_48k)
                  neutral (Some tape_stop_override)))).
  { unfold executed_plan, validate_plan.
    destruct (_ <? 0); cbn [fx apply_override or_else o_fx tape_stop_override];
      intros f [<- | []]; discriminate. }
  split; [exact H|].
  exact (proj1 (merge_random_only_in_sweep rounded_math clipping_math 48000
                  clip_48k clip_48k 8 neutral (Some tape_stop_override)
                  low_draws high_draws (or_introl H))).
Defined.

(** ** What a merge returns *)

Section Result.
Context {M : MathLib} {MM : MasteringMath}.

Lemma makeBassMono_rate (buffer : AudioBuffer) (cutoffFreq : float) :
  sampleRate (Mastering.makeBassMono buffer cutoffFreq) = sampleRate buffer.
Proof.
  unfold Mastering.makeBassMono.
  destruct (channels buffer) as [|a [|b l]]; reflexivity.
Qed.

Lemma master_rate (plan : TransitionPlan)
  (processedA processedB mergedBuffer : AudioBuffer) :
  sampleRate (master plan processedA processedB mergedBuffer)
  = sampleRate mergedBuffer.
Proof.
  unfold master. cbv zeta. cbn [Mastering.applyTruePeakLimiter sampleRate
    Mastering.normalizeLoudness Mastering.applyGlueCompression].
  destruct (_ || _); [apply makeBassMono_rate | reflexivity].
Qed.

Lemma merge_buffers_rate (plan : TransitionPlan) (analysisA : AnalysisSummary)
  (contextRate crossfadeDuration : float) (processedA processedB : AudioBuffer)
  (mergedBuffer : AudioBuffer) :
  merge_buffers plan analysisA contextRate crossfadeDuration
                processedA processedB = Returned mergedBuffer ->
  sampleRate mergedBuffer = contextRate.
Proof.
  unfold merge_buffers. cbv zeta.
  destruct (_ || _); [discriminate|].
  destruct (floorI _); try discriminate.
  destruct (_ =? _)%nat; [discriminate|].
  destruct (merge_channels _ _ _ _ _ _); try discriminate.
  intros H. inversion H. reflexivity.
Qed.

End Result.

(** X27.  [mergeAudioFiles] throws, without a draw from the random
    source, when one of the decoded buffers has no frame.  When it
    returns, the result carries the analyses of the two buffers and the
    plan that was executed; its audio buffer has the sample rate of the
    audio context, at least one frame and one channel; and its blob is
    the WAV encoding of that buffer. *)
Theorem merge_result (M : MathLib) (MM : MasteringMath) (rng : RandomSource)
  (contextRate : float) (bufferA bufferB : AudioBuffer)
  (crossfadeDuration : float) (mixMode : MixMode)
  (manualOverride : option PlanOverride) :
  let analysisA := Analysis.analyzeTrack bufferA in
  let analysisB := Analysis.analyzeTrack bufferB in
  let run := mergeAudioFiles rng contextRate bufferA bufferB
               crossfadeDuration mixMode manualOverride in
  (buffer_length bufferA = O \/ buffer_length bufferB = O ->
   run = (Thrown, rng))
  /\ forall result, fst run = Returned result ->
       analysis_trackA result = analysisA
       /\ analysis_trackB result = analysisB
       /\ analysis_plan result
          = executed_plan analysisA analysisB mixMode manualOverride
       /\ sampleRate (audioBuffer result) = contextRate
       /\ (0 < buffer_length (audioBuffer result))%nat
       /\ (0 < numberOfChannels (audioBuffer result))%nat
       /\ bufferToWave (audioBuffer result) contextRate = Some (blob result).
Proof.
  cbv zeta. unfold mergeAudioFiles. split.
  - intros [H | H].
    + rewrite H. reflexivity.
    + rewrite H. rewrite orb_true_r. reflexivity.
  - intros result.
    destruct ((buffer_length bufferA =? 0)%nat || (buffer_length bufferB =? 0)%nat);
      [discriminate|].
    destruct (invalid_bpm _ || invalid_bpm _); [discriminate|].
    destruct (applyPlanFX _ _ _ _ _ _ _) as [[[processedA processedB]| |] rng'];
      cbn [fst]; try discriminate.
    unfold finish.
    destruct (applyStyleProcessing _ _ _ _) as [[pA pB]| |]; try discriminate.
    destruct (merge_buffers _ _ _ _ _ _) as [mergedBuffer| |] eqn:EM;
      try discriminate.
    destruct (bufferToWave _ _) as [bytes|] eqn:EW; [|discriminate].
    intros H. inversion H. subst result. clear H.
    cbn [analysis_trackA analysis_trackB analysis_plan audioBuffer blob].
    split; [reflexivity|]. split; [reflexivity|]. split; [reflexivity|].
    split; [rewrite master_rate; apply (merge_buffers_rate _ _ _ _ _ _ _ EM)|].
    assert (G : (buffer_length (master
                   (executed_plan (Analysis.analyzeTrack bufferA)
                      (Analysis.analyzeTrack bufferB) mixMode manualOverride)
                   pA pB mergedBuffer) =? 0)%nat
                || (numberOfChannels (master
                      (executed_plan (Analysis.analyzeTrack bufferA)
                         (Analysis.analyzeTrack bufferB) mixMode manualOverride)
                      pA pB mergedBuffer) =? 0)%nat = false).
    { unfold bufferToWave in EW. destruct (_ || _)%nat; [discriminate EW|].
      reflexivity. }
    apply orb_false_iff in G. destruct G as [G1 G2].
    apply Nat.eqb_neq in G1, G2.
    split; [lia|]. split; [lia | exact EW].
Qed.

Lemma merge_result_witness :
  mergeAudioFiles (M := rounded_math) (MM := clipping_math) low_draws 48000
    empty_buffer clip_48k 8 neutral None
  = (Thrown, low_draws)
  /\ exists result,
       fst (mergeAudioFiles (M := rounded_math) (MM := clipping_math)
              low_draws 48000 clip_48k clip_48k 8 neutral None)
       = Returned result
       /\ sampleRate (audioBuffer result) = 48000
       /\ bufferToWave (audioBuffer result) 48000 = Some (blob result)
       /\ buffer_length (audioBuffer result) = 32%nat
       /\ List.length (blob result) = 108%nat.
Proof.
  split.
  - apply (proj1 (merge_result rounded_math clipping_math low_draws 48000
                    empty_buffer clip_48k 8 neutral None)).
    left. reflexivity.
  - eexists. split; [vm_compute; reflexivity|].
    destruct (proj2 (merge_result rounded_math clipping_math low_draws 48000
                       clip_48k clip_48k 8 neutral None) _
                ltac:(vm_compute; reflexivity))
      as (_ & _ & _ & R & _ & _ & W).
    split; [exact R|]. split; [exact W|].
    split; vm_compute; reflexivity.
Defined.

(** With [Math.tanh] replaced by a clip to [-1, 1] and every power by
    0.5, a merge of two short clips under an override that asks for a
    noise sweep returns one audio buffer when every draw is 0.25 and
    another when every draw is 0.75. *)
Lemma merge_outputs_differ :
  fst (mergeAudioFiles (M := rounded_math) (MM := clipping_math) low_draws
         48000 loud_clip loud_clip 8 neutral (Some sweep_override))
  <> fst (mergeAudioFiles (M := rounded_math) (MM := clipping_math) high_draws
            48000 loud_clip loud_clip 8 neutral (Some sweep_override)).
Proof.
  intros H.
  apply (f_equal (fun o => match o with
                           | Returned r => buffer_bits (audioBuffer r)
                           | _ => []
                           end)) in H.
  vm_compute in H. discriminate H.
Qed.

End PipelineFacts.

(* ------------------------------------------------------------------ *)
(** * Further properties of the mastering chain *)
(* ------------------------------------------------------------------ *)

Module MasteringExtra.
Import JS Mastering MasteringSpec ArrayFacts Inputs InputsM.
Local Open Scope float_scope.
Local Open Scope list_scope.

(** ** Loudness *)

Lemma sum_fold {A} (g : A -> float) (l : list A) (acc : float) :
  fold_left PrimFloat.add (map g l) acc = fold_left (fun s x => s + g x) l acc.
Proof.
  revert acc. induction l as [|x l IH]; intros acc; cbn [map fold_left];
    [reflexivity | apply IH].
Qed.

Lemma squares_fold (data : list float) (s : float) (n : nat) :
  fold_left
    (fun '(sumSquared, sampleCount) x => (sumSquared + x * x, S sampleCount))
    data (s, n)
  = (fold_left (fun s x => s + x * x) data s, (n + List.length data)%nat).
Proof.
  revert s n. induction data as [|x data IH]; intros s n; cbn [fold_left].
  - cbn [List.length]. f_equal. lia.
  - rewrite IH. cbn [List.length]. f_equal. lia.
Qed.

Section WithMath.
Context {MM : MasteringMath}.

Lemma sum_squares_pooled (buffer : AudioBuffer) :
  sum_squares buffer
  = (sum_of_squares (all_samples buffer), List.length (all_samples buffer)).
Proof.
  unfold sum_squares, sum_of_squares, all_samples, sum.
  rewrite sum_fold.
  assert (G : forall chs s n,
            fold_left
              (fun acc data =>
                 fold_left
                   (fun '(sumSquared, sampleCount) x =>
                      (sumSquared + x * x, S sampleCount))
                   data acc)
              chs (s, n)
            = (fold_left (fun s x => s + x * x) (List.concat chs) s,
               (n + List.length (List.concat chs))%nat)).
  { induction chs as [|data chs IH]; intros s n; cbn [fold_left List.concat].
    - cbn [List.length]. f_equal. lia.
    - rewrite squares_fold, IH, fold_left_app, length_app. f_equal. lia. }
  apply G.
Qed.

Lemma silent_sum (samples : list float) :
  (forall x, In x samples -> (x =? 0) = true) ->
  sum_of_squares samples = 0.
Proof.
  unfold sum_of_squares, sum. rewrite sum_fold.
  assert (G : forall l, (forall x, In x l -> (x =? 0) = true) ->
                fold_left (fun s x => s + x * x) l 0 = 0).
  { induction l as [|x l IH]; intros H; cbn [fold_left]; [reflexivity|].
    assert (E : 0 + x * x = 0).
    { destruct (AnalyzerFacts.eqb_zero x (H x (or_introl eq_refl))) as [-> | ->];
        reflexivity. }
    rewrite E. apply IH. intros y Hy. apply H. now right. }
  apply G.
Qed.

(** X19.  [measureLUFS] pools the samples of all channels: with [rms]
    the square root of the mean of their squares, it returns
    [-0.691 + 10 * Math.log10(rms * rms)], and the floor -60 when there
    is no sample, when the sum of the squares is 0, or when [rms] or the
    result is not a positive finite number; what it returns is always
    finite, and -60 on a silent buffer.  [normalizeLoudness] keeps the
    shape of the buffer and multiplies every sample by
    [Math.pow(10, (targetLUFS - measured) / 20)]. *)
Theorem loudness_measure_and_gain (buffer : AudioBuffer) (targetLUFS : float) :
  let samples := all_samples buffer in
  let rms :=
    Math_sqrt (sum_of_squares samples / N2f (List.length samples)) in
  let lufs := -0.691 + 10 * Math_log10 (rms * rms) in
  let floored :=
    (List.length samples =? 0)%nat || (sum_of_squares samples =? 0)
    || (rms <=? 0) || negb (isFinite rms) || negb (isFinite lufs) in
  let measured := if floored then -60 else lufs in
  let normalized := normalizeLoudness buffer targetLUFS in
  measureLUFS buffer = measured
  /\ isFinite measured = true
  /\ ((forall x, In x samples -> (x =? 0) = true) -> measured = -60)
  /\ sampleRate normalized = sampleRate buffer
  /\ buffer_length normalized = buffer_length buffer
  /\ numberOfChannels normalized = numberOfChannels buffer
  /\ forall ch input, nth_error (channels buffer) ch = Some input ->
       exists output,
         nth_error (channels normalized) ch = Some output
         /\ List.length output = buffer_length buffer
         /\ forall i, (i < buffer_length buffer)%nat ->
              (i < List.length input)%nat ->
              get output i
              = fround (get input i
                        * Math_pow 10 ((targetLUFS - measured) / 20)).
Proof.
  cbv zeta.
  set (samples := all_samples buffer).
  set (rms := Math_sqrt (sum_of_squares samples / N2f (List.length samples))).
  set (lufs := -0.691 + 10 * Math_log10 (rms * rms)).
  assert (E : measureLUFS buffer
              = if (List.length samples =? 0)%nat
                   || (sum_of_squares samples =? 0)
                   || (rms <=? 0) || negb (isFinite rms)
                   || negb (isFinite lufs)
                then -60 else lufs).
  { unfold measureLUFS. rewrite sum_squares_pooled. fold samples.
    destruct ((List.length samples =? 0)%nat || (sum_of_squares samples =? 0));
      [reflexivity|].
    cbn [orb]. fold rms.
    destruct ((rms <=? 0) || negb (isFinite rms)); [reflexivity|].
    cbn [orb]. fold lufs.
    destruct (isFinite lufs); reflexivity. }
  split; [exact E|]. split; [|split].
  - destruct (_ || negb (isFinite lufs)) eqn:F; [reflexivity|].
    apply orb_false_iff in F. destruct F as [_ F].
    now apply negb_false_iff in F.
  - intros H. rewrite (silent_sum samples H).
    change (0 =? 0) with true. rewrite orb_true_r. reflexivity.
  - split; [reflexivity|]. split; [reflexivity|].
    split; [apply length_map|].
    intros ch input Hch.
    destruct (LimiterFacts.write_channel_spec (buffer_length buffer) input
                (fun i => get input i
                          * Math_pow 10 ((targetLUFS - measureLUFS buffer) / 20)))
      as [L G].
    eexists. split; [|split; [exact L|]].
    + unfold normalizeLoudness. cbn [channels].
      rewrite nth_error_map, Hch. reflexivity.
    + intros i Hi Hlt. rewrite (G i Hi).
      apply Nat.ltb_lt in Hlt. rewrite Hlt, E. reflexivity.
Qed.

End WithMath.

Lemma loudness_measure_and_gain_witness :
  measureLUFS (MM := clipping_math) (silence 4) = -60
  /\ channels (normalizeLoudness (MM := clipping_math) loud_clip (-14))
     = [[0.25; -1; 0.125; 0.5]; [0.0625; 0; -0.0625; 0.125]]
  /\ isFinite (measureLUFS (MM := clipping_math) loud_clip) = true.
Proof.
  split; [vm_compute; reflexivity|]. split; [vm_compute; reflexivity|].
  destruct (loudness_measure_and_gain (MM := clipping_math) loud_clip (-14))
    as (E & F & _).
  rewrite E. exact F.
Defined.

(** ** Glue compression *)

Lemma firstn_snoc (l : list float) (n : nat) :
  (n < List.length l)%nat -> firstn (S n) l = firstn n l ++ [get l n].
Proof.
  unfold get. revert n. induction l as [|x l IH]; intros n H;
    cbn [List.length] in H; [lia|].
  destruct n as [|n]; [reflexivity|].
  cbn [firstn nth app]. f_equal. apply IH. lia.
Qed.

Section Compressor.
Context {MM : MasteringMath}.
Variables (thresholdLinear attackSamples releaseSamples ratio : float).
Variables (length : nat) (input : list float).

(** The gain of a sample, from the envelope reached at that sample. *)
Let gain (envelope : float) : float :=
  if gtb envelope thresholdLinear
  then Math_pow (envelope / thresholdLinear) (1 / ratio - 1)
  else 1.

Let step : float * list float -> nat -> float * list float :=
  fun '(envelope, output) i =>
    let '(envelope, y) :=
      compress_step thresholdLinear attackSamples releaseSamples ratio
                    envelope (get input i) in
    (envelope, set_at output i y).

Lemma compress_loop (n : nat) :
  (n <= List.length input)%nat ->
  let state := fold_left step (seq 0 n) (0, repeat 0 length) in
  fst state = envelope_after attackSamples releaseSamples (firstn n input)
  /\ List.length (snd state) = length
  /\ forall i, (i < n)%nat -> (i < length)%nat ->
       get (snd state) i
       = fround (get input i
                 * gain (envelope_after attackSamples releaseSamples
                           (firstn (S i) input))).
Proof.
  induction n as [|n IH]; intros Hn; cbv zeta.
  - cbn [seq fold_left fst snd firstn]. split; [reflexivity|].
    split; [apply repeat_length | intros i Hi; lia].
  - rewrite seq_S, fold_left_app. cbn [fold_left Nat.add].
    specialize (IH ltac:(lia)). cbv zeta in IH.
    destruct (fold_left step (seq 0 n) (0, repeat 0 length)) as [envelope output].
    cbn [fst snd] in IH. destruct IH as (E & L & G).
    assert (Eenv : envelope_after attackSamples releaseSamples
                     (firstn (S n) input)
                   = follow attackSamples releaseSamples envelope (get input n)).
    { rewrite firstn_snoc by lia. unfold envelope_after.
      rewrite fold_left_app. cbn [fold_left]. fold (envelope_after attackSamples releaseSamples (firstn n input)).
      rewrite <- E. reflexivity. }
    unfold step. unfold compress_step. cbv zeta. cbn [fst snd].
    fold (follow attackSamples releaseSamples envelope (get input n)).
    rewrite <- Eenv.
    split; [reflexivity|]. split; [rewrite set_at_length; exact L|].
    intros i Hi Hlen.
    destruct (Nat.eq_dec i n) as [-> | Hne].
    + rewrite get_set_at_same by lia. reflexivity.
    + rewrite get_set_at_other by lia. apply G; lia.
Qed.

Lemma compress_channel_spec :
  let output :=
    compress_channel thresholdLinear attackSamples releaseSamples ratio
                     length input in
  List.length output = length
  /\ forall i, (i < length)%nat -> (i < List.length input)%nat ->
       get output i
       = fround (get input i
                 * gain (envelope_after attackSamples releaseSamples
                           (firstn (S i) input))).
Proof.
  cbv zeta. unfold compress_channel.
  destruct (compress_loop (List.length input) ltac:(lia)) as (_ & L & G).
  cbv zeta in L, G. split; [exact L|].
  intros i Hi Hlt. apply G; assumption.
Qed.

End Compressor.

(** X20.  [applyGlueCompression] keeps the shape of the buffer.  On
    every channel the envelope starts at 0 and moves, at each sample,
    towards the magnitude of the sample: by 1/[attackSamples] of the
    distance when the magnitude is above it, by 1/[releaseSamples]
    otherwise.  Sample [i] is stored multiplied by 1 while the envelope
    reached at [i] is at most the threshold, and by
    [Math.pow(envelope / thresholdLinear, 1 / ratio - 1)] above it. *)
Theorem glue_compression_samples (MM : MasteringMath) (buffer : AudioBuffer)
  (threshold ratio : float) :
  let thresholdLinear := Math_pow 10 (threshold / 20) in
  let attackSamples := Math_floor (0.01 * sampleRate buffer) in
  let releaseSamples := Math_floor (0.08 * sampleRate buffer) in
  let compressed := applyGlueCompression buffer threshold ratio in
  sampleRate compressed = sampleRate buffer
  /\ buffer_length compressed = buffer_length buffer
  /\ numberOfChannels compressed = numberOfChannels buffer
  /\ forall ch input, nth_error (channels buffer) ch = Some input ->
       exists output,
         nth_error (channels compressed) ch = Some output
         /\ List.length output = buffer_length buffer
         /\ forall i, (i < buffer_length buffer)%nat ->
              (i < List.length input)%nat ->
              let envelope :=
                envelope_after attackSamples releaseSamples
                               (firstn (S i) input) in
              get output i
              = fround (get input i
                        * (if gtb envelope thresholdLinear
                           then Math_pow (envelope / thresholdLinear)
                                         (1 / ratio - 1)
                           else 1)).
Proof.
  cbv zeta. split; [reflexivity|]. split; [reflexivity|].
  split; [apply length_map|].
  intros ch input Hch.
  destruct (compress_channel_spec (Math_pow 10 (threshold / 20))
              (Math_floor (0.01 * sampleRate buffer))
              (Math_floor (0.08 * sampleRate buffer)) ratio
              (buffer_length buffer) input) as [L G].
  eexists. split; [|split; [exact L | exact G]].
  unfold applyGlueCompression. cbn [channels].
  rewrite nth_error_map, Hch. reflexivity.
Qed.

Lemma glue_compression_samples_witness :
  channels (applyGlueCompression (MM := clipping_math) slow_clip (-12) 2)
  = [[0.25; 0.5; -0.25]]
  /\ envelope_after 1 8 [0.25; 1; -0.5] = 0.9375
  /\ exists output,
       nth_error (channels (applyGlueCompression (MM := clipping_math)
                              slow_clip (-12) 2)) 0 = Some output
       /\ get output 2 = fround (-0.5 * 0.5).
Proof.
  split; [vm_compute; reflexivity|]. split; [vm_compute; reflexivity|].
  destruct (glue_compression_samples clipping_math slow_clip (-12) 2)
    as (_ & _ & _ & H).
  destruct (H 0%nat [0.25; 1; -0.5] eq_refl) as (output & E & _ & G).
  exists output. split; [exact E|].
  exact (G 2%nat ltac:(simpl; lia) ltac:(simpl; lia)).
Defined.

(** ** Bass mono *)

Lemma window_fold (f g : Z -> float) (js : list Z) (a b : float) (n : nat) :
  fold_left
    (fun '(avgLeft, avgRight, count) j => (avgLeft + f j, avgRight + g j, S count))
    js (a, b, n)
  = (fold_left PrimFloat.add (map f js) a, fold_left PrimFloat.add (map g js) b,
     (n + List.length js)%nat).
Proof.
  revert a b n. induction js as [|j js IH]; intros a b n;
    cbn [fold_left map List.length].
  - f_equal. lia.
  - rewrite IH. f_equal. lia.
Qed.

Lemma get_map_seq (f : nat -> float) (n i : nat) :
  (i < n)%nat -> get (map f (seq 0 n)) i = f i.
Proof.
  intros H. unfold get.
  rewrite (nth_indep _ nan (f 0%nat)) by (rewrite length_map, length_seq; lia).
  rewrite map_nth, seq_nth by lia. reflexivity.
Qed.

Lemma Zrange_length (lo hi : Z) :
  Z.of_nat (List.length (Zrange lo hi)) = Z.max 0 (hi - lo).
Proof. unfold Zrange. rewrite length_map, length_seq. lia. Qed.

(** X21.  [makeBassMono] returns a buffer with fewer than two channels
    as it is.  Otherwise the result has the shape of the input; with
    [w] the whole number [Math.floor(sampleRate / (cutoffFreq * 2))] and
    the window of frame [i] the frames from [max(0, i - w)] up to, not
    including, [min(length, i + w)], the left sample of frame [i] is
    [(sumLeft + sumRight) / (count * 2) + (left[i] - sumLeft / count)],
    the sums being over the window and [count] its size, and the right
    sample likewise; every channel after the second is silent in the
    result. *)
Theorem bass_mono_frames (buffer : AudioBuffer) (cutoffFreq : float) :
  let output := makeBassMono buffer cutoffFreq in
  ((numberOfChannels buffer < 2)%nat -> output = buffer)
  /\ forall inLeft inRight others,
       channels buffer = inLeft :: inRight :: others ->
       sampleRate output = sampleRate buffer
       /\ buffer_length output = buffer_length buffer
       /\ exists outLeft outRight,
            channels output
            = outLeft :: outRight
              :: map (fun _ => repeat 0 (buffer_length buffer)) others
            /\ List.length outLeft = buffer_length buffer
            /\ List.length outRight = buffer_length buffer
            /\ forall w,
                 floorI (sampleRate buffer / (cutoffFreq * 2)) = IntI w ->
                 forall i, (i < buffer_length buffer)%nat ->
                   let lo := Z.max 0 (Z.of_nat i - w) in
                   let hi :=
                     Z.min (Z.of_nat (buffer_length buffer)) (Z.of_nat i + w) in
                   let sumLeft := sum (map (getZ inLeft) (Zrange lo hi)) in
                   let sumRight := sum (map (getZ inRight) (Zrange lo hi)) in
                   let count := Z2f (Z.max 0 (hi - lo)) in
                   get outLeft i
                   = fround ((sumLeft + sumRight) / (count * 2)
                             + (get inLeft i - sumLeft / count))
                   /\ get outRight i
                      = fround ((sumLeft + sumRight) / (count * 2)
                                + (get inRight i - sumRight / count)).
Proof.
  cbv zeta. split.
  - unfold makeBassMono, numberOfChannels.
    destruct (channels buffer) as [|a [|b l]]; cbn [List.length];
      intros H; try reflexivity; lia.
  - intros inLeft inRight others Hch. unfold makeBassMono. rewrite Hch.
    cbn [sampleRate buffer_length channels].
    split; [reflexivity|]. split; [reflexivity|].
    eexists. eexists. split; [reflexivity|].
    split; [rewrite !length_map, length_seq; reflexivity|].
    split; [rewrite !length_map, length_seq; reflexivity|].
    intros w Hw i Hi. rewrite Hw.
    rewrite !map_map, !get_map_seq by exact Hi.
    unfold bass_mono_frame, window.
    rewrite window_fold. cbn [Nat.add fst snd].
    unfold N2f. rewrite Zrange_length. unfold sum. split; reflexivity.
Qed.

Lemma bass_mono_frames_witness :
  channels (makeBassMono loud_clip 120)
  = [[0.5625; -1.9375; 0.3125; 1.0625]; [0.0625; -0.0625; -0.1875; 0.1875]]
  /\ makeBassMono slow_clip 120 = slow_clip
  /\ buffer_length (makeBassMono loud_clip 120) = 4%nat.
Proof.
  split; [vm_compute; reflexivity|].
  destruct (bass_mono_frames slow_clip 120) as [H _].
  split; [apply H; unfold numberOfChannels, slow_clip; simpl; lia|].
  destruct (bass_mono_frames loud_clip 120) as [_ H'].
  destruct (H' _ _ _ eq_refl) as (_ & L & _). exact L.
Defined.

(** ** Phase check *)

(** X22.  [checkPhaseCorrelation] returns 1 when one of the buffers has
    fewer than two channels or the first channels share no frame.
    Otherwise it is the mean, over the frames the two first channels
    share, of the product of mid [(leftA + rightA + leftB + rightB) / 4]
    and side [(leftA - rightA + leftB - rightB) / 4], and 1 when that
    mean is not finite: the value returned is always finite. *)
Theorem phase_check_mean (bufferA bufferB : AudioBuffer) :
  let result := checkPhaseCorrelation bufferA bufferB in
  isFinite result = true
  /\ ((numberOfChannels bufferA < 2)%nat \/ (numberOfChannels bufferB < 2)%nat ->
      result = 1)
  /\ forall leftA rightA restA leftB rightB restB,
       channels bufferA = leftA :: rightA :: restA ->
       channels bufferB = leftB :: rightB :: restB ->
       let minLen := Nat.min (List.length leftA) (List.length leftB) in
       let mean :=
         sum (map (mid_times_side leftA rightA leftB rightB) (seq 0 minLen))
         / N2f minLen in
       result = if (minLen =? 0)%nat || negb (isFinite mean) then 1 else mean.
Proof.
  cbv zeta.
  assert (G : forall leftA rightA restA leftB rightB restB,
            channels bufferA = leftA :: rightA :: restA ->
            channels bufferB = leftB :: rightB :: restB ->
            checkPhaseCorrelation bufferA bufferB
            = if (Nat.min (List.length leftA) (List.length leftB) =? 0)%nat
                 || negb (isFinite
                            (sum (map (mid_times_side leftA rightA leftB rightB)
                                      (seq 0 (Nat.min (List.length leftA)
                                                      (List.length leftB))))
                             / N2f (Nat.min (List.length leftA)
                                            (List.length leftB))))
              then 1
              else sum (map (mid_times_side leftA rightA leftB rightB)
                            (seq 0 (Nat.min (List.length leftA)
                                            (List.length leftB))))
                   / N2f (Nat.min (List.length leftA) (List.length leftB))).
  { intros leftA rightA restA leftB rightB restB HA HB.
    unfold checkPhaseCorrelation. rewrite HA, HB.
    destruct (Nat.min (List.length leftA) (List.length leftB) =? 0)%nat;
      [reflexivity|].
    cbn [orb]. unfold sum. rewrite sum_fold.
    unfold mid_times_side.
    destruct (isFinite _); reflexivity. }
  split; [|split].
  - destruct (channels bufferA) as [|leftA [|rightA restA]] eqn:HA;
      try (unfold checkPhaseCorrelation; rewrite HA; reflexivity).
    destruct (channels bufferB) as [|leftB [|rightB restB]] eqn:HB;
      try (unfold checkPhaseCorrelation; rewrite HA, HB; reflexivity).
    rewrite (G _ _ _ _ _ _ eq_refl eq_refl).
    set (n := Nat.min (List.length leftA) (List.length leftB)).
    set (mean := sum (map (mid_times_side leftA rightA leftB rightB) (seq 0 n))
                 / N2f n).
    destruct (n =? 0)%nat; [reflexivity|].
    cbn [orb]. destruct (isFinite mean) eqn:F; cbn [negb];
      [exact F | reflexivity].
  - unfold checkPhaseCorrelation, numberOfChannels.
    destruct (channels bufferA) as [|leftA [|rightA restA]];
      cbn [List.length]; try reflexivity;
      destruct (channels bufferB) as [|leftB [|rightB restB]];
      cbn [List.length]; try reflexivity; lia.
  - exact G.
Qed.

Lemma phase_check_mean_witness :
  checkPhaseCorrelation loud_clip loud_clip = 0.326171875
  /\ checkPhaseCorrelation slow_clip loud_clip = 1
  /\ isFinite (checkPhaseCorrelation loud_clip loud_clip) = true.
Proof.
  split; [vm_compute; reflexivity|].
  destruct (phase_check_mean slow_clip loud_clip) as (_ & H & _).
  split; [apply H; left; unfold numberOfChannels, slow_clip; simpl; lia|].
  exact (proj1 (phase_check_mean loud_clip loud_clip)).
Defined.

End MasteringExtra.

(* ------------------------------------------------------------------ *)
(** * Further properties of the renderer *)
(* ------------------------------------------------------------------ *)

Module RendererExtra.
Import JS Transition Renderer Spec PlannerSpec RendererSpec Inputs.
Local Open Scope string_scope.
Local Open Scope float_scope.
Local Open Scope list_scope.

(** ** FX on a short track A *)







(** ** Which track an FX touches *)

(** X25.  The FX stage never throws: an error inside an FX is caught and
    the loop goes on.  When it returns, track B is as it was unless the
    plan holds a stutter, and track A and the random source are as they
    were when the plan holds nothing but stutters. *)
Theorem fx_stage_tracks (plan : TransitionPlan) (a b : AnalysisSummary)
  (fxs : list FX) (rng : RandomSource) (A B : AudioBuffer) :
  fst (applyPlanFX plan a b fxs rng A B) <> Thrown
  /\ forall A' B' rng',
       applyPlanFX plan a b fxs rng A B = (Returned (A', B'), rng') ->
       (Forall (fun f => fx_type f <> stutter) fxs -> B' = B)
       /\ (Forall (fun f => fx_type f = stutter) fxs -> A' = A /\ rng' = rng).
Proof.
  revert rng A B.
  induction fxs as [|f fxs IH]; intros rng A B; cbn [applyPlanFX].
  - split; [discriminate|]. intros A' B' rng' H. inversion H; subst.
    split; intros _; [reflexivity | split; reflexivity].
  - assert (Keep : forall rng1 A1 B1,
               (fx_type f <> stutter -> B1 = B) ->
               (fx_type f = stutter -> A1 = A /\ rng1 = rng) ->
               fst (applyPlanFX plan a b fxs rng1 A1 B1) <> Thrown
               /\ forall A' B' rng',
                    applyPlanFX plan a b fxs rng1 A1 B1
                    = (Returned (A', B'), rng') ->
                    (Forall (fun f => fx_type f <> stutter) (f :: fxs) ->
                     B' = B)
                    /\ (Forall (fun f => fx_type f = stutter) (f :: fxs) ->
                        A' = A /\ rng' = rng)).
    { intros rng1 A1 B1 HB HA.
      destruct (IH rng1 A1 B1) as [Hn Hr]. split; [exact Hn|].
      intros A' B' rng' Hrun. destruct (Hr A' B' rng' Hrun) as [H1 H2].
      split; intros Hall; inversion Hall as [|? ? Hf Hrest]; subst.
      - rewrite (H1 Hrest). apply HB, Hf.
      - destruct (H2 Hrest) as [-> ->]. apply HA, Hf. }
    destruct ((fxTime plan a f <? 0) || isNaN (fxTime plan a f)
              || negb (isFinite (fxTime plan a f))).
    { apply Keep; [reflexivity | split; reflexivity]. }
    destruct (fx_type f) eqn:T.
    + destruct (FXProcessor.applyNoiseSweep _ _ _ _) as [[A1| |] rng1].
      * apply Keep; [reflexivity | discriminate].
      * apply Keep; [reflexivity | discriminate].
      * split; [discriminate | intros ? ? ? H; discriminate H].
    + destruct (FXProcessor.applyReverseReverb _ _ _) as [A1| |].
      * apply Keep; [reflexivity | discriminate].
      * apply Keep; [reflexivity | discriminate].
      * split; [discriminate | intros ? ? ? H; discriminate H].
    + destruct (FXProcessor.applyTapeStop _ _ _) as [A1| |].
      * apply Keep; [reflexivity | discriminate].
      * apply Keep; [reflexivity | discriminate].
      * split; [discriminate | intros ? ? ? H; discriminate H].
    + destruct (FXProcessor.applyStutter _ _ _ _ _) as [B1| |].
      * apply Keep; [congruence | split; reflexivity].
      * apply Keep; [reflexivity | split; reflexivity].
      * split; [discriminate | intros ? ? ? H; discriminate H].
Qed.

End RendererExtra.

(* ------------------------------------------------------------------ *)
(** * The WAV container *)
(* ------------------------------------------------------------------ *)

Module WavExtra.
Import JS Renderer Spec RendererSpec Inputs WholeNumbers.
Local Open Scope string_scope.
Local Open Scope float_scope.
Local Open Scope list_scope.

Lemma le16_bytes (z : Z) : Forall is_byte (le16 z).
Proof.
  unfold le16, is_byte.
  repeat (constructor; [apply Z.mod_pos_bound; lia|]). constructor.
Qed.

Lemma le32_bytes (z : Z) : Forall is_byte (le32 z).
Proof.
  unfold le32, is_byte.
  repeat (constructor; [apply Z.mod_pos_bound; lia|]). constructor.
Qed.

Lemma writeString_bytes (s : string) : Forall is_byte (writeString s).
Proof.
  unfold writeString. apply Forall_forall. intros b Hb.
  apply in_map_iff in Hb. destruct Hb as (c & <- & _).
  pose proof (nat_ascii_bounded c). unfold is_byte. lia.
Qed.

Lemma wav_header_bytes (n : nat) (rate : float) (len : nat) :
  Forall is_byte (wav_header n rate len).
Proof.
  unfold wav_header, setUint32, setUint16.
  repeat (apply Forall_app; split);
    first [apply writeString_bytes | apply le32_bytes | apply le16_bytes].
Qed.

Lemma wav_data_bytes (buffer : AudioBuffer) : Forall is_byte (wav_data buffer).
Proof.
  unfold wav_data, wav_frame. apply Forall_forall. intros b Hb.
  apply in_flat_map in Hb. destruct Hb as (i & _ & Hb).
  apply in_flat_map in Hb. destruct Hb as (ch & _ & Hb).
  unfold encode_sample, setInt16 in Hb.
  exact (proj1 (Forall_forall _ _) (le16_bytes _) b Hb).
Qed.

Lemma frame_bytes_length (channels : list (list float)) (i : nat) :
  List.length (wav_frame channels i) = (2 * List.length channels)%nat.
Proof.
  unfold wav_frame. induction channels as [|c cs IH]; [reflexivity|].
  cbn [flat_map List.length]. rewrite length_app, IH.
  change (List.length (encode_sample (get c i))) with 2%nat. lia.
Qed.

Lemma wav_frames_length (channels : list (list float)) (frames : list nat) :
  List.length (flat_map (wav_frame channels) frames)
  = (List.length frames * List.length channels * 2)%nat.
Proof.
  induction frames as [|i frames IH]; [reflexivity|].
  cbn [flat_map List.length].
  rewrite length_app, IH, frame_bytes_length. lia.
Qed.

Lemma wav_data_length (buffer : AudioBuffer) :
  List.length (wav_data buffer)
  = (buffer_length buffer * numberOfChannels buffer * 2)%nat.
Proof.
  unfold wav_data, numberOfChannels.
  rewrite wav_frames_length, length_seq. reflexivity.
Qed.

(** X26.  [bufferToWave] refuses exactly the buffers with no frame or no
    channel and the sample rates that are not positive finite numbers.
    What it returns otherwise is a list of bytes, 44 for the header and
    two per sample.  The header carries the ASCII tags RIFF at offset 0,
    WAVE and fmt at offset 8 and data at offset 36, the chunk size 16 and
    the format 1 (PCM) at offset 16, and 16 bits per sample at offset
    34.  For a file below 4 GiB, offset 40 holds the number of data
    bytes and offset 4 that number plus 36, both as 32-bit little-endian
    integers. *)
Theorem wav_container (buffer : AudioBuffer) (sampleRate : float) :
  let dataLength :=
    (buffer_length buffer * numberOfChannels buffer * 2)%nat in
  match bufferToWave buffer sampleRate with
  | Some bytes =>
      (0 < buffer_length buffer)%nat /\ (0 < numberOfChannels buffer)%nat
      /\ gtb sampleRate 0 = true /\ isFinite sampleRate = true
      /\ List.length bytes = (44 + dataLength)%nat
      /\ Forall is_byte bytes
      /\ slice bytes 0 4 = [82; 73; 70; 70]%Z
      /\ slice bytes 8 16 = [87; 65; 86; 69; 102; 109; 116; 32]%Z
      /\ slice bytes 16 22 = [16; 0; 0; 0; 1; 0]%Z
      /\ slice bytes 34 36 = [16; 0]%Z
      /\ slice bytes 36 40 = [100; 97; 116; 97]%Z
      /\ ((36 + Z.of_nat dataLength < 4294967296)%Z ->
          let riff := (36 + Z.of_nat dataLength)%Z in
          let data := Z.of_nat dataLength in
          slice bytes 4 8
          = [riff mod 256; riff / 256 mod 256; riff / 65536 mod 256;
             riff / 16777216 mod 256]%Z
          /\ slice bytes 40 44
             = [data mod 256; data / 256 mod 256; data / 65536 mod 256;
                data / 16777216 mod 256]%Z)
  | None =>
      buffer_length buffer = O \/ numberOfChannels buffer = O
      \/ (sampleRate <=? 0) = true \/ isFinite sampleRate = false
  end.
Proof.
  cbv zeta. unfold bufferToWave.
  destruct (Nat.eqb_spec (buffer_length buffer) 0) as [E1 | N1];
    [now left|].
  destruct (Nat.eqb_spec (numberOfChannels buffer) 0) as [E2 | N2];
    [now right; left|].
  cbn [orb].
  destruct (sampleRate <=? 0) eqn:L; [now right; right; left|].
  destruct (isFinite sampleRate) eqn:F; [|now right; right; right].
  cbn [orb negb].
  split; [lia|]. split; [lia|].
  split.
  { unfold gtb.
    destruct (0 <? sampleRate) eqn:G; [reflexivity|].
    assert (Hn : is_nan sampleRate = false).
    { unfold isFinite, is_finite in F.
      apply negb_true_iff, orb_false_iff in F. apply F. }
    rewrite (FloatOrder.not_ltb_leb 0 sampleRate eq_refl Hn G) in L.
    discriminate L. }
  split; [reflexivity|].
  split.
  { rewrite length_app, wav_data_length. reflexivity. }
  split.
  { apply Forall_app. split; [apply wav_header_bytes | apply wav_data_bytes]. }
  do 5 (split; [reflexivity|]).
  intros Hsize.
  set (n := (buffer_length buffer * numberOfChannels buffer * 2)%nat) in *.
  clearbody n.
  split.
  - change (slice (wav_header (numberOfChannels buffer) sampleRate n
                   ++ wav_data buffer) 4 8)
      with (setUint32 (36 + N2f n)).
    unfold setUint32, le32.
    rewrite truncZ_riff_size
      by (change (2 ^ 53)%Z with 9007199254740992%Z; lia).
    rewrite (Z.mod_small (36 + Z.of_nat n) 4294967296) by lia. reflexivity.
  - change (slice (wav_header (numberOfChannels buffer) sampleRate n
                   ++ wav_data buffer) 40 44)
      with (setUint32 (N2f n)).
    unfold setUint32, le32.
    rewrite truncZ_N2f
      by (change (2 ^ 53)%Z with 9007199254740992%Z; lia).
    rewrite (Z.mod_small (Z.of_nat n) 4294967296) by lia. reflexivity.
Qed.

Lemma wav_container_witness :
  bufferToWave two_frames 8000
  = Some [82; 73; 70; 70; 44; 0; 0; 0; 87; 65; 86; 69; 102; 109; 116; 32;
          16; 0; 0; 0; 1; 0; 2; 0; 64; 31; 0; 0; 0; 125; 0; 0; 4; 0; 16; 0;
          100; 97; 116; 97; 8; 0; 0; 0;
          255; 63; 255; 127; 0; 192; 0; 128]%Z
  /\ match bufferToWave two_frames 8000 with
     | Some bytes =>
         List.length bytes = 52%nat
         /\ slice bytes 4 8 = [44; 0; 0; 0]%Z
         /\ slice bytes 40 44 = [8; 0; 0; 0]%Z
     | None => False
     end.
Proof.
  split; [vm_compute; reflexivity|].
  pose proof (wav_container two_frames 8000) as H. cbv zeta in H.
  destruct (bufferToWave two_frames 8000) as [bytes|].
  - destruct H as (_ & _ & _ & _ & L & _ & _ & _ & _ & _ & _ & S).
    destruct (S ltac:(vm_compute; reflexivity)) as [S1 S2].
    split; [exact L|]. split; [exact S1 | exact S2].
  - destruct H as [H | [H | [H | H]]]; discriminate H.
Defined.

End WavExtra.
